(** * Baseball trajectory engine: batted ball, pitch and angle solver

    A shallow embedding of [utils/physics.ts] (the trajectory engine of the
    simulator) and the proofs of its specification.

    The engine computes on JavaScript numbers, that is on IEEE 754 binary64
    values.  The code is written once over an arithmetic interface [Arith]
    and read at two instances:
    - [float], Rocq's primitive binary64 numbers: what the engine runs.
      Every statement about what the code returns is about this instance,
      and it computes ([vm_compute]).
    - [R], the real numbers: the exact arithmetic in which the physical
      identities of the specification (a reflection keeps the speed, a
      friction step lowers it by a fixed amount) are stated.

    The functions of the JavaScript [Math] object that ECMAScript leaves
    implementation-approximated ([Math.sin], [Math.cos], [Math.atan2] and
    the power operator) are the fields of a second interface, [MathLib]:
    the theorems hold for every implementation of it.  [Math.sqrt] is read
    as the correctly rounded square root of IEEE 754, which is what the
    engines compute.

    Loops run on fuel: a function of the engine returns [None] when the
    fuel runs out, and the theorems give the fuel that always suffices.

    After the specification come the properties of the result records
    (how the fields of a result relate to its samples, how the loops are
    left), of the solver and of the geometry of the fence, the symmetry
    of a pitch, and the relation of the engine to the two earlier states
    of it that the file holds ([Previous], [Earlier]). *)

From Stdlib Require Import Floats QArith Reals List Bool ZArith Lia Lra Uint63.
Import ListNotations.

Close Scope Q_scope.
Close Scope R_scope.

(** ** Arithmetic *)

Class Arith (A : Type) : Type := {
  lit : Q -> A;               (* a decimal literal of the source *)
  nadd : A -> A -> A;
  nsub : A -> A -> A;
  nmul : A -> A -> A;
  ndiv : A -> A -> A;
  nneg : A -> A;              (* unary minus *)
  nsqrt : A -> A;             (* Math.sqrt *)
  nabs : A -> A;              (* Math.abs *)
  nltb : A -> A -> bool;      (* x < y *)
  nleb : A -> A -> bool       (* x <= y *)
}.

Arguments lit {A _} q%_Q.

Class MathLib (A : Type) : Type := {
  Math_PI : A;
  Math_sin : A -> A;
  Math_cos : A -> A;
  Math_atan2 : A -> A -> A;
  Math_pow2 : A -> A          (* x ** 2 *)
}.

Declare Scope num_scope.
Delimit Scope num_scope with num.
Notation "x + y" := (nadd x y) : num_scope.
Notation "x - y" := (nsub x y) : num_scope.
Notation "x * y" := (nmul x y) : num_scope.
Notation "x / y" := (ndiv x y) : num_scope.
Notation "- x" := (nneg x) : num_scope.
Notation "x <? y" := (nltb x y) : num_scope.
Notation "x <=? y" := (nleb x y) : num_scope.
Notation "x >? y" := (nltb y x) : num_scope.
Notation "x >=? y" := (nleb y x) : num_scope.

(** *** The binary64 instance *)

Definition Z2F (z : Z) : float :=
  match z with
  | Z0 => PrimFloat.of_uint63 0
  | Zpos _ => PrimFloat.of_uint63 (Uint63.of_Z z)
  | Zneg p => PrimFloat.opp (PrimFloat.of_uint63 (Uint63.of_Z (Zpos p)))
  end.

(** A decimal literal [m / 10^k] denotes the binary64 value nearest to it.
    Numerator and denominator are exact in binary64 for every literal of
    the source, and the division rounds correctly, so the quotient is that
    value. *)
Definition float_lit (q : Q) : float :=
  PrimFloat.div (Z2F (Qnum q)) (Z2F (Zpos (Qden q))).

#[export] Instance float_arith : Arith float := {|
  lit := float_lit;
  nadd := PrimFloat.add;
  nsub := PrimFloat.sub;
  nmul := PrimFloat.mul;
  ndiv := PrimFloat.div;
  nneg := PrimFloat.opp;
  nsqrt := PrimFloat.sqrt;
  nabs := PrimFloat.abs;
  nltb := PrimFloat.ltb;
  nleb := PrimFloat.leb
|}.

(** *** The exact instance *)

Definition Rltb (x y : R) : bool := if Rlt_dec x y then true else false.
Definition Rleb (x y : R) : bool := if Rle_dec x y then true else false.

#[export] Instance real_arith : Arith R := {|
  lit := Q2R;
  nadd := Rplus;
  nsub := Rminus;
  nmul := Rmult;
  ndiv := Rdiv;
  nneg := Ropp;
  nsqrt := R_sqrt.sqrt;
  nabs := Rabs;
  nltb := Rltb;
  nleb := Rleb
|}.

(** ** Control flow *)

(** One pass through a loop body either falls through to the next test of
    the loop condition or leaves the loop with [break]. *)
Inductive flow (S : Type) : Type :=
| Next (s : S)
| Break (s : S).
Arguments Next {S} s.
Arguments Break {S} s.

(** [while (cond) body], run for at most [fuel] tests of the condition.
    [None] means the fuel ran out before the loop was left. *)
Fixpoint while_loop {S : Type} (cond : S -> bool) (body : S -> flow S)
  (fuel : nat) (s : S) : option S :=
  match fuel with
  | O => None
  | Datatypes.S n =>
      if cond s then
        match body s with
        | Next s' => while_loop cond body n s'
        | Break s' => Some s'
        end
      else Some s
  end.

Fixpoint iterate {T : Type} (f : T -> T) (n : nat) (x : T) : T :=
  match n with
  | O => x
  | Datatypes.S k => iterate f k (f x)
  end.

(** ** The engine *)

Section Engine.

Context {A : Type} {AR : Arith A} {ML : MathLib A}.
Local Open Scope num_scope.

(** *** Types ([types.ts]) *)

Record Point3D : Type := mkPoint {
  p_x : A;
  p_y : A;
  p_z : A;
  p_t : A;
  p_break : option (A * A)     (* breakX, breakY: pitches only *)
}.

Record TrajectoryResult : Type := mkResult {
  points : list Point3D;
  distance : A;
  maxHeight : A;
  hangTime : A;
  landingPosition : option (A * A * A);
  finalPosition : option (A * A);
  plateCrossing : option (A * A)
}.

Record PitchingParams : Type := mkPitch {
  velocity : A;
  spinRate : A;
  spinDirection : A;
  spinEfficiency : A;
  hAngle : A;
  vAngle : A;
  releaseHeight : A;
  releaseSide : A;
  extension : A;
  targetX : A;
  targetY : A;
  gyroDegree : A
}.

(** *** Constants *)

Definition GRAVITY : A := lit 9.81.
Definition AIR_DENSITY : A := lit 1.225.
Definition BALL_MASS : A := lit 0.145.
Definition BALL_RADIUS : A := lit 0.037.
Definition BALL_AREA : A := Math_PI * Math_pow2 BALL_RADIUS.
Definition DRAG_COEFFICIENT : A := lit 0.30.
Definition BATTING_LIFT_COEFFICIENT : A := lit 0.15.

Definition MOUND_DISTANCE : A := lit 18.44.
Definition CATCHER_DEPTH : A := lit 1.5.

Definition WALL_HEIGHT : A := lit 4.0.
Definition COR_GROUND : A := lit 0.45.
Definition COR_WALL : A := lit 0.7.
Definition STOP_VELOCITY : A := lit 0.1.

Definition FRICTION_BOUNCE : A := lit 0.92.
Definition MU_ROLLING : A := lit 0.25.

Record WallSegment : Type := mkSeg {
  x1 : A; z1 : A; x2 : A; z2 : A
}.

Definition WALL_SEGMENTS : list WallSegment :=
  [ mkSeg (- lit 70.71) (lit 70.71) (- lit 42.1) (lit 101.6);
    mkSeg (- lit 42.1) (lit 101.6) (lit 0) (lit 122);
    mkSeg (lit 0) (lit 122) (lit 42.1) (lit 101.6);
    mkSeg (lit 42.1) (lit 101.6) (lit 70.71) (lit 70.71) ].

(** *** Segment geometry *)

Definition getLineIntersection
  (p0_x p0_y p1_x p1_y p2_x p2_y p3_x p3_y : A) : option (A * A) :=
  let s1_x := p1_x - p0_x in
  let s1_y := p1_y - p0_y in
  let s2_x := p3_x - p2_x in
  let s2_y := p3_y - p2_y in
  let s := ((- s1_y) * (p0_x - p2_x) + s1_x * (p0_y - p2_y))
           / ((- s2_x) * s1_y + s1_x * s2_y) in
  let t := (s2_x * (p0_y - p2_y) - s2_y * (p0_x - p2_x))
           / ((- s2_x) * s1_y + s1_x * s2_y) in
  if (s >=? lit 0) && (s <=? lit 1) && (t >=? lit 0) && (t <=? lit 1)
  then Some (p0_x + t * s1_x, p0_y + t * s1_y)
  else None.

(** The unit normal of a wall segment, turned towards the origin. *)
Definition wall_normal (seg : WallSegment) : A * A :=
  let dx := x2 seg - x1 seg in
  let dz := z2 seg - z1 seg in
  let len := nsqrt (dx * dx + dz * dz) in
  let midX := (x1 seg + x2 seg) / lit 2 in
  let midZ := (z1 seg + z2 seg) / lit 2 in
  let nx := (- dz) / len in
  let nz := dx / len in
  if (nx * midX + nz * midZ) >? lit 0 then (- nx, - nz) else (nx, nz).

(** *** Batted ball *)

Record BatState : Type := mkBat {
  b_x : A; b_y : A; b_z : A; b_t : A;
  b_vx : A; b_vy : A; b_vz : A;
  b_points : list Point3D;
  b_maxHeight : A;
  b_carryDistance : A;
  b_landingPosition : option (A * A * A);
  b_hasHitGround : bool
}.

Definition bat_dt : A := lit 0.01.
Definition bat_maxTime : A := lit 20.

(** The first part of the loop body: the sample is recorded, then velocity
    and position advance by one explicit Euler step under gravity, drag
    against the air and lift. *)
Definition bat_integrate (wx wy wz : A) (s : BatState) : BatState :=
  let x := b_x s in let y := b_y s in let z := b_z s in let t := b_t s in
  let vx := b_vx s in let vy := b_vy s in let vz := b_vz s in
  let points := b_points s ++ [mkPoint x y z t None] in
  let maxHeight := if y >? b_maxHeight s then y else b_maxHeight s in
  let vrx := vx - wx in
  let vry := vy - wy in
  let vrz := vz - wz in
  let vRelTotal := nsqrt (vrx * vrx + vry * vry + vrz * vrz) in
  let '(ax, ay, az) :=
    if vRelTotal >? lit 0.1 then
      let Fd := lit 0.5 * AIR_DENSITY * Math_pow2 vRelTotal
                * DRAG_COEFFICIENT * BALL_AREA in
      let ad := Fd / BALL_MASS in
      let axDrag := (- ad) * (vrx / vRelTotal) in
      let ayDrag := (- ad) * (vry / vRelTotal) in
      let azDrag := (- ad) * (vrz / vRelTotal) in
      let axLift := lit 0 in
      let ayLift :=
        if y >? lit 0.05 then
          let Fl := lit 0.5 * AIR_DENSITY * Math_pow2 vRelTotal
                    * BATTING_LIFT_COEFFICIENT * BALL_AREA in
          let al := Fl / BALL_MASS in
          let vHorizontal := nsqrt (vx * vx + vz * vz) in
          let vTotal := nsqrt (vHorizontal * vHorizontal + vy * vy) in
          if vTotal >? lit 0 then al * (vHorizontal / vTotal) else lit 0
        else lit 0 in
      (axDrag + axLift, (- GRAVITY) + ayDrag + ayLift, azDrag)
    else (lit 0, - GRAVITY, lit 0) in
  let vx := vx + ax * bat_dt in
  let vy := vy + ay * bat_dt in
  let vz := vz + az * bat_dt in
  let x := x + vx * bat_dt in
  let y := y + vy * bat_dt in
  let z := z + vz * bat_dt in
  let t := t + bat_dt in
  mkBat x y z t vx vy vz points maxHeight
        (b_carryDistance s) (b_landingPosition s) (b_hasHitGround s).

(** The reflection off a wall segment hit at [intersect]. *)
Definition wall_bounce (seg : WallSegment) (intersect : A * A)
  (s : BatState) : BatState :=
  let '(nx, nz) := wall_normal seg in
  let vx := b_vx s in let vy := b_vy s in let vz := b_vz s in
  let vDotN := vx * nx + vz * nz in
  if vDotN <? lit 0 then
    mkBat (fst intersect + nx * lit 0.2) (b_y s) (snd intersect + nz * lit 0.2)
          (b_t s)
          ((vx - lit 2 * vDotN * nx) * COR_WALL)
          (vy * lit 0.8)
          ((vz - lit 2 * vDotN * nz) * COR_WALL)
          (b_points s) (b_maxHeight s)
          (b_carryDistance s) (b_landingPosition s) (b_hasHitGround s)
  else s.

(** [for (const seg of segs) { if (intersect) { ...; break; } }] *)
Fixpoint wall_scan (segs : list WallSegment) (prevX prevZ : A)
  (s : BatState) : BatState :=
  match segs with
  | [] => s
  | seg :: rest =>
      match getLineIntersection prevX prevZ (b_x s) (b_z s)
              (x1 seg) (z1 seg) (x2 seg) (z2 seg) with
      | Some intersect => wall_bounce seg intersect s
      | None => wall_scan rest prevX prevZ s
      end
  end.

Definition wall_collision (prevX prevZ : A) (s : BatState) : BatState :=
  if (b_z s >? lit 60) && (b_y s >=? lit 0) && (b_y s <=? WALL_HEIGHT)
  then wall_scan WALL_SEGMENTS prevX prevZ s
  else s.

(** The ground: clamp, freeze the carry at the first contact, then roll
    (friction, possibly stopping) or bounce. *)
Definition ground_collision (s : BatState) : flow BatState :=
  if b_y s <=? lit 0 then
    let y := lit 0 in
    let x := b_x s in let z := b_z s in
    let vx := b_vx s in let vy := b_vy s in let vz := b_vz s in
    let '(hasHitGround, carryDistance, landing) :=
      if negb (b_hasHitGround s)
      then (true, nsqrt (x * x + z * z), Some (x, lit 0, z))
      else (b_hasHitGround s, b_carryDistance s, b_landingPosition s) in
    let st vx vy vz :=
      mkBat x y z (b_t s) vx vy vz (b_points s) (b_maxHeight s)
            carryDistance landing hasHitGround in
    if nabs vy <? lit 1.0 then
      let vy := lit 0 in
      let speedXZ := nsqrt (vx * vx + vz * vz) in
      if speedXZ >? lit 0 then
        let deceleration := MU_ROLLING * GRAVITY in
        let speedLoss := deceleration * bat_dt in
        if speedXZ <=? speedLoss + STOP_VELOCITY then
          Break (st (lit 0) vy (lit 0))
        else
          let newSpeed := speedXZ - speedLoss in
          let ratio := newSpeed / speedXZ in
          Next (st (vx * ratio) vy (vz * ratio))
      else Break (st vx vy vz)
    else
      Next (st (vx * FRICTION_BOUNCE) ((- vy) * COR_GROUND)
               (vz * FRICTION_BOUNCE))
  else Next s.

Definition bat_cond (s : BatState) : bool := b_t s <? bat_maxTime.

Definition bat_body (wx wy wz : A) (s : BatState) : flow BatState :=
  let prevX := b_x s in
  let prevZ := b_z s in
  ground_collision (wall_collision prevX prevZ (bat_integrate wx wy wz s)).

Definition bat_wind (windSpeedMs windDirectionDeg : A) : A * A * A :=
  let windRad := windDirectionDeg * (Math_PI / lit 180) in
  let wx := (- windSpeedMs) * Math_sin windRad in
  let wz := windSpeedMs * Math_cos windRad in
  let wy := lit 0 in
  (wx, wy, wz).

Definition bat_init (velocityKmh launchAngleDeg sprayAngleDeg : A)
  : BatState :=
  let v0 := velocityKmh * (lit 1000 / lit 3600) in
  let theta := launchAngleDeg * (Math_PI / lit 180) in
  let phi := (- sprayAngleDeg) * (Math_PI / lit 180) in
  let vx := v0 * Math_cos theta * Math_sin phi in
  let vy := v0 * Math_sin theta in
  let vz := v0 * Math_cos theta * Math_cos phi in
  let y := lit 0.5 in
  mkBat (lit 0) y (lit 0) (lit 0) vx vy vz [] y (lit 0) None false.

Definition bat_result (s : BatState) : TrajectoryResult :=
  let carryDistance :=
    if negb (b_hasHitGround s)
    then nsqrt (b_x s * b_x s + b_z s * b_z s)
    else b_carryDistance s in
  mkResult (b_points s) carryDistance (b_maxHeight s) (b_t s)
           (b_landingPosition s) None None.

Definition calculateTrajectory (fuel : nat)
  (velocityKmh launchAngleDeg sprayAngleDeg windSpeedMs windDirectionDeg : A)
  : option TrajectoryResult :=
  let '(wx, wy, wz) := bat_wind windSpeedMs windDirectionDeg in
  option_map bat_result
    (while_loop bat_cond (bat_body wx wy wz) fuel
       (bat_init velocityKmh launchAngleDeg sprayAngleDeg)).

(** *** Pitch *)

Record PitchState : Type := mkPit {
  q_x : A; q_y : A; q_z : A; q_t : A;
  q_vx : A; q_vy : A; q_vz : A;
  q_points : list Point3D;
  q_maxHeight : A;
  q_plateCrossing : option (A * A);
  q_vBreakX : A; q_vBreakY : A;
  q_currentBreakX : A; q_currentBreakY : A
}.

Definition pitch_dt : A := lit 0.002.
Definition MAX_SIMULATION_TIME : A := lit 5.0.

(** The sample pushed for the current state, break reported in cm. *)
Definition pitch_sample (s : PitchState) : Point3D :=
  mkPoint (q_x s) (q_y s) (q_z s) (q_t s)
          (Some (q_currentBreakX s * lit 100, q_currentBreakY s * lit 100)).

(** The point of the straight line from the previous to the current
    position at which z = 0. *)
Definition interpolate_plate (prevX prevY prevZ x y z : A) : A * A :=
  let fraction := (lit 0 - prevZ) / (z - prevZ) in
  (prevX + (x - prevX) * fraction, prevY + (y - prevY) * fraction).

Definition pitch_cond (s : PitchState) : bool := q_z s >? - CATCHER_DEPTH.

Definition pitch_body (params : PitchingParams) (omega : A)
  (s : PitchState) : flow PitchState :=
  let x := q_x s in let y := q_y s in let z := q_z s in let t := q_t s in
  let vx := q_vx s in let vy := q_vy s in let vz := q_vz s in
  let prevX := x in
  let prevY := y in
  let prevZ := z in
  let points := q_points s ++ [pitch_sample s] in
  let maxHeight := if y >? q_maxHeight s then y else q_maxHeight s in
  let pushed :=
    mkPit x y z t vx vy vz points maxHeight (q_plateCrossing s)
          (q_vBreakX s) (q_vBreakY s)
          (q_currentBreakX s) (q_currentBreakY s) in
  if t >? MAX_SIMULATION_TIME then Break pushed
  else if y <=? lit 0 then Break pushed
  else
    let vTotal := nsqrt (vx * vx + vy * vy + vz * vz) in
    let Fd := lit 0.5 * AIR_DENSITY * Math_pow2 vTotal
              * DRAG_COEFFICIENT * BALL_AREA in
    let ad := Fd / BALL_MASS in
    let axDrag := (- ad) * (vx / vTotal) in
    let ayDrag := (- ad) * (vy / vTotal) in
    let azDrag := (- ad) * (vz / vTotal) in
    let S := (BALL_RADIUS * omega) / vTotal in
    let Cl := S in
    let liftForceMag := lit 0.5 * AIR_DENSITY * Math_pow2 vTotal
                        * BALL_AREA * Cl in
    let radAxis := spinDirection params * (Math_PI / lit 180) in
    let fMagX := liftForceMag * Math_sin radAxis in
    let fMagY := liftForceMag * Math_cos radAxis in
    let axMag := fMagX / BALL_MASS in
    let ayMag := fMagY / BALL_MASS in
    let ax := axDrag + axMag in
    let ay := (- GRAVITY) + ayDrag + ayMag in
    let az := azDrag in
    let vBreakX := q_vBreakX s + axMag * pitch_dt in
    let vBreakY := q_vBreakY s + ayMag * pitch_dt in
    let currentBreakX := q_currentBreakX s + vBreakX * pitch_dt in
    let currentBreakY := q_currentBreakY s + vBreakY * pitch_dt in
    let vx := vx + ax * pitch_dt in
    let vy := vy + ay * pitch_dt in
    let vz := vz + az * pitch_dt in
    let x := x + vx * pitch_dt in
    let y := y + vy * pitch_dt in
    let z := z + vz * pitch_dt in
    let t := t + pitch_dt in
    let plateCrossing :=
      if (prevZ >=? lit 0) && (z <? lit 0)
      then Some (interpolate_plate prevX prevY prevZ x y z)
      else q_plateCrossing s in
    Next (mkPit x y z t vx vy vz points maxHeight plateCrossing
                vBreakX vBreakY currentBreakX currentBreakY).

Definition pitch_init (params : PitchingParams) : PitchState :=
  let v0 := velocity params * (lit 1000 / lit 3600) in
  let extensionM := extension params / lit 100 in
  let sideM := releaseSide params / lit 100 in
  let heightM := releaseHeight params in
  let startZ := MOUND_DISTANCE - extensionM in
  let hRad := hAngle params * (Math_PI / lit 180) in
  let vRad := vAngle params * (Math_PI / lit 180) in
  let vx := v0 * Math_sin hRad * Math_cos vRad in
  let vy := v0 * Math_sin vRad in
  let vz := (- v0) * Math_cos hRad * Math_cos vRad in
  mkPit sideM heightM startZ (lit 0) vx vy vz [] heightM None
        (lit 0) (lit 0) (lit 0) (lit 0).

Definition pitch_omega (params : PitchingParams) : A :=
  let trueSpin := spinRate params * (spinEfficiency params / lit 100) in
  (trueSpin * lit 2 * Math_PI) / lit 60.

Definition pitch_result (s : PitchState) : TrajectoryResult :=
  let points := q_points s ++ [pitch_sample s] in
  mkResult points (MOUND_DISTANCE - q_z s) (q_maxHeight s) (q_t s)
           None
           (Some (q_x s, q_y s))
           (Some (match q_plateCrossing s with
                  | Some c => c
                  | None => (q_x s, q_y s)
                  end)).

(** The result returned without integration when the velocity is at most
    0.1 km/h. *)
Definition pitch_degenerate (params : PitchingParams) : TrajectoryResult :=
  mkResult
    [mkPoint (releaseSide params / lit 100) (releaseHeight params)
             (MOUND_DISTANCE - extension params / lit 100) (lit 0)
             (Some (lit 0, lit 0))]
    (lit 0) (releaseHeight params) (lit 0)
    None
    (Some (releaseSide params / lit 100, releaseHeight params))
    (Some (releaseSide params / lit 100, releaseHeight params)).

Definition calculatePitchTrajectory (fuel : nat) (params : PitchingParams)
  : option TrajectoryResult :=
  if velocity params <=? lit 0.1 then Some (pitch_degenerate params)
  else
    option_map pitch_result
      (while_loop pitch_cond (pitch_body params (pitch_omega params)) fuel
         (pitch_init params)).

(** *** Angle solver *)

Definition with_angles (params : PitchingParams) (h v : A) : PitchingParams :=
  mkPitch (velocity params) (spinRate params) (spinDirection params)
          (spinEfficiency params) h v (releaseHeight params)
          (releaseSide params) (extension params)
          (targetX params) (targetY params) (gyroDegree params).

Definition solver_gain : A := lit 2.5.
Definition solver_tolerance : A := lit 0.0005.

(** [result.plateCrossing || result.finalPosition] *)
Definition crossing_of_result (r : TrajectoryResult) : option (A * A) :=
  match plateCrossing r with
  | Some c => Some c
  | None => finalPosition r
  end.

(** The [for] loop of the solver with [n] iterations left.  The third
    component of the result counts the calls of the integrator. *)
Fixpoint solve_loop (fuel : nat) (params : PitchingParams)
  (targetX targetY : A) (n : nat) (hAngle vAngle : A) (calls : nat)
  : option (A * A * nat) :=
  match n with
  | O => Some (hAngle, vAngle, calls)
  | Datatypes.S n' =>
      match calculatePitchTrajectory fuel (with_angles params hAngle vAngle)
      with
      | None => None
      | Some result =>
          match crossing_of_result result with
          | None => Some (hAngle, vAngle, Datatypes.S calls)
          | Some (actualX, actualY) =>
              let errorX := targetX - actualX in
              let errorY := targetY - actualY in
              if (nabs errorX <? solver_tolerance)
                 && (nabs errorY <? solver_tolerance)
              then Some (hAngle, vAngle, Datatypes.S calls)
              else solve_loop fuel params targetX targetY n'
                     (hAngle + errorX * solver_gain)
                     (vAngle + errorY * solver_gain)
                     (Datatypes.S calls)
          end
      end
  end.

Definition solver_guess (params : PitchingParams) (targetX targetY : A)
  : A * A :=
  let distZ := lit 18.44 - (extension params / lit 100) in
  let relX := releaseSide params / lit 100 in
  let relY := releaseHeight params in
  (Math_atan2 (targetX - relX) distZ * (lit 180 / Math_PI),
   Math_atan2 (targetY - relY) distZ * (lit 180 / Math_PI)).

Definition solve_traced (fuel : nat) (params : PitchingParams)
  (targetX targetY : A) : option (A * A * nat) :=
  if velocity params <=? lit 0.1
  then Some (hAngle params, vAngle params, O)
  else
    let '(hAngle, vAngle) := solver_guess params targetX targetY in
    solve_loop fuel params targetX targetY 10 hAngle vAngle O.

Definition solvePitchAngles (fuel : nat) (params : PitchingParams)
  (targetX targetY : A) : option (A * A) :=
  option_map fst (solve_traced fuel params targetX targetY).

End Engine.

(** ** A reference [Math] library in binary64

    Concrete runs of the engine need the functions of [MathLib].  This is a
    plain implementation of them: Cody-Waite reduction and Taylor
    polynomials for sine and cosine, the arctangent series after reduction
    to [0, tan (pi/12)].  At the zeros, at the infinities and at NaN it
    returns what ECMAScript prescribes.  Only the concrete runs use it. *)

Module RefMath.
Local Open Scope float_scope.

Definition PI : float := 0x1.921fb54442d18p+1.
(* pi/2 as a head with trailing zero bits plus a tail *)
Definition PIO2_hi : float := 0x1.921fb54400000p+0.
Definition PIO2_lo : float := 0x1.0b4611a626331p-34.
Definition magic : float := 0x1.8p+52.

(** The nearest integer, for arguments below 2^51 in magnitude. *)
Definition round_int (x : float) : float := (x + magic) - magic.

(** [c0 + u * (c1 + u * (c2 + ...))] *)
Fixpoint horner (cs : list float) (u : float) : float :=
  match cs with
  | [] => 0
  | c :: rest => c + u * horner rest u
  end.

Definition sin_coeffs : list float :=
  [1; - (1/6); 1/120; - (1/5040); 1/362880; - (1/39916800); 1/6227020800;
   - (1/1307674368000); 1/355687428096000].
Definition cos_coeffs : list float :=
  [1; - (1/2); 1/24; - (1/720); 1/40320; - (1/3628800); 1/479001600;
   - (1/87178291200); 1/20922789888000; - (1/6402373705728000)].

Definition sin_poly (r : float) : float := r * horner sin_coeffs (r * r).
Definition cos_poly (r : float) : float := horner cos_coeffs (r * r).

(** [x = k * pi/2 + r] with [r] in [-pi/4, pi/4]; returns [r] and the
    representative of [k] modulo 4 in [-2, 2]. *)
Definition reduce (x : float) : float * float :=
  let k := round_int (x * (2 / PI)) in
  let r := (x - k * PIO2_hi) - k * PIO2_lo in
  let m := k - 4 * round_int (k / 4) in
  (r, m).

Definition sin (x : float) : float :=
  let '(r, m) := reduce x in
  if m =? 0 then sin_poly r
  else if m =? 1 then cos_poly r
  else if m =? -1 then - cos_poly r
  else - sin_poly r.

Definition cos (x : float) : float :=
  let '(r, m) := reduce x in
  if m =? 0 then cos_poly r
  else if m =? 1 then - sin_poly r
  else if m =? -1 then sin_poly r
  else - cos_poly r.

Definition atan_coeffs : list float :=
  [1; - (1/3); 1/5; - (1/7); 1/9; - (1/11); 1/13; - (1/15); 1/17; - (1/19);
   1/21; - (1/23); 1/25; - (1/27); 1/29; - (1/31); 1/33].
Definition atan_series (t : float) : float := t * horner atan_coeffs (t * t).
Definition SQRT3 : float := PrimFloat.sqrt 3.

(** The arctangent on [0, 1], on [0, infinity] and on the whole line. *)
Definition atan_unit (t : float) : float :=
  if 0x1.126145e9ecd56p-2 <? t   (* tan (pi/12) *)
  then PI / 6 + atan_series ((SQRT3 * t - 1) / (SQRT3 + t))
  else atan_series t.
Definition atan_pos (t : float) : float :=
  if 1 <? t then PI / 2 - atan_unit (1 / t) else atan_unit t.
Definition atan (t : float) : float :=
  if t <? 0 then - atan_pos (- t) else atan_pos t.

(** Negative, the negative zero included. *)
Definition is_neg (x : float) : bool :=
  (x <? 0) || ((x =? 0) && (1 / x <? 0)).
Definition is_inf (x : float) : bool := PrimFloat.abs x =? infinity.

Definition atan2 (y x : float) : float :=
  if is_inf y && is_inf x then
    let a := if is_neg x then 3 * (PI / 4) else PI / 4 in
    if is_neg y then - a else a
  else if x =? 0 then
    if y =? 0 then
      (if is_neg x then (if is_neg y then - PI else PI) else y)
    else if y <? 0 then - (PI / 2) else if 0 <? y then PI / 2 else y
  else if is_neg x then
    (if is_neg y then atan (y / x) - PI else atan (y / x) + PI)
  else atan (y / x).

Definition pow2 (x : float) : float := x * x.

Definition ref_math : MathLib float := {|
  Math_PI := PI;
  Math_sin := sin;
  Math_cos := cos;
  Math_atan2 := atan2;
  Math_pow2 := pow2
|}.

End RefMath.

(** ** Vocabulary of the specification *)

Definition flow_state {S : Type} (f : flow S) : S :=
  match f with Next s => s | Break s => s end.

Definition last_opt {X : Type} (l : list X) : option X :=
  match rev l with
  | [] => None
  | x :: _ => Some x
  end.

Section Vocabulary.

Context {A : Type} {AR : Arith A} {ML : MathLib A}.
Local Open Scope num_scope.

(** *** Batted ball *)

(** The horizontal range from the origin and the horizontal speed. *)
Definition bat_range (s : BatState) : A :=
  nsqrt (b_x s * b_x s + b_z s * b_z s).

Definition bat_speed (s : BatState) : A :=
  nsqrt (b_vx s * b_vx s + b_vz s * b_vz s).

(** The state in which a pass of the body meets the ground test: after
    integration and the wall. *)
Definition bat_fly (wx wy wz : A) (s : BatState) : BatState :=
  wall_collision (b_x s) (b_z s) (bat_integrate wx wy wz s).

(** The state a pass of the body leaves, by falling through or by
    [break]. *)
Definition bat_next (wx wy wz : A) (s : BatState) : BatState :=
  flow_state (bat_body wx wy wz s).

(** The state at the head of the loop after [k] passes from [s0]. *)
Definition bat_state (wx wy wz : A) (s0 : BatState) (k : nat) : BatState :=
  iterate (bat_next wx wy wz) k s0.

(** Pass [k] takes the ball to height at most zero. *)
Definition bat_contact (wx wy wz : A) (s0 : BatState) (k : nat) : bool :=
  b_y (bat_fly wx wy wz (bat_state wx wy wz s0 k)) <=? lit 0.

Definition first_contact (wx wy wz : A) (s0 : BatState) (k : nat) : Prop :=
  bat_contact wx wy wz s0 k = true /\
  forall j, (j < k)%nat -> bat_contact wx wy wz s0 j = false.



(** What a wall leaves alone. *)
Definition same_record (s s' : @BatState A) : Prop :=
  b_y s' = b_y s /\ b_t s' = b_t s /\ b_points s' = b_points s /\
  b_maxHeight s' = b_maxHeight s /\
  b_carryDistance s' = b_carryDistance s /\
  b_landingPosition s' = b_landingPosition s /\
  b_hasHitGround s' = b_hasHitGround s.

(** What holds of the state [s] reached after [m] passes: it is state [m]
    of the run, one sample was recorded per pass, and the carry is the
    range at the first contact with the ground. *)
Definition bat_inv (wx wy wz : A) (s0 : BatState) (m : nat) (s : BatState)
  : Prop :=
  s = bat_state wx wy wz s0 m /\ length (b_points s) = m /\
  ((b_hasHitGround s = false /\
    forall j, (j < m)%nat -> bat_contact wx wy wz s0 j = false) \/
   (b_hasHitGround s = true /\
    exists k, (k < m)%nat /\ first_contact wx wy wz s0 k /\
      b_carryDistance s
      = bat_range (bat_fly wx wy wz (bat_state wx wy wz s0 k)))).

(** The gate of the wall test and the test of one segment. *)
Definition wall_gate (s : BatState) : bool :=
  (b_z s >? lit 60) && (b_y s >=? lit 0) && (b_y s <=? WALL_HEIGHT).

Definition wall_hit (prevX prevZ : A) (s : BatState) (seg : WallSegment)
  : option (A * A) :=
  getLineIntersection prevX prevZ (b_x s) (b_z s)
    (x1 seg) (z1 seg) (x2 seg) (z2 seg).

(** [seg] is the first segment of the fence that the step from
    [(prevX, prevZ)] to the position of [s] intersects, at [p]. *)
Definition first_wall_hit (prevX prevZ : A) (s : BatState)
  (seg : WallSegment) (p : A * A) : Prop :=
  exists pre post,
    WALL_SEGMENTS = pre ++ seg :: post /\
    Forall (fun g => wall_hit prevX prevZ s g = None) pre /\
    wall_hit prevX prevZ s seg = Some p.

(** *** Samples *)

(** Consecutive samples are [dt] apart and ordered in time. *)
Definition steps_of (dt : A) (pts : list Point3D) : Prop :=
  forall i p q,
    nth_error pts i = Some p -> nth_error pts (Datatypes.S i) = Some q ->
    p_t q = p_t p + dt /\ (p_t q >? p_t p) = true.

Definition above_ground (p : Point3D) : Prop := (p_y p <? lit 0) = false.

(** *** Plate crossings *)

(** The interpolated crossing between two consecutive samples, when z goes
    from at least zero to below zero between them. *)
Definition crossing_between (p q : Point3D) : list (A * A) :=
  if (p_z p >=? lit 0) && (p_z q <? lit 0)
  then [interpolate_plate (p_x p) (p_y p) (p_z p) (p_x q) (p_y q) (p_z q)]
  else [].

(** All the crossings of a sample sequence, in order. *)
Fixpoint crossings (pts : list Point3D) : list (A * A) :=
  match pts with
  | p :: (q :: _) as rest => crossing_between p q ++ crossings rest
  | _ => []
  end.

Definition position_xy (p : Point3D) : A * A := (p_x p, p_y p).

(** The crossing variable of the loop holds the last crossing among the
    samples recorded so far and the current position. *)
Definition crossing_tracked (s : PitchState) : Prop :=
  q_plateCrossing s
  = last_opt (crossings (q_points s ++ [pitch_sample s])).

(** *** Solver *)

(** The error at the plate of the pitch thrown with angles [(h, v)]. *)
Definition plate_error (fuel : nat) (params : PitchingParams)
  (targetX targetY : A) (hv : A * A) : option (A * A) :=
  match calculatePitchTrajectory fuel (with_angles params (fst hv) (snd hv))
  with
  | Some result =>
      match crossing_of_result result with
      | Some (actualX, actualY) => Some (targetX - actualX, targetY - actualY)
      | None => None
      end
  | None => None
  end.

Definition within_tolerance (e : A * A) : bool :=
  (nabs (fst e) <? solver_tolerance) && (nabs (snd e) <? solver_tolerance).



End Vocabulary.

(** *** Fuel on binary64 *)

(** Tests of the loop condition that always suffice: the clock of the
    batting loop reaches 20 s after 2000 steps of 0.01 s, the clock of the
    pitch loop passes 5 s after 2501 steps of 0.002 s. *)
Definition bat_fuel : nat := 2001.
Definition pitch_fuel : nat := 2502.

(** The clocks of the two loops. *)
Definition bat_clock (n : nat) : float :=
  iterate (fun c : float => nadd c bat_dt) n (lit 0).

Definition pitch_clock (n : nat) : float :=
  iterate (fun c : float => nadd c pitch_dt) n (lit 0).

(** The first [n] steps of a clock of step [dt] started at [c] each move
    it forward. *)
Fixpoint clock_ordered (dt : float) (n : nat) (c : float) : bool :=
  match n with
  | O => true
  | Datatypes.S k =>
      PrimFloat.ltb c (nadd c dt) && clock_ordered dt k (nadd c dt)
  end.

(** *** Concrete pitches

    A pitch thrown straight at the plate: no spin, both release angles
    zero, released 1.8 m high above the centre line.  With these angles
    the run only asks the [Math] library for the sine and the cosine of
    zero. *)
Definition straight_pitch (velocity extension : float)
  : @PitchingParams float :=
  mkPitch velocity (lit 0) (lit 0) (lit 0) (lit 0) (lit 0)
          (lit 1.8) (lit 0) extension (lit 0) (lit 0) (lit 0).

(** A pitch of 50 km/h released 1.8 m in front of the rubber: it reaches
    the ground before the plate. *)
Definition bounced_pitch : @PitchingParams float :=
  straight_pitch (lit 50) (lit 180).


(** A pitch of 661100 km/h released on the rubber: at this speed the drag
    of one Euler step exceeds twice the velocity, so the velocity changes
    sign at every step with growing magnitude. *)
Definition unstable_pitch : @PitchingParams float :=
  straight_pitch (lit 661100) (lit 0).

(** The pitch of the application's initial state, at a given velocity. *)
Definition app_pitch (velocity : float) : @PitchingParams float :=
  mkPitch velocity (lit 2175) (lit 38) (lit 89.3) (lit 2.2) (- lit 2.3)%num
          (lit 1.8) (lit 50.5) (lit 182.9) (lit 0) (lit 0.76) (lit 26.7).

(** *** Clock invariants on binary64 *)

(** After [m] passes the batting loop has recorded the first [m] values of
    its clock, each of them before the cap. *)
Definition bat_timed (m : nat) (s : @BatState float) : Prop :=
  b_t s = bat_clock m /\
  map p_t (b_points s) = map bat_clock (seq 0 m) /\
  forall i, (i < m)%nat -> nltb (bat_clock i) bat_maxTime = true.

(** The same for the pitch loop at the head of pass [m]. *)
Definition pitch_timed (m : nat) (s : @PitchState float) : Prop :=
  q_t s = pitch_clock m /\
  map p_t (q_points s) = map pitch_clock (seq 0 m) /\
  forall i, (i < m)%nat ->
            nltb MAX_SIMULATION_TIME (pitch_clock i) = false.

(** Pass [m] of the pitch loop was cut short by [break]: its sample is
    recorded, the clock did not advance. *)
Definition pitch_broke (m : nat) (s : @PitchState float) : Prop :=
  q_t s = pitch_clock m /\
  map p_t (q_points s) = map pitch_clock (seq 0 (Datatypes.S m)) /\
  (exists pts, q_points s = pts ++ [pitch_sample s]) /\
  forall i, (i < m)%nat ->
            nltb MAX_SIMULATION_TIME (pitch_clock i) = false.

(** *** The fence in exact arithmetic *)

(** The step from [(prevX, prevZ)] to the position of [s] is not parallel
    to [seg] (and the ball has moved). *)
Definition not_parallel (prevX prevZ : R) (s : @BatState R)
  (seg : @WallSegment R) : Prop :=
  (- (x2 seg - x1 seg) * (b_z s - prevZ)
   + (b_x s - prevX) * (z2 seg - z1 seg) <> 0)%R.

(** The step and [seg] have the point [p] in common. *)
Definition step_meets (prevX prevZ : R) (s : @BatState R)
  (seg : @WallSegment R) (p : R * R) : Prop :=
  exists t u : R,
    (0 <= t <= 1 /\ 0 <= u <= 1 /\
     fst p = prevX + t * (b_x s - prevX) /\
     snd p = prevZ + t * (b_z s - prevZ) /\
     fst p = x1 seg + u * (x2 seg - x1 seg) /\
     snd p = z1 seg + u * (z2 seg - z1 seg))%R.

(** [seg] is the first segment of the fence, in the order of the table,
    that the step meets, and it meets it at [p]. *)
Definition first_segment_met (prevX prevZ : R) (s : @BatState R)
  (seg : @WallSegment R) (p : R * R) : Prop :=
  exists pre post,
    WALL_SEGMENTS = pre ++ seg :: post /\
    Forall (fun g => forall q, ~ step_meets prevX prevZ s g q) pre /\
    step_meets prevX prevZ s seg p.

(** *** Concrete states at the wall and on the ground *)

(** A ball 2 m high that flew from (10, 100) to (10, 125) at 40 m/s: the
    step crosses the right-centre segment of the fence. *)
Definition wall_strike {A : Type} {AR : Arith A} : @BatState A :=
  mkBat (lit 10) (lit 2) (lit 125) (lit 1) (lit 0) (lit 1) (lit 40)
        [] (lit 2) (lit 0) None false.

Definition right_centre {A : Type} {AR : Arith A} : @WallSegment A :=
  mkSeg (lit 0) (lit 122) (lit 42.1) (lit 101.6).

(** The fence before and after its right-centre segment. *)
Definition fence_before_right_centre {A : Type} {AR : Arith A}
  : list (@WallSegment A) :=
  [mkSeg (nneg (lit 70.71)) (lit 70.71) (nneg (lit 42.1)) (lit 101.6);
   mkSeg (nneg (lit 42.1)) (lit 101.6) (lit 0) (lit 122)].
Definition fence_after_right_centre {A : Type} {AR : Arith A}
  : list (@WallSegment A) :=
  [mkSeg (lit 42.1) (lit 101.6) (lit 70.71) (lit 70.71)].



(** The ground invariant of the batting loop. *)
Definition grounded (s : @BatState float) : Prop :=
  nltb (b_y s) (lit 0) = false /\ Forall above_ground (b_points s).

(** ** Vocabulary of the result records *)

Definition flow_map {S T : Type} (g : S -> T) (f : flow S) : flow T :=
  match f with Next s => Next (g s) | Break s => Break (g s) end.

Section Records.

Context {A : Type} {AR : Arith A} {ML : MathLib A}.
Local Open Scope num_scope.

(** The sample is not higher than [h]. *)
Definition not_above (h : A) (p : Point3D) : Prop := (p_y p >? h) = false.

(** The running maximum of the batting loop is the greatest height among
    the samples recorded so far; before the first sample it is the height
    of the ball. *)
Definition bat_peak (s : BatState) : Prop :=
  Forall (not_above (b_maxHeight s)) (b_points s) /\
  ((b_points s = [] /\ b_maxHeight s = b_y s) \/
   Exists (fun p => p_y p = b_maxHeight s) (b_points s)).

(** The same for the pitch loop. *)
Definition pitch_peak (s : PitchState) : Prop :=
  Forall (not_above (q_maxHeight s)) (q_points s) /\
  ((q_points s = [] /\ q_maxHeight s = q_y s) \/
   Exists (fun p => p_y p = q_maxHeight s) (q_points s)).

(** The landing position of the batting loop after [m] passes from [s0]:
    unset as long as no pass reached the ground, then the place where the
    first such pass ended, the carry being its range. *)
Definition bat_landed (wx wy wz : A) (s0 : BatState) (m : nat) (s : BatState)
  : Prop :=
  (b_hasHitGround s = false /\ b_landingPosition s = None) \/
  (b_hasHitGround s = true /\
   exists k, (k < m)%nat /\ first_contact wx wy wz s0 k /\
     let f := bat_fly wx wy wz (bat_state wx wy wz s0 k) in
     b_landingPosition s = Some (b_x f, lit 0, b_z f) /\
     b_carryDistance s = bat_range f).

(** The ball lies on the ground and does not move. *)
Definition bat_stopped (s : BatState) : Prop :=
  b_y s = lit 0 /\ b_vy s = lit 0 /\ (bat_speed s >? lit 0) = false /\
  b_hasHitGround s = true.

(** The sample of the release point of a pitch. *)
Definition release_point (params : PitchingParams) : Point3D :=
  mkPoint (releaseSide params / lit 100) (releaseHeight params)
          (lit 18.44 - extension params / lit 100) (lit 0)
          (Some (lit 0, lit 0)).

(** A sample taken before the catcher, and one that neither the ground
    nor the failsafe stopped. *)
Definition before_catcher (p : Point3D) : Prop :=
  (p_z p >? - CATCHER_DEPTH) = true.

Definition in_flight (p : Point3D) : Prop :=
  (p_y p <=? lit 0) = false /\ (p_t p >? MAX_SIMULATION_TIME) = false.

(** The parameters with another target and gyro degree: the fields that
    the controls show and the engine does not read. *)
Definition with_target (params : PitchingParams) (tx ty gyro : A)
  : PitchingParams :=
  mkPitch (velocity params) (spinRate params) (spinDirection params)
          (spinEfficiency params) (hAngle params) (vAngle params)
          (releaseHeight params) (releaseSide params) (extension params)
          tx ty gyro.

(** *** The reflection in the plane x = 0

    The plane through the pitcher's plate and home plate.  A pitch is
    mirrored by negating its release side, its horizontal angle and the
    direction of its spin axis. *)
Definition mirror_xy (c : A * A) : A * A := (- fst c, snd c).

Definition mirror_params (p : PitchingParams) : PitchingParams :=
  mkPitch (velocity p) (spinRate p) (- spinDirection p) (spinEfficiency p)
          (- hAngle p) (vAngle p) (releaseHeight p) (- releaseSide p)
          (extension p) (- targetX p) (targetY p) (gyroDegree p).

Definition mirror_point (q : Point3D) : Point3D :=
  mkPoint (- p_x q) (p_y q) (p_z q) (p_t q) (option_map mirror_xy (p_break q)).

Definition mirror_state (s : PitchState) : PitchState :=
  mkPit (- q_x s) (q_y s) (q_z s) (q_t s) (- q_vx s) (q_vy s) (q_vz s)
        (map mirror_point (q_points s)) (q_maxHeight s)
        (option_map mirror_xy (q_plateCrossing s))
        (- q_vBreakX s) (q_vBreakY s)
        (- q_currentBreakX s) (q_currentBreakY s).

Definition mirror_result (r : TrajectoryResult) : TrajectoryResult :=
  mkResult (map mirror_point (points r)) (distance r) (maxHeight r)
           (hangTime r)
           (option_map (fun l => (- fst (fst l), snd (fst l), snd l))
                       (landingPosition r))
           (option_map mirror_xy (finalPosition r))
           (option_map mirror_xy (plateCrossing r)).

End Records.

(** ** The [Math] library in exact arithmetic *)

Definition real_atan2 (y x : R) : R :=
  if Rlt_dec 0 x then atan (y / x)
  else if Rlt_dec x 0 then
    (if Rle_dec 0 y then atan (y / x) + PI else atan (y / x) - PI)%R
  else if Rlt_dec 0 y then (PI / 2)%R
  else if Rlt_dec y 0 then (- PI / 2)%R
  else 0%R.

Definition real_math : MathLib R := {|
  Math_PI := PI;
  Math_sin := sin;
  Math_cos := cos;
  Math_atan2 := real_atan2;
  Math_pow2 := fun x => (x * x)%R
|}.

(** *** Further concrete states *)

(** A ball 1 cm above the ground falling at 5 m/s. *)
Definition falling_ball {A : Type} {AR : Arith A} : @BatState A :=
  mkBat (lit 0) (lit 0.01) (lit 0) (lit 1) (lit 0) (nneg (lit 5)) (lit 0)
        [] (lit 0.5) (lit 0) None false.

(** Two consecutive samples of a pitch on either side of the plate. *)
Definition sample_before_plate {A : Type} {AR : Arith A} : @Point3D A :=
  mkPoint (lit 0.1) (lit 0.8) (lit 0.05) (lit 0.45) (Some (lit 0, lit 0)).

Definition sample_behind_plate {A : Type} {AR : Arith A} : @Point3D A :=
  mkPoint (lit 0.12) (lit 0.79) (nneg (lit 0.03)) (lit 0.452)
          (Some (lit 0, lit 0)).

(** ** The earlier engine

    The file holds two earlier states of the engine.  In both, the pitch
    is integrated without the bookkeeping of the break; in the earliest,
    the batted ball flies until it comes down, without fence, bounce or
    roll. *)

Module Earlier.

Section Engine.

Context {A : Type} {AR : Arith A} {ML : MathLib A}.
Local Open Scope num_scope.

(** *** Batted ball: the flight *)

Record FlightState : Type := mkFlight {
  f_x : A; f_y : A; f_z : A; f_t : A;
  f_vx : A; f_vy : A; f_vz : A;
  f_points : list (@Point3D A);
  f_maxHeight : A
}.

Definition flight_cond (s : FlightState) : bool :=
  (f_y s >=? lit 0) && (f_t s <? bat_maxTime).

Definition flight_body (wx wy wz : A) (s : FlightState) : flow FlightState :=
  let x := f_x s in let y := f_y s in let z := f_z s in let t := f_t s in
  let vx := f_vx s in let vy := f_vy s in let vz := f_vz s in
  let points := f_points s ++ [mkPoint x y z t None] in
  let maxHeight := if y >? f_maxHeight s then y else f_maxHeight s in
  let vrx := vx - wx in
  let vry := vy - wy in
  let vrz := vz - wz in
  let vRelTotal := nsqrt (vrx * vrx + vry * vry + vrz * vrz) in
  let '(ax, ay, az) :=
    if vRelTotal >? lit 0 then
      let Fd := lit 0.5 * AIR_DENSITY * Math_pow2 vRelTotal
                * DRAG_COEFFICIENT * BALL_AREA in
      let ad := Fd / BALL_MASS in
      let axDrag := (- ad) * (vrx / vRelTotal) in
      let ayDrag := (- ad) * (vry / vRelTotal) in
      let azDrag := (- ad) * (vrz / vRelTotal) in
      let Fl := lit 0.5 * AIR_DENSITY * Math_pow2 vRelTotal
                * BATTING_LIFT_COEFFICIENT * BALL_AREA in
      let al := Fl / BALL_MASS in
      let vGroundTotal := nsqrt (vx * vx + vy * vy + vz * vz) in
      let horizontalSpeed := nsqrt (vx * vx + vz * vz) in
      let ayLift := al * (horizontalSpeed / vGroundTotal) in
      (axDrag, (- GRAVITY) + ayDrag + ayLift, azDrag)
    else (lit 0, - GRAVITY, lit 0) in
  let vx := vx + ax * bat_dt in
  let vy := vy + ay * bat_dt in
  let vz := vz + az * bat_dt in
  let x := x + vx * bat_dt in
  let y := y + vy * bat_dt in
  let z := z + vz * bat_dt in
  let t := t + bat_dt in
  Next (mkFlight x y z t vx vy vz points maxHeight).

Definition flight_init (velocityKmh launchAngleDeg sprayAngleDeg : A)
  : FlightState :=
  let v0 := velocityKmh * (lit 1000 / lit 3600) in
  let theta := launchAngleDeg * (Math_PI / lit 180) in
  let phi := (- sprayAngleDeg) * (Math_PI / lit 180) in
  let vx := v0 * Math_cos theta * Math_sin phi in
  let vy := v0 * Math_sin theta in
  let vz := v0 * Math_cos theta * Math_cos phi in
  let y := lit 0.5 in
  mkFlight (lit 0) y (lit 0) (lit 0) vx vy vz [] y.

(** After the loop: a ball that ended below the ground gets a last sample
    on the ground; a run without samples gets the origin. *)
Definition flight_result (s : FlightState) : TrajectoryResult :=
  let points :=
    match f_points s with
    | _ :: _ =>
        if f_y s <? lit 0
        then f_points s ++ [mkPoint (f_x s) (lit 0) (f_z s) (f_t s) None]
        else f_points s
    | [] => [mkPoint (lit 0) (lit 0) (lit 0) (lit 0) None]
    end in
  mkResult points (nsqrt (f_x s * f_x s + f_z s * f_z s)) (f_maxHeight s)
           (f_t s) None None None.

Definition calculateTrajectory (fuel : nat)
  (velocityKmh launchAngleDeg sprayAngleDeg windSpeedMs windDirectionDeg : A)
  : option TrajectoryResult :=
  let '(wx, wy, wz) := bat_wind windSpeedMs windDirectionDeg in
  option_map flight_result
    (while_loop flight_cond (flight_body wx wy wz) fuel
       (flight_init velocityKmh launchAngleDeg sprayAngleDeg)).

(** *** Pitch: without the break *)

Record PitchState : Type := mkPit {
  q_x : A; q_y : A; q_z : A; q_t : A;
  q_vx : A; q_vy : A; q_vz : A;
  q_points : list (@Point3D A);
  q_maxHeight : A;
  q_plateCrossing : option (A * A)
}.

Definition pitch_sample (s : PitchState) : Point3D :=
  mkPoint (q_x s) (q_y s) (q_z s) (q_t s) None.

Definition pitch_cond (s : PitchState) : bool := q_z s >? - CATCHER_DEPTH.

Definition pitch_body (params : PitchingParams) (omega : A)
  (s : PitchState) : flow PitchState :=
  let x := q_x s in let y := q_y s in let z := q_z s in let t := q_t s in
  let vx := q_vx s in let vy := q_vy s in let vz := q_vz s in
  let prevX := x in
  let prevY := y in
  let prevZ := z in
  let points := q_points s ++ [pitch_sample s] in
  let maxHeight := if y >? q_maxHeight s then y else q_maxHeight s in
  let pushed :=
    mkPit x y z t vx vy vz points maxHeight (q_plateCrossing s) in
  if t >? MAX_SIMULATION_TIME then Break pushed
  else if y <=? lit 0 then Break pushed
  else
    let vTotal := nsqrt (vx * vx + vy * vy + vz * vz) in
    let Fd := lit 0.5 * AIR_DENSITY * Math_pow2 vTotal
              * DRAG_COEFFICIENT * BALL_AREA in
    let ad := Fd / BALL_MASS in
    let axDrag := (- ad) * (vx / vTotal) in
    let ayDrag := (- ad) * (vy / vTotal) in
    let azDrag := (- ad) * (vz / vTotal) in
    let S := (BALL_RADIUS * omega) / vTotal in
    let Cl := S in
    let liftForceMag := lit 0.5 * AIR_DENSITY * Math_pow2 vTotal
                        * BALL_AREA * Cl in
    let radAxis := spinDirection params * (Math_PI / lit 180) in
    let fMagX := liftForceMag * Math_sin radAxis in
    let fMagY := liftForceMag * Math_cos radAxis in
    let axMag := fMagX / BALL_MASS in
    let ayMag := fMagY / BALL_MASS in
    let ax := axDrag + axMag in
    let ay := (- GRAVITY) + ayDrag + ayMag in
    let az := azDrag in
    let vx := vx + ax * pitch_dt in
    let vy := vy + ay * pitch_dt in
    let vz := vz + az * pitch_dt in
    let x := x + vx * pitch_dt in
    let y := y + vy * pitch_dt in
    let z := z + vz * pitch_dt in
    let t := t + pitch_dt in
    let plateCrossing :=
      if (prevZ >=? lit 0) && (z <? lit 0)
      then Some (interpolate_plate prevX prevY prevZ x y z)
      else q_plateCrossing s in
    Next (mkPit x y z t vx vy vz points maxHeight plateCrossing).

Definition pitch_init (params : PitchingParams) : PitchState :=
  let v0 := velocity params * (lit 1000 / lit 3600) in
  let extensionM := extension params / lit 100 in
  let sideM := releaseSide params / lit 100 in
  let heightM := releaseHeight params in
  let startZ := MOUND_DISTANCE - extensionM in
  let hRad := hAngle params * (Math_PI / lit 180) in
  let vRad := vAngle params * (Math_PI / lit 180) in
  let vx := v0 * Math_sin hRad * Math_cos vRad in
  let vy := v0 * Math_sin vRad in
  let vz := (- v0) * Math_cos hRad * Math_cos vRad in
  mkPit sideM heightM startZ (lit 0) vx vy vz [] heightM None.

Definition pitch_result (s : PitchState) : TrajectoryResult :=
  let points := q_points s ++ [pitch_sample s] in
  mkResult points (MOUND_DISTANCE - q_z s) (q_maxHeight s) (q_t s)
           None
           (Some (q_x s, q_y s))
           (Some (match q_plateCrossing s with
                  | Some c => c
                  | None => (q_x s, q_y s)
                  end)).

Definition pitch_degenerate (params : PitchingParams) : TrajectoryResult :=
  mkResult
    [mkPoint (releaseSide params / lit 100) (releaseHeight params)
             (MOUND_DISTANCE - extension params / lit 100) (lit 0) None]
    (lit 0) (releaseHeight params) (lit 0)
    None
    (Some (releaseSide params / lit 100, releaseHeight params))
    (Some (releaseSide params / lit 100, releaseHeight params)).

Definition calculatePitchTrajectory (fuel : nat) (params : PitchingParams)
  : option TrajectoryResult :=
  if velocity params <=? lit 0.1 then Some (pitch_degenerate params)
  else
    option_map pitch_result
      (while_loop pitch_cond (pitch_body params (pitch_omega params)) fuel
         (pitch_init params)).

End Engine.

End Earlier.

(** What the earlier pitch keeps of a sample, of a state and of a result
    of the present one: all but the break. *)
Definition forget_point {A : Type} (p : @Point3D A) : @Point3D A :=
  mkPoint (p_x p) (p_y p) (p_z p) (p_t p) None.

Definition forget_state {A : Type} (s : @PitchState A) : @Earlier.PitchState A :=
  Earlier.mkPit (q_x s) (q_y s) (q_z s) (q_t s) (q_vx s) (q_vy s) (q_vz s)
                (map forget_point (q_points s)) (q_maxHeight s)
                (q_plateCrossing s).

Definition forget_break {A : Type} (r : @TrajectoryResult A)
  : @TrajectoryResult A :=
  mkResult (map forget_point (points r)) (distance r) (maxHeight r)
           (hangTime r) (landingPosition r) (finalPosition r)
           (plateCrossing r).

(** A sample at height at least zero: neither below the ground nor
    NaN. *)
Definition on_or_above_ground {A : Type} {AR : Arith A} (p : @Point3D A)
  : Prop :=
  nleb (lit 0) (p_y p) = true.

(** The invariant of the earlier batting loop after [m] passes: the clock,
    one sample per pass, each taken at height at least zero and before
    the cap, the first of them at the point of contact. *)
Definition flight_inv (m : nat) (s : @Earlier.FlightState float) : Prop :=
  Earlier.f_t s = bat_clock m /\
  map p_t (Earlier.f_points s) = map bat_clock (seq 0 m) /\
  Forall on_or_above_ground (Earlier.f_points s) /\
  (forall i, (i < m)%nat -> nltb (bat_clock i) bat_maxTime = true) /\
  hd_error (Earlier.f_points s
            ++ [mkPoint (Earlier.f_x s) (Earlier.f_y s) (Earlier.f_z s)
                        (Earlier.f_t s) None])
  = Some (mkPoint (lit 0) (lit 0.5) (lit 0) (lit 0) None).

(** ** The previous engine

    The state of the file before the present one: the batted ball with
    fence, bounce and roll, but without a landing position.  (Its pitch
    integrator is the one of [Earlier].) *)

Module Previous.

Section Engine.

Context {A : Type} {AR : Arith A} {ML : MathLib A}.
Local Open Scope num_scope.

Record BatState : Type := mkBat {
  b_x : A; b_y : A; b_z : A; b_t : A;
  b_vx : A; b_vy : A; b_vz : A;
  b_points : list (@Point3D A);
  b_maxHeight : A;
  b_carryDistance : A;
  b_hasHitGround : bool
}.

Definition bat_integrate (wx wy wz : A) (s : BatState) : BatState :=
  let x := b_x s in let y := b_y s in let z := b_z s in let t := b_t s in
  let vx := b_vx s in let vy := b_vy s in let vz := b_vz s in
  let points := b_points s ++ [mkPoint x y z t None] in
  let maxHeight := if y >? b_maxHeight s then y else b_maxHeight s in
  let vrx := vx - wx in
  let vry := vy - wy in
  let vrz := vz - wz in
  let vRelTotal := nsqrt (vrx * vrx + vry * vry + vrz * vrz) in
  let '(ax, ay, az) :=
    if vRelTotal >? lit 0.1 then
      let Fd := lit 0.5 * AIR_DENSITY * Math_pow2 vRelTotal
                * DRAG_COEFFICIENT * BALL_AREA in
      let ad := Fd / BALL_MASS in
      let axDrag := (- ad) * (vrx / vRelTotal) in
      let ayDrag := (- ad) * (vry / vRelTotal) in
      let azDrag := (- ad) * (vrz / vRelTotal) in
      let axLift := lit 0 in
      let ayLift :=
        if y >? lit 0.05 then
          let Fl := lit 0.5 * AIR_DENSITY * Math_pow2 vRelTotal
                    * BATTING_LIFT_COEFFICIENT * BALL_AREA in
          let al := Fl / BALL_MASS in
          let vHorizontal := nsqrt (vx * vx + vz * vz) in
          let vTotal := nsqrt (vHorizontal * vHorizontal + vy * vy) in
          if vTotal >? lit 0 then al * (vHorizontal / vTotal) else lit 0
        else lit 0 in
      (axDrag + axLift, (- GRAVITY) + ayDrag + ayLift, azDrag)
    else (lit 0, - GRAVITY, lit 0) in
  let vx := vx + ax * bat_dt in
  let vy := vy + ay * bat_dt in
  let vz := vz + az * bat_dt in
  let x := x + vx * bat_dt in
  let y := y + vy * bat_dt in
  let z := z + vz * bat_dt in
  let t := t + bat_dt in
  mkBat x y z t vx vy vz points maxHeight
        (b_carryDistance s) (b_hasHitGround s).

Definition wall_bounce (seg : WallSegment) (intersect : A * A)
  (s : BatState) : BatState :=
  let '(nx, nz) := wall_normal seg in
  let vx := b_vx s in let vy := b_vy s in let vz := b_vz s in
  let vDotN := vx * nx + vz * nz in
  if vDotN <? lit 0 then
    mkBat (fst intersect + nx * lit 0.2) (b_y s) (snd intersect + nz * lit 0.2)
          (b_t s)
          ((vx - lit 2 * vDotN * nx) * COR_WALL)
          (vy * lit 0.8)
          ((vz - lit 2 * vDotN * nz) * COR_WALL)
          (b_points s) (b_maxHeight s)
          (b_carryDistance s) (b_hasHitGround s)
  else s.

Fixpoint wall_scan (segs : list WallSegment) (prevX prevZ : A)
  (s : BatState) : BatState :=
  match segs with
  | [] => s
  | seg :: rest =>
      match getLineIntersection prevX prevZ (b_x s) (b_z s)
              (x1 seg) (z1 seg) (x2 seg) (z2 seg) with
      | Some intersect => wall_bounce seg intersect s
      | None => wall_scan rest prevX prevZ s
      end
  end.

Definition wall_collision (prevX prevZ : A) (s : BatState) : BatState :=
  if (b_z s >? lit 60) && (b_y s >=? lit 0) && (b_y s <=? WALL_HEIGHT)
  then wall_scan WALL_SEGMENTS prevX prevZ s
  else s.

Definition ground_collision (s : BatState) : flow BatState :=
  if b_y s <=? lit 0 then
    let y := lit 0 in
    let x := b_x s in let z := b_z s in
    let vx := b_vx s in let vy := b_vy s in let vz := b_vz s in
    let '(hasHitGround, carryDistance) :=
      if negb (b_hasHitGround s)
      then (true, nsqrt (x * x + z * z))
      else (b_hasHitGround s, b_carryDistance s) in
    let st vx vy vz :=
      mkBat x y z (b_t s) vx vy vz (b_points s) (b_maxHeight s)
            carryDistance hasHitGround in
    if nabs vy <? lit 1.0 then
      let vy := lit 0 in
      let speedXZ := nsqrt (vx * vx + vz * vz) in
      if speedXZ >? lit 0 then
        let deceleration := MU_ROLLING * GRAVITY in
        let speedLoss := deceleration * bat_dt in
        if speedXZ <=? speedLoss + STOP_VELOCITY then
          Break (st (lit 0) vy (lit 0))
        else
          let newSpeed := speedXZ - speedLoss in
          let ratio := newSpeed / speedXZ in
          Next (st (vx * ratio) vy (vz * ratio))
      else Break (st vx vy vz)
    else
      Next (st (vx * FRICTION_BOUNCE) ((- vy) * COR_GROUND)
               (vz * FRICTION_BOUNCE))
  else Next s.

Definition bat_cond (s : BatState) : bool := b_t s <? bat_maxTime.

Definition bat_body (wx wy wz : A) (s : BatState) : flow BatState :=
  let prevX := b_x s in
  let prevZ := b_z s in
  ground_collision (wall_collision prevX prevZ (bat_integrate wx wy wz s)).

Definition bat_init (velocityKmh launchAngleDeg sprayAngleDeg : A)
  : BatState :=
  let v0 := velocityKmh * (lit 1000 / lit 3600) in
  let theta := launchAngleDeg * (Math_PI / lit 180) in
  let phi := (- sprayAngleDeg) * (Math_PI / lit 180) in
  let vx := v0 * Math_cos theta * Math_sin phi in
  let vy := v0 * Math_sin theta in
  let vz := v0 * Math_cos theta * Math_cos phi in
  let y := lit 0.5 in
  mkBat (lit 0) y (lit 0) (lit 0) vx vy vz [] y (lit 0) false.

Definition bat_result (s : BatState) : TrajectoryResult :=
  let carryDistance :=
    if negb (b_hasHitGround s)
    then nsqrt (b_x s * b_x s + b_z s * b_z s)
    else b_carryDistance s in
  mkResult (b_points s) carryDistance (b_maxHeight s) (b_t s)
           None None None.

Definition calculateTrajectory (fuel : nat)
  (velocityKmh launchAngleDeg sprayAngleDeg windSpeedMs windDirectionDeg : A)
  : option TrajectoryResult :=
  let '(wx, wy, wz) := bat_wind windSpeedMs windDirectionDeg in
  option_map bat_result
    (while_loop bat_cond (bat_body wx wy wz) fuel
       (bat_init velocityKmh launchAngleDeg sprayAngleDeg)).

End Engine.

End Previous.

(** What the previous engine keeps of a state and of a result of the
    present one: all but the landing position. *)
Definition forget_landing {A : Type} (s : @BatState A) : @Previous.BatState A :=
  Previous.mkBat (b_x s) (b_y s) (b_z s) (b_t s) (b_vx s) (b_vy s) (b_vz s)
                 (b_points s) (b_maxHeight s) (b_carryDistance s)
                 (b_hasHitGround s).

Definition without_landing {A : Type} (r : @TrajectoryResult A)
  : @TrajectoryResult A :=
  mkResult (points r) (distance r) (maxHeight r) (hangTime r)
           None (finalPosition r) (plateCrossing r).

(** * Proofs *)

(** ** Loops *)

Section Loops.

Context {S : Type} (cond : S -> bool) (body : S -> flow S).

Lemma while_loop_more_fuel (n : nat) :
  forall (s r : S), while_loop cond body n s = Some r ->
  forall k : nat, while_loop cond body (n + k) s = Some r.
Proof.
  induction n as [|n IH]; intros s r H k; simpl in *.
  - discriminate.
  - destruct (cond s); [|exact H].
    destruct (body s) as [s'|s']; [|exact H].
    apply IH; exact H.
Qed.

(** A loop whose every full pass advances a clock, and which cannot make a
    full pass once the clock is out of time, leaves within the number of
    ticks the clock needs to run out. *)
Lemma while_loop_clock {T : Type} (clock : S -> T) (tick : T -> T)
  (in_time : T -> bool)
  (Hpass : forall s s', cond s = true -> body s = Next s' ->
             in_time (clock s) = true /\ clock s' = tick (clock s)) :
  forall (n : nat) (s : S),
    in_time (iterate tick n (clock s)) = false ->
    exists r, while_loop cond body (Datatypes.S n) s = Some r.
Proof.
  induction n as [|n IH]; intros s Hout.
  - simpl in *. destruct (cond s) eqn:Hc; [|eauto].
    destruct (body s) as [s'|s'] eqn:Hb; [|eauto].
    destruct (Hpass s s' Hc Hb) as [Hin _]. congruence.
  - change (while_loop cond body (Datatypes.S (Datatypes.S n)) s)
      with (if cond s then
              match body s with
              | Next s' => while_loop cond body (Datatypes.S n) s'
              | Break s' => Some s'
              end
            else Some s).
    destruct (cond s) eqn:Hc; [|eauto].
    destruct (body s) as [s'|s'] eqn:Hb; [|eauto].
    destruct (Hpass s s' Hc Hb) as [_ Hclk].
    apply IH. rewrite Hclk. exact Hout.
Qed.

(** The invariant rule: [Inv] holds at every test of the condition, [Post]
    when the loop is left, by the condition or by [break]. *)
Lemma while_loop_inv (Inv Post : S -> Prop)
  (Hbody : forall s, Inv s -> cond s = true ->
             match body s with Next s' => Inv s' | Break s' => Post s' end)
  (Hexit : forall s, Inv s -> cond s = false -> Post s) :
  forall (n : nat) (s r : S),
    Inv s -> while_loop cond body n s = Some r -> Post r.
Proof.
  induction n as [|n IH]; intros s r HI H; simpl in H.
  - discriminate.
  - destruct (cond s) eqn:Hc.
    + specialize (Hbody s HI Hc).
      destruct (body s) as [s'|s'].
      * exact (IH s' r Hbody H).
      * injection H as <-. exact Hbody.
    + injection H as <-. auto.
Qed.

End Loops.

(** ** Order facts of binary64 *)

Lemma float_ltb_leb (x y : float) :
  PrimFloat.ltb x y = true -> PrimFloat.leb x y = true.
Proof.
  rewrite FloatAxioms.ltb_spec, FloatAxioms.leb_spec. unfold SFltb, SFleb.
  destruct (SFcompare (Prim2SF x) (Prim2SF y)) as [[| |]|];
    intros H; try discriminate; reflexivity.
Qed.

Lemma float_not_leb_not_ltb (x y : float) :
  PrimFloat.leb x y = false -> PrimFloat.ltb x y = false.
Proof.
  intros H. destruct (PrimFloat.ltb x y) eqn:E; [|reflexivity].
  apply float_ltb_leb in E. congruence.
Qed.

(** No number is both at least zero and below zero. *)
Lemma float_nonneg_not_neg (z : float) :
  PrimFloat.leb 0%float z = true -> PrimFloat.ltb z 0%float = false.
Proof.
  rewrite FloatAxioms.ltb_spec, FloatAxioms.leb_spec. unfold SFltb, SFleb.
  change (Prim2SF 0%float) with (S754_zero false).
  destruct (Prim2SF z) as [[|]|[|]| |[|] m e]; simpl;
    intros H; try discriminate; reflexivity.
Qed.

(** ** Structure of the batted-ball step *)

Section BatFacts.

Context {A : Type} {AR : Arith A} {ML : MathLib A}.
Local Open Scope num_scope.

Lemma bat_body_fly (wx wy wz : A) (s : BatState) :
  bat_body wx wy wz s = ground_collision (bat_fly wx wy wz s).
Proof. reflexivity. Qed.

Lemma same_record_refl (s : @BatState A) : same_record s s.
Proof. repeat split. Qed.

Lemma wall_bounce_same (seg : WallSegment) (p : A * A) (s : BatState) :
  same_record s (wall_bounce seg p s).
Proof.
  unfold wall_bounce. destruct (wall_normal seg) as [nx nz].
  destruct (_ <? _); [repeat split | apply same_record_refl].
Qed.

Lemma wall_scan_same (segs : list WallSegment) (prevX prevZ : A)
  (s : BatState) : same_record s (wall_scan segs prevX prevZ s).
Proof.
  induction segs as [|seg rest IH]; simpl.
  - apply same_record_refl.
  - destruct (getLineIntersection _ _ _ _ _ _ _ _).
    + apply wall_bounce_same.
    + exact IH.
Qed.

Lemma wall_collision_same (prevX prevZ : A) (s : BatState) :
  same_record s (wall_collision prevX prevZ s).
Proof.
  unfold wall_collision.
  destruct (_ && _); [apply wall_scan_same | apply same_record_refl].
Qed.

(** What the ground test does to the state it receives. *)
Lemma ground_collision_air (s : BatState) :
  (b_y s <=? lit 0) = false -> ground_collision s = Next s.
Proof. intros H. unfold ground_collision. rewrite H. reflexivity. Qed.

Lemma ground_collision_contact (s : BatState) :
  (b_y s <=? lit 0) = true ->
  let s' := flow_state (ground_collision s) in
  b_x s' = b_x s /\ b_z s' = b_z s /\ b_y s' = lit 0 /\ b_t s' = b_t s /\
  b_points s' = b_points s /\ b_maxHeight s' = b_maxHeight s /\
  b_hasHitGround s' = true /\
  b_carryDistance s' =
    (if b_hasHitGround s then b_carryDistance s else bat_range s).
Proof.
  intros H. unfold ground_collision, bat_range. rewrite H.
  destruct (b_hasHitGround s) eqn:Hh; simpl;
    repeat (match goal with
            | |- context [if ?c then _ else _] => destruct c
            end; simpl); repeat split; auto.
Qed.

Lemma ground_collision_break (s s' : BatState) :
  ground_collision s = Break s' -> (b_y s <=? lit 0) = true.
Proof.
  unfold ground_collision. destruct (b_y s <=? lit 0); [reflexivity|].
  discriminate.
Qed.

Lemma bat_integrate_record (wx wy wz : A) (s : BatState) :
  let s' := bat_integrate wx wy wz s in
  b_t s' = b_t s + bat_dt /\
  b_points s' = b_points s ++ [mkPoint (b_x s) (b_y s) (b_z s) (b_t s) None] /\
  b_carryDistance s' = b_carryDistance s /\
  b_hasHitGround s' = b_hasHitGround s.
Proof.
  unfold bat_integrate.
  destruct (_ >? lit 0.1); simpl; repeat split.
Qed.

Lemma bat_fly_record (wx wy wz : A) (s : BatState) :
  let s' := bat_fly wx wy wz s in
  b_t s' = b_t s + bat_dt /\
  b_points s' = b_points s ++ [mkPoint (b_x s) (b_y s) (b_z s) (b_t s) None] /\
  b_carryDistance s' = b_carryDistance s /\
  b_hasHitGround s' = b_hasHitGround s.
Proof.
  unfold bat_fly.
  destruct (wall_collision_same (b_x s) (b_z s) (bat_integrate wx wy wz s))
    as (_ & Ht & Hp & _ & Hc & _ & Hh).
  destruct (bat_integrate_record wx wy wz s) as (Ht' & Hp' & Hc' & Hh').
  cbv zeta in *. rewrite Ht, Hp, Hc, Hh. auto.
Qed.

(** One pass of the loop body, seen from outside. *)
Lemma bat_next_record (wx wy wz : A) (s : BatState) :
  let f := bat_fly wx wy wz s in
  let s' := bat_next wx wy wz s in
  b_t s' = b_t s + bat_dt /\
  b_points s' = b_points s ++ [mkPoint (b_x s) (b_y s) (b_z s) (b_t s) None] /\
  b_x s' = b_x f /\ b_z s' = b_z f /\
  (if b_y f <=? lit 0
   then b_y s' = lit 0 /\ b_hasHitGround s' = true /\
        b_carryDistance s' =
          (if b_hasHitGround s then b_carryDistance s else bat_range f)
   else b_y s' = b_y f /\ b_hasHitGround s' = b_hasHitGround s /\
        b_carryDistance s' = b_carryDistance s).
Proof.
  cbv zeta. unfold bat_next. rewrite bat_body_fly.
  destruct (bat_fly_record wx wy wz s) as (Ht & Hp & Hc & Hh).
  cbv zeta in *.
  destruct (b_y (bat_fly wx wy wz s) <=? lit 0) eqn:Hy.
  - destruct (ground_collision_contact _ Hy)
      as (Hx' & Hz' & Hy' & Ht' & Hp' & _ & Hh' & Hc').
    cbv zeta in *. rewrite Ht', Hp', Hx', Hz', Hy', Hh', Hc', Hh, Hc.
    repeat split; auto.
  - rewrite (ground_collision_air _ Hy). simpl. repeat split; auto.
Qed.

Lemma bat_body_break (wx wy wz : A) (s s' : BatState) :
  bat_body wx wy wz s = Break s' ->
  (b_y (bat_fly wx wy wz s) <=? lit 0) = true.
Proof. rewrite bat_body_fly. apply ground_collision_break. Qed.

End BatFacts.

Lemma iterate_succ {T : Type} (f : T -> T) (n : nat) (x : T) :
  iterate f (Datatypes.S n) x = f (iterate f n x).
Proof.
  revert x. induction n as [|n IH]; intros x; [reflexivity|].
  change (iterate f (Datatypes.S (Datatypes.S n)) x)
    with (iterate f (Datatypes.S n) (f x)).
  rewrite IH. reflexivity.
Qed.

(** ** Runs of the batted-ball loop *)

Section BatRun.

Context {A : Type} {AR : Arith A} {ML : MathLib A}.
Local Open Scope num_scope.

Variables (wx wy wz : A) (s0 : @BatState A).
Hypothesis s0_points : b_points s0 = [].
Hypothesis s0_air : b_hasHitGround s0 = false.

Local Abbreviation bat_state := (bat_state wx wy wz s0).
Local Abbreviation bat_contact := (bat_contact wx wy wz s0).
Local Abbreviation first_contact := (first_contact wx wy wz s0).
Local Abbreviation bat_inv := (bat_inv wx wy wz s0).

Lemma bat_inv_init : bat_inv 0 s0.
Proof.
  split; [reflexivity|]. split; [rewrite s0_points; reflexivity|].
  left. split; [exact s0_air|]. intros j Hj. lia.
Qed.

Lemma bat_inv_next (m : nat) (s : BatState) :
  bat_inv m s -> bat_inv (Datatypes.S m) (bat_next wx wy wz s).
Proof.
  intros (Hs & Hlen & Hcase).
  assert (Hst : bat_next wx wy wz s = bat_state (Datatypes.S m)).
  { unfold bat_state. rewrite iterate_succ. fold (bat_state m).
    rewrite Hs. reflexivity. }
  destruct (bat_next_record wx wy wz s) as (_ & Hp & _ & _ & Hy).
  cbv zeta in Hy, Hp.
  split; [exact Hst|]. split.
  { rewrite Hp, length_app, Hlen. simpl. lia. }
  assert (Hc : bat_contact m = (b_y (bat_fly wx wy wz s) <=? lit 0)).
  { unfold bat_contact. rewrite <- Hs. reflexivity. }
  destruct (b_y (bat_fly wx wy wz s) <=? lit 0) eqn:Hy0.
  - destruct Hy as (_ & Hh & Hcd). right. split; [exact Hh|].
    destruct Hcase as [(Hair & Hno) | (Hhit & k & Hk & Hfirst & Hcar)].
    + exists m. split; [lia|]. split; [split; assumption|].
      rewrite Hcd, Hair, Hs. reflexivity.
    + exists k. split; [lia|]. split; [exact Hfirst|].
      rewrite Hcd, Hhit. exact Hcar.
  - destruct Hy as (_ & Hh & Hcd).
    destruct Hcase as [(Hair & Hno) | (Hhit & k & Hk & Hfirst & Hcar)].
    + left. split; [congruence|]. intros j Hj.
      destruct (Nat.eq_dec j m) as [->|Hne]; [exact Hc|].
      apply Hno. lia.
    + right. split; [congruence|]. exists k.
      split; [lia|]. split; [exact Hfirst|]. congruence.
Qed.



End BatRun.

Section BatFrame.

Context {A : Type} {AR : Arith A} {ML : MathLib A}.




End BatFrame.

(** ** Structure of the pitch step *)

Section PitchFacts.

Context {A : Type} {AR : Arith A} {ML : MathLib A}.
Local Open Scope num_scope.

(** A full pass: neither the failsafe nor the ground stopped it; the clock
    advances, the sample of the state it began in is recorded, and the
    plate crossing is overwritten when the pass crosses z = 0. *)
Lemma pitch_body_next (params : PitchingParams) (omega : A)
  (s s' : PitchState) :
  pitch_body params omega s = Next s' ->
  (q_t s >? MAX_SIMULATION_TIME) = false /\
  (q_y s <=? lit 0) = false /\
  q_t s' = q_t s + pitch_dt /\
  q_points s' = q_points s ++ [pitch_sample s] /\
  q_plateCrossing s' =
    (if (q_z s >=? lit 0) && (q_z s' <? lit 0)
     then Some (interpolate_plate (q_x s) (q_y s) (q_z s)
                  (q_x s') (q_y s') (q_z s'))
     else q_plateCrossing s).
Proof.
  unfold pitch_body.
  destruct (q_t s >? MAX_SIMULATION_TIME); [discriminate|].
  destruct (q_y s <=? lit 0); [discriminate|].
  intros H. injection H as <-. simpl. repeat split.
Qed.

(** A pass cut short by [break]: only the sample was recorded. *)
Lemma pitch_body_break (params : PitchingParams) (omega : A)
  (s s' : PitchState) :
  pitch_body params omega s = Break s' ->
  ((q_t s >? MAX_SIMULATION_TIME) = true \/ (q_y s <=? lit 0) = true) /\
  q_points s' = q_points s ++ [pitch_sample s] /\
  pitch_sample s' = pitch_sample s /\
  q_x s' = q_x s /\ q_y s' = q_y s /\ q_z s' = q_z s /\ q_t s' = q_t s /\
  q_plateCrossing s' = q_plateCrossing s.
Proof.
  unfold pitch_body.
  destruct (q_t s >? MAX_SIMULATION_TIME) eqn:Ht.
  - intros H. injection H as <-. simpl. repeat split. left. reflexivity.
  - destruct (q_y s <=? lit 0) eqn:Hy; [|discriminate].
    intros H. injection H as <-. simpl. repeat split. right. reflexivity.
Qed.

End PitchFacts.

(** ** Totality on binary64 *)

Section FloatTotal.

Context {ML : MathLib float}.
Local Open Scope num_scope.

Lemma bat_clock_runs_out : (bat_clock 2000 <? bat_maxTime) = false.
Proof. vm_compute. reflexivity. Qed.

Lemma pitch_clock_runs_out :
  negb (pitch_clock 2501 >? MAX_SIMULATION_TIME) = false.
Proof. vm_compute. reflexivity. Qed.

Lemma bat_loop_total (wx wy wz : float) (s : BatState) :
  b_t s = lit 0 ->
  exists r, while_loop bat_cond (bat_body wx wy wz) bat_fuel s = Some r.
Proof.
  intros Ht.
  apply (while_loop_clock bat_cond (bat_body wx wy wz) b_t
           (fun c => c + bat_dt) (fun c => c <? bat_maxTime)).
  - intros s1 s1' Hc Hb. split; [exact Hc|].
    destruct (bat_next_record wx wy wz s1) as (H & _).
    cbv zeta in H. unfold bat_next in H. rewrite Hb in H. exact H.
  - rewrite Ht. exact bat_clock_runs_out.
Qed.

Lemma pitch_loop_total (params : PitchingParams) (omega : float)
  (s : PitchState) :
  q_t s = lit 0 ->
  exists r,
    while_loop pitch_cond (pitch_body params omega) pitch_fuel s = Some r.
Proof.
  intros Ht.
  apply (while_loop_clock pitch_cond (pitch_body params omega) q_t
           (fun c => c + pitch_dt)
           (fun c => negb (c >? MAX_SIMULATION_TIME))).
  - intros s1 s1' _ Hb.
    destruct (pitch_body_next params omega s1 s1' Hb) as (H1 & _ & H2 & _).
    rewrite H1. auto.
  - rewrite Ht. exact pitch_clock_runs_out.
Qed.

Lemma bat_total (v la sa ws wd : float) :
  exists r, forall k,
    calculateTrajectory (bat_fuel + k) v la sa ws wd = Some r.
Proof.
  unfold calculateTrajectory.
  destruct (bat_wind ws wd) as [[wx wy] wz].
  assert (Ht : b_t (bat_init v la sa) = lit 0) by reflexivity.
  destruct (bat_loop_total wx wy wz (bat_init v la sa) Ht) as [s Hs].
  exists (bat_result s). intros k.
  rewrite (while_loop_more_fuel _ _ _ _ _ Hs k). reflexivity.
Qed.

Lemma pitch_total (params : PitchingParams) :
  exists r, forall k,
    calculatePitchTrajectory (pitch_fuel + k) params = Some r.
Proof.
  unfold calculatePitchTrajectory.
  destruct (velocity params <=? lit 0.1).
  - eexists. intros k. reflexivity.
  - assert (Ht : q_t (pitch_init params) = lit 0) by reflexivity.
    destruct (pitch_loop_total params (pitch_omega params)
                (pitch_init params) Ht) as [s Hs].
    exists (pitch_result s). intros k.
    rewrite (while_loop_more_fuel _ _ _ _ _ Hs k). reflexivity.
Qed.

Lemma pitch_fuel_enough (k : nat) (params : PitchingParams) :
  calculatePitchTrajectory (pitch_fuel + k) params
  = calculatePitchTrajectory pitch_fuel params.
Proof.
  destruct (pitch_total params) as [r Hr].
  rewrite (Hr k). rewrite <- (Hr 0%nat). rewrite Nat.add_0_r. reflexivity.
Qed.

Lemma solve_loop_fuel_enough (k : nat) (params : PitchingParams)
  (tx ty : float) (n : nat) :
  forall (h v : float) (calls : nat),
    solve_loop (pitch_fuel + k) params tx ty n h v calls
    = solve_loop pitch_fuel params tx ty n h v calls.
Proof.
  induction n as [|n IH]; intros h v calls; [reflexivity|].
  cbn [solve_loop]. rewrite pitch_fuel_enough.
  destruct (calculatePitchTrajectory pitch_fuel (with_angles params h v));
    [|reflexivity].
  destruct (crossing_of_result t) as [[ax ay]|]; [|reflexivity].
  destruct (_ && _); [reflexivity|]. apply IH.
Qed.

Lemma solve_loop_total (params : PitchingParams) (tx ty : float) (n : nat) :
  forall (h v : float) (calls : nat),
  exists a, solve_loop pitch_fuel params tx ty n h v calls = Some a.
Proof.
  induction n as [|n IH]; intros h v calls; [eexists; reflexivity|].
  cbn [solve_loop].
  destruct (pitch_total (with_angles params h v)) as [r Hr].
  specialize (Hr 0%nat). rewrite Nat.add_0_r in Hr. rewrite Hr.
  destruct (crossing_of_result r) as [[ax ay]|]; [|eexists; reflexivity].
  destruct (_ && _); [eexists; reflexivity|]. apply IH.
Qed.

Lemma solve_total (params : PitchingParams) (tx ty : float) :
  exists a, forall k,
    solve_traced (pitch_fuel + k) params tx ty = Some a.
Proof.
  unfold solve_traced.
  destruct (velocity params <=? lit 0.1).
  - eexists. intros k. reflexivity.
  - destruct (solver_guess params tx ty) as [h v].
    destruct (solve_loop_total params tx ty 10 h v 0) as [a Ha].
    exists a. intros k. rewrite solve_loop_fuel_enough. exact Ha.
Qed.

End FloatTotal.

(** ** The ground invariant on binary64 *)

Section FloatGround.

Context {ML : MathLib float}.
Local Open Scope num_scope.

Lemma grounded_next (wx wy wz : float) (s : BatState) :
  grounded s -> grounded (bat_next wx wy wz s).
Proof.
  intros [Hy Hpts].
  destruct (bat_next_record wx wy wz s) as (_ & Hp & _ & _ & Hcase).
  cbv zeta in Hp, Hcase. split.
  - destruct (b_y (bat_fly wx wy wz s) <=? lit 0) eqn:Hc.
    + destruct Hcase as (-> & _). reflexivity.
    + destruct Hcase as (-> & _). apply float_not_leb_not_ltb. exact Hc.
  - rewrite Hp. apply Forall_app. split; [exact Hpts|].
    constructor; [exact Hy | constructor].
Qed.

Lemma grounded_run (wx wy wz : float) (fuel : nat) (s0 s : BatState) :
  grounded s0 ->
  while_loop bat_cond (bat_body wx wy wz) fuel s0 = Some s -> grounded s.
Proof.
  apply (while_loop_inv bat_cond (bat_body wx wy wz) grounded grounded).
  - intros s1 H1 _. pose proof (grounded_next wx wy wz s1 H1) as H.
    unfold bat_next in H. destruct (bat_body wx wy wz s1); exact H.
  - auto.
Qed.

Lemma grounded_init (v la sa : float) : grounded (bat_init v la sa).
Proof. split; [reflexivity | constructor]. Qed.

End FloatGround.

(** ** Plate crossings of a run *)

Lemma last_opt_snoc {X : Type} (l : list X) (x : X) :
  last_opt (l ++ [x]) = Some x.
Proof. unfold last_opt. rewrite rev_app_distr. reflexivity. Qed.

Section CrossingFacts.

Context {A : Type} {AR : Arith A} {ML : MathLib A}.
Local Open Scope num_scope.

Lemma crossings_snoc (l : list Point3D) (p q : Point3D) :
  crossings (l ++ [p; q]) = crossings (l ++ [p]) ++ crossing_between p q.
Proof.
  induction l as [|a l IH].
  - simpl. rewrite app_nil_r. reflexivity.
  - destruct l as [|b l].
    + simpl. rewrite !app_nil_r. reflexivity.
    + change (crossings ((a :: b :: l) ++ [p; q]))
        with (crossing_between a b ++ crossings ((b :: l) ++ [p; q])).
      change (crossings ((a :: b :: l) ++ [p]))
        with (crossing_between a b ++ crossings ((b :: l) ++ [p])).
      rewrite IH, app_assoc. reflexivity.
Qed.

Lemma crossing_tracked_next (params : PitchingParams) (omega : A)
  (s s' : PitchState) :
  crossing_tracked s -> pitch_body params omega s = Next s' ->
  crossing_tracked s'.
Proof.
  unfold crossing_tracked. intros Hs Hb.
  destruct (pitch_body_next params omega s s' Hb) as (_ & _ & _ & Hp & Hc).
  rewrite Hp, <- app_assoc. simpl. rewrite crossings_snoc, Hc.
  unfold crossing_between at 1. simpl.
  destruct (_ && _).
  - rewrite last_opt_snoc. reflexivity.
  - rewrite app_nil_r. exact Hs.
Qed.

Lemma pitch_result_record (s : PitchState) :
  let r := pitch_result s in
  points r = q_points s ++ [pitch_sample s] /\
  plateCrossing r = Some (match q_plateCrossing s with
                          | Some c => c
                          | None => position_xy (pitch_sample s)
                          end).
Proof. split; reflexivity. Qed.

Lemma pitch_has_crossing (fuel : nat) (params : PitchingParams)
  (r : TrajectoryResult) :
  calculatePitchTrajectory fuel params = Some r ->
  exists c, crossing_of_result r = Some c.
Proof.
  unfold calculatePitchTrajectory, crossing_of_result.
  destruct (_ <=? _).
  - intros H. injection H as <-. simpl. eauto.
  - destruct (while_loop _ _ _ _); [|discriminate].
    intros H. injection H as <-. simpl. eauto.
Qed.

End CrossingFacts.

Section FloatCrossing.

Context {ML : MathLib float}.
Local Open Scope num_scope.

(** No crossing lies between a sample and itself. *)
Lemma crossing_between_self (p : @Point3D float) : crossing_between p p = [].
Proof.
  unfold crossing_between.
  destruct (p_z p >=? lit 0) eqn:H; [|reflexivity].
  apply float_nonneg_not_neg in H.
  change (p_z p <? lit 0) with (PrimFloat.ltb (p_z p) 0%float).
  rewrite H. reflexivity.
Qed.

Lemma crossing_tracked_break (params : PitchingParams) (omega : float)
  (s s' : PitchState) :
  crossing_tracked s -> pitch_body params omega s = Break s' ->
  crossing_tracked s'.
Proof.
  unfold crossing_tracked. intros Hs Hb.
  destruct (pitch_body_break params omega s s' Hb)
    as (_ & Hp & Hsame & _ & _ & _ & _ & Hc).
  rewrite Hp, Hsame, <- app_assoc. simpl.
  rewrite crossings_snoc, crossing_between_self, app_nil_r, Hc. exact Hs.
Qed.

Lemma crossing_tracked_run (params : PitchingParams) (omega : float)
  (fuel : nat) (s : PitchState) :
  while_loop pitch_cond (pitch_body params omega) fuel (pitch_init params)
  = Some s ->
  crossing_tracked s.
Proof.
  apply (while_loop_inv pitch_cond (pitch_body params omega)
           crossing_tracked crossing_tracked).
  - intros s1 H1 _. destruct (pitch_body params omega s1) as [s2|s2] eqn:Hb.
    + exact (crossing_tracked_next params omega s1 s2 H1 Hb).
    + exact (crossing_tracked_break params omega s1 s2 H1 Hb).
  - auto.
  - reflexivity.
Qed.

(** ** The solver *)


End FloatCrossing.

(** ** The wall and the rolling branch *)

Section WallFacts.
Context {A : Type} {AR : Arith A} {ML : MathLib A}.
Local Open Scope num_scope.

Lemma wall_scan_first_hit (prevX prevZ : A) (s : BatState)
  (pre post : list WallSegment) (seg : WallSegment) (p : A * A) :
  Forall (fun g => wall_hit prevX prevZ s g = None) pre ->
  wall_hit prevX prevZ s seg = Some p ->
  wall_scan (pre ++ seg :: post) prevX prevZ s = wall_bounce seg p s.
Proof.
  intros Hpre Hseg. induction Hpre as [|g pre Hg _ IH]; simpl.
  - unfold wall_hit in Hseg. rewrite Hseg. reflexivity.
  - unfold wall_hit in Hg. rewrite Hg. exact IH.
Qed.

(** A point that the intersection test returns is a point of the step,
    at a parameter that passed the range test. *)
Lemma line_intersection_on_step
  (p0_x p0_y p1_x p1_y p2_x p2_y p3_x p3_y : A) (p : A * A) :
  getLineIntersection p0_x p0_y p1_x p1_y p2_x p2_y p3_x p3_y = Some p ->
  exists t : A,
    (t >=? lit 0) = true /\ (t <=? lit 1) = true /\
    p = (p0_x + t * (p1_x - p0_x), p0_y + t * (p1_y - p0_y)).
Proof.
  unfold getLineIntersection. cbv zeta.
  match goal with
  | |- (if ?a && ?b && ?c && ?d then _ else _) = _ -> _ =>
      destruct a; [|discriminate]; destruct b; [|discriminate];
      destruct c eqn:Hc; [|discriminate]; destruct d eqn:Hd; [|discriminate]
  end.
  simpl. intros H. injection H as <-.
  eexists. split; [exact Hc|]. split; [exact Hd|]. reflexivity.
Qed.

Lemma wall_scan_miss (segs : list WallSegment) (prevX prevZ : A)
  (s : BatState) :
  Forall (fun g => wall_hit prevX prevZ s g = None) segs ->
  wall_scan segs prevX prevZ s = s.
Proof.
  intros H. induction H as [|g segs Hg _ IH]; simpl; [reflexivity|].
  unfold wall_hit in Hg. rewrite Hg. exact IH.
Qed.

Lemma wall_collision_first_hit (prevX prevZ : A) (s : BatState)
  (seg : WallSegment) (p : A * A) :
  wall_gate s = true -> first_wall_hit prevX prevZ s seg p ->
  wall_collision prevX prevZ s = wall_bounce seg p s.
Proof.
  intros Hg (pre & post & Hw & Hpre & Hseg).
  unfold wall_collision. unfold wall_gate in Hg. rewrite Hg, Hw.
  apply wall_scan_first_hit; assumption.
Qed.

Lemma wall_bounce_reflects (seg : WallSegment) (p : A * A) (s : BatState)
  (nx nz : A) :
  wall_normal seg = (nx, nz) ->
  let d := b_vx s * nx + b_vz s * nz in
  let s' := wall_bounce seg p s in
  if d <? lit 0
  then b_vx s' = (b_vx s - lit 2 * d * nx) * lit 0.7 /\
       b_vz s' = (b_vz s - lit 2 * d * nz) * lit 0.7 /\
       b_vy s' = b_vy s * lit 0.8 /\
       b_x s' = fst p + nx * lit 0.2 /\
       b_z s' = snd p + nz * lit 0.2
  else s' = s.
Proof.
  intros Hn. cbv zeta. unfold wall_bounce. rewrite Hn.
  destruct (_ <? _); [repeat split | reflexivity].
Qed.


End WallFacts.

(** ** Exact arithmetic *)

Section RealFacts.
Local Open Scope R_scope.

Lemma Rltb_true (x y : R) : Rltb x y = true <-> x < y.
Proof. unfold Rltb. destruct (Rlt_dec x y); split; auto; discriminate. Qed.
Lemma Rltb_false (x y : R) : Rltb x y = false <-> y <= x.
Proof. unfold Rltb. destruct (Rlt_dec x y); split; auto; try discriminate; lra. Qed.
Lemma Rleb_true (x y : R) : Rleb x y = true <-> x <= y.
Proof. unfold Rleb. destruct (Rle_dec x y); split; auto; discriminate. Qed.
Lemma Rleb_false (x y : R) : Rleb x y = false <-> y < x.
Proof. unfold Rleb. destruct (Rle_dec x y); split; auto; try discriminate; lra. Qed.

Lemma wall_segment_proper (seg : WallSegment) :
  In seg WALL_SEGMENTS ->
  0 < (x2 seg - x1 seg) * (x2 seg - x1 seg)
      + (z2 seg - z1 seg) * (z2 seg - z1 seg).
Proof.
  unfold WALL_SEGMENTS. simpl.
  intros [<-|[<-|[<-|[<-|[]]]]]; simpl; unfold Q2R; simpl; lra.
Qed.


Lemma wall_normal_unit (seg : WallSegment) (nx nz : R) :
  In seg WALL_SEGMENTS -> wall_normal seg = (nx, nz) ->
  nx * nx + nz * nz = 1 /\
  nx * ((x1 seg + x2 seg) / 2) + nz * ((z1 seg + z2 seg) / 2) <= 0.
Proof.
  intros Hin. pose proof (wall_segment_proper seg Hin) as Hpos.
  unfold wall_normal. simpl.
  set (dx := x2 seg - x1 seg) in *. set (dz := z2 seg - z1 seg) in *.
  set (len := R_sqrt.sqrt (dx * dx + dz * dz)).
  assert (Hlen : 0 < len) by (apply sqrt_lt_R0; exact Hpos).
  assert (Hsq : len * len = dx * dx + dz * dz) by (apply sqrt_sqrt; lra).
  assert (Hunit : (- dz / len) * (- dz / len) + (dx / len) * (dx / len) = 1).
  { replace (- dz / len * (- dz / len) + dx / len * (dx / len))
      with ((dx * dx + dz * dz) / (len * len)) by (field; lra).
    rewrite Hsq. field. lra. }
  replace (Q2R 2) with 2 by (unfold Q2R; simpl; lra).
  replace (Q2R 0) with 0 by (unfold Q2R; simpl; lra).
  destruct (Rltb 0 _) eqn:Hflip; intros H; injection H as <- <-.
  - apply Rltb_true in Hflip. split; [lra|lra].
  - apply Rltb_false in Hflip. split; [exact Hunit | lra].
Qed.

Lemma sqrt_scale (c q : R) : 0 <= c -> 0 <= q -> R_sqrt.sqrt (c * c * q) = c * R_sqrt.sqrt q.
Proof.
  intros Hc Hq. rewrite sqrt_mult; [|nra|lra].
  rewrite sqrt_square; [reflexivity|exact Hc].
Qed.

Lemma reflection_speed (vx vz nx nz c : R) :
  0 <= c -> nx * nx + nz * nz = 1 ->
  let d := vx * nx + vz * nz in
  R_sqrt.sqrt ((vx - 2 * d * nx) * c * ((vx - 2 * d * nx) * c)
        + (vz - 2 * d * nz) * c * ((vz - 2 * d * nz) * c))
  = c * R_sqrt.sqrt (vx * vx + vz * vz).
Proof.
  intros Hc Hn d.
  replace ((vx - 2 * d * nx) * c * ((vx - 2 * d * nx) * c)
           + (vz - 2 * d * nz) * c * ((vz - 2 * d * nz) * c))
    with (c * c * (vx * vx + vz * vz)).
  - apply sqrt_scale; [exact Hc | nra].
  - unfold d.
    replace (vx * vx + vz * vz)
      with (vx * vx + vz * vz
            + 4 * (vx * nx + vz * nz) * (vx * nx + vz * nz)
              * (nx * nx + nz * nz - 1))
      by (rewrite Hn; ring).
    ring.
Qed.



End RealFacts.

(** Decimal literals of the exact instance, as quotients of integers. *)
Ltac real_lits := simpl; unfold Q2R; simpl.

Lemma lit_real_0 : lit (A := R) 0 = 0%R.
Proof. simpl. unfold Q2R. simpl. lra. Qed.

Lemma lit_real_1 : lit (A := R) 1 = 1%R.
Proof. simpl. unfold Q2R. simpl. lra. Qed.

Lemma lit_real (n d : positive) :
  lit (A := R) (Qmake (Zpos n) d) = (IZR (Zpos n) / IZR (Zpos d))%R.
Proof. reflexivity. Qed.

(** The operations of the exact instance, by their names. *)
Ltac real_ops :=
  change (nadd (A := R)) with Rplus in *;
  change (nsub (A := R)) with Rminus in *;
  change (nmul (A := R)) with Rmult in *;
  change (ndiv (A := R)) with Rdiv in *;
  change (nneg (A := R)) with Ropp in *;
  change (nsqrt (A := R)) with R_sqrt.sqrt in *;
  change (nabs (A := R)) with Rabs in *;
  change (nltb (A := R)) with Rltb in *;
  change (nleb (A := R)) with Rleb in *.

(** ** The intersection test in exact arithmetic *)

Section RealFence.

Local Open Scope R_scope.

(** An intersection that is found lies on both segments. *)
Lemma line_intersection_sound
  (p0_x p0_y p1_x p1_y p2_x p2_y p3_x p3_y x z : R) :
  - (p3_x - p2_x) * (p1_y - p0_y) + (p1_x - p0_x) * (p3_y - p2_y) <> 0 ->
  getLineIntersection p0_x p0_y p1_x p1_y p2_x p2_y p3_x p3_y = Some (x, z) ->
  exists t s : R,
    0 <= t <= 1 /\ 0 <= s <= 1 /\
    x = p0_x + t * (p1_x - p0_x) /\ z = p0_y + t * (p1_y - p0_y) /\
    x = p2_x + s * (p3_x - p2_x) /\ z = p2_y + s * (p3_y - p2_y).
Proof.
  intros Hd. unfold getLineIntersection.
  rewrite lit_real_0, lit_real_1. real_ops. cbv zeta.
  set (d := - (p3_x - p2_x) * (p1_y - p0_y) + (p1_x - p0_x) * (p3_y - p2_y))
    in *.
  set (s := (- (p1_y - p0_y) * (p0_x - p2_x) + (p1_x - p0_x) * (p0_y - p2_y))
            / d).
  set (t := ((p3_x - p2_x) * (p0_y - p2_y) - (p3_y - p2_y) * (p0_x - p2_x))
            / d).
  assert (Ex : p0_x + t * (p1_x - p0_x) = p2_x + s * (p3_x - p2_x)).
  { unfold t, s, d. field. exact Hd. }
  assert (Ez : p0_y + t * (p1_y - p0_y) = p2_y + s * (p3_y - p2_y)).
  { unfold t, s, d. field. exact Hd. }
  destruct (Rleb 0 s) eqn:H1; [|discriminate].
  destruct (Rleb s 1) eqn:H2; [|discriminate].
  destruct (Rleb 0 t) eqn:H3; [|discriminate].
  destruct (Rleb t 1) eqn:H4; [|discriminate].
  simpl. intros H. injection H as <- <-.
  apply Rleb_true in H1, H2, H3, H4.
  exists t, s. repeat split; auto.
Qed.

(** Two segments that are not parallel meet in at most one point, whose
    parameters are the quotients of the test. *)
Lemma line_intersection_complete
  (p0_x p0_y p1_x p1_y p2_x p2_y p3_x p3_y t s : R) :
  - (p3_x - p2_x) * (p1_y - p0_y) + (p1_x - p0_x) * (p3_y - p2_y) <> 0 ->
  0 <= t <= 1 -> 0 <= s <= 1 ->
  p0_x + t * (p1_x - p0_x) = p2_x + s * (p3_x - p2_x) ->
  p0_y + t * (p1_y - p0_y) = p2_y + s * (p3_y - p2_y) ->
  getLineIntersection p0_x p0_y p1_x p1_y p2_x p2_y p3_x p3_y
  = Some (p0_x + t * (p1_x - p0_x), p0_y + t * (p1_y - p0_y)).
Proof.
  intros Hd Ht Hs Hx Hz. unfold getLineIntersection.
  rewrite lit_real_0, lit_real_1. real_ops. cbv zeta.
  set (d := - (p3_x - p2_x) * (p1_y - p0_y) + (p1_x - p0_x) * (p3_y - p2_y))
    in *.
  assert (Et : ((p3_x - p2_x) * (p0_y - p2_y) - (p3_y - p2_y) * (p0_x - p2_x))
               / d = t).
  { apply (Rmult_eq_reg_r d); [|exact Hd].
    replace ((p3_x - p2_x) * (p0_y - p2_y) - (p3_y - p2_y) * (p0_x - p2_x))
      with (t * d).
    - field. exact Hd.
    - unfold d.
      replace (p0_y - p2_y) with (s * (p3_y - p2_y) - t * (p1_y - p0_y))
        by lra.
      replace (p0_x - p2_x) with (s * (p3_x - p2_x) - t * (p1_x - p0_x))
        by lra.
      ring. }
  assert (Es : (- (p1_y - p0_y) * (p0_x - p2_x) + (p1_x - p0_x) * (p0_y - p2_y))
               / d = s).
  { apply (Rmult_eq_reg_r d); [|exact Hd].
    replace (- (p1_y - p0_y) * (p0_x - p2_x) + (p1_x - p0_x) * (p0_y - p2_y))
      with (s * d).
    - field. exact Hd.
    - unfold d.
      replace (p0_y - p2_y) with (s * (p3_y - p2_y) - t * (p1_y - p0_y))
        by lra.
      replace (p0_x - p2_x) with (s * (p3_x - p2_x) - t * (p1_x - p0_x))
        by lra.
      ring. }
  rewrite Et, Es.
  replace (Rleb 0 s) with true by (symmetry; apply Rleb_true; lra).
  replace (Rleb s 1) with true by (symmetry; apply Rleb_true; lra).
  replace (Rleb 0 t) with true by (symmetry; apply Rleb_true; lra).
  replace (Rleb t 1) with true by (symmetry; apply Rleb_true; lra).
  reflexivity.
Qed.

(** For a step that is not parallel to a segment, the test of the engine
    reports a point exactly when the two meet there. *)
Lemma wall_hit_meets (prevX prevZ : R) (s : @BatState R)
  (seg : @WallSegment R) (p : R * R) :
  not_parallel prevX prevZ s seg ->
  wall_hit prevX prevZ s seg = Some p <-> step_meets prevX prevZ s seg p.
Proof.
  intros Hc. unfold wall_hit, step_meets. destruct p as [px pz]. split.
  - intros H.
    destruct (line_intersection_sound _ _ _ _ _ _ _ _ _ _ Hc H)
      as (t & u & Ht & Hu & H1 & H2 & H3 & H4).
    exists t, u. simpl. auto 10.
  - simpl. intros (t & u & Ht & Hu & H1 & H2 & H3 & H4).
    rewrite H1, H2.
    apply (line_intersection_complete _ _ _ _ _ _ _ _ t u Hc Ht Hu);
      congruence.
Qed.

Lemma wall_hit_misses (prevX prevZ : R) (s : @BatState R)
  (seg : @WallSegment R) :
  not_parallel prevX prevZ s seg ->
  wall_hit prevX prevZ s seg = None <->
  forall q, ~ step_meets prevX prevZ s seg q.
Proof.
  intros Hc. split.
  - intros H q Hq. apply (wall_hit_meets _ _ _ _ _ Hc) in Hq. congruence.
  - intros H. destruct (wall_hit prevX prevZ s seg) as [q|] eqn:Hq;
      [|reflexivity].
    apply (wall_hit_meets _ _ _ _ _ Hc) in Hq. destruct (H q Hq).
Qed.

(** The scan of the fence stops at the first segment that the step
    meets. *)
Lemma first_wall_hit_geometric (prevX prevZ : R) (s : @BatState R)
  (seg : @WallSegment R) (p : R * R) :
  (forall g, In g WALL_SEGMENTS -> not_parallel prevX prevZ s g) ->
  first_wall_hit prevX prevZ s seg p <->
  first_segment_met prevX prevZ s seg p.
Proof.
  intros Hc. unfold first_wall_hit, first_segment_met.
  split; intros (pre & post & Hw & Hpre & Hseg); exists pre, post;
    (split; [exact Hw|]);
    (assert (Hin : forall g, In g (pre ++ seg :: post) ->
                             not_parallel prevX prevZ s g)
      by (rewrite <- Hw; exact Hc)); split.
  - rewrite Forall_forall in *. intros g Hg.
    apply wall_hit_misses; [apply Hin, in_or_app; left; exact Hg|].
    apply Hpre, Hg.
  - apply wall_hit_meets; [apply Hin, in_elt|exact Hseg].
  - rewrite Forall_forall in *. intros g Hg.
    apply wall_hit_misses; [apply Hin, in_or_app; left; exact Hg|].
    apply Hpre, Hg.
  - apply wall_hit_meets; [apply Hin, in_elt|exact Hseg].
Qed.

End RealFence.

(** ** Sample times on binary64 *)

Lemma nth_error_seq_map {T : Type} (f : nat -> T) (m i : nat) (x : T) :
  nth_error (map f (seq 0 m)) i = Some x -> (i < m)%nat /\ x = f i.
Proof.
  intros H.
  assert (Hi : (i < length (map f (seq 0 m)))%nat)
    by (apply nth_error_Some; congruence).
  rewrite length_map, length_seq in Hi.
  split; [exact Hi|].
  apply (nth_error_nth _ _ (f 0%nat)) in H.
  rewrite (map_nth f (seq 0 m) 0%nat i) in H.
  rewrite seq_nth in H by exact Hi. simpl in H. congruence.
Qed.

Section FloatTimes.

Context {ML : MathLib float}.
Local Open Scope num_scope.

(** Samples that carry the first values of a clock are a step apart and
    ordered when the clock is. *)
Lemma clocked_steps (clock : nat -> float) (dt : float) (m : nat)
  (pts : list (@Point3D float)) :
  map p_t pts = map clock (seq 0 m) ->
  (forall i, (Datatypes.S i < m)%nat ->
     clock (Datatypes.S i) = clock i + dt /\
     (clock (Datatypes.S i) >? clock i) = true) ->
  steps_of dt pts.
Proof.
  intros Hmap Hclock i p q Hp Hq.
  apply (map_nth_error p_t) in Hp, Hq. rewrite Hmap in Hp, Hq.
  apply nth_error_seq_map in Hp, Hq.
  destruct Hp as [_ ->], Hq as [Hi ->]. apply Hclock. exact Hi.
Qed.

Lemma bat_clock_succ (m : nat) :
  bat_clock (Datatypes.S m) = bat_clock m + bat_dt.
Proof.
  unfold bat_clock.
  exact (iterate_succ (fun c : float => c + bat_dt) m (lit 0)).
Qed.

Lemma pitch_clock_succ (m : nat) :
  pitch_clock (Datatypes.S m) = pitch_clock m + pitch_dt.
Proof.
  unfold pitch_clock.
  exact (iterate_succ (fun c : float => c + pitch_dt) m (lit 0)).
Qed.

Lemma clock_ordered_steps (dt : float) (n : nat) :
  forall c : float,
    clock_ordered dt n c = true ->
    forall i, (i < n)%nat ->
      (iterate (fun c => c + dt) (Datatypes.S i) c
       >? iterate (fun c => c + dt) i c) = true.
Proof.
  induction n as [|n IH]; intros c H i Hi; [lia|].
  cbn [clock_ordered] in H. apply andb_true_iff in H. destruct H as [H0 H].
  destruct i as [|i].
  - exact H0.
  - apply (IH (c + dt) H i). lia.
Qed.

Lemma bat_clock_ordered (i : nat) :
  (i < 2000)%nat -> (bat_clock (Datatypes.S i) >? bat_clock i) = true.
Proof.
  apply (clock_ordered_steps bat_dt 2000 (lit 0)).
  vm_compute. reflexivity.
Qed.

Lemma pitch_clock_ordered (i : nat) :
  (i < 2501)%nat -> (pitch_clock (Datatypes.S i) >? pitch_clock i) = true.
Proof.
  apply (clock_ordered_steps pitch_dt 2501 (lit 0)).
  vm_compute. reflexivity.
Qed.

Lemma bat_timed_bound (m : nat) (s : BatState) :
  bat_timed m s -> (m <= 2000)%nat.
Proof.
  intros (_ & _ & Hin).
  destruct (Nat.le_gt_cases m 2000) as [H|H]; [exact H|].
  specialize (Hin 2000%nat H). rewrite bat_clock_runs_out in Hin.
  discriminate.
Qed.

Lemma bat_timed_next (wx wy wz : float) (m : nat) (s : BatState) :
  bat_timed m s -> bat_cond s = true ->
  bat_timed (Datatypes.S m) (bat_next wx wy wz s).
Proof.
  intros (Ht & Hmap & Hin) Hc.
  destruct (bat_next_record wx wy wz s) as (Ht' & Hp & _).
  cbv zeta in Ht', Hp. split; [|split].
  - rewrite Ht', Ht, bat_clock_succ. reflexivity.
  - rewrite Hp, map_app, Hmap, seq_S, map_app. simpl. rewrite Ht. reflexivity.
  - intros i Hi. destruct (Nat.eq_dec i m) as [->|Hne].
    + rewrite <- Ht. exact Hc.
    + apply Hin. lia.
Qed.

Lemma bat_timed_run (wx wy wz : float) (fuel : nat) (v la sa : float)
  (s : BatState) :
  while_loop bat_cond (bat_body wx wy wz) fuel (bat_init v la sa) = Some s ->
  exists m, bat_timed m s.
Proof.
  apply (while_loop_inv bat_cond (bat_body wx wy wz)
           (fun s => exists m, bat_timed m s)
           (fun s => exists m, bat_timed m s)).
  - intros s1 [m Hm] Hc.
    pose proof (bat_timed_next wx wy wz m s1 Hm Hc) as H.
    unfold bat_next in H.
    destruct (bat_body wx wy wz s1); exists (Datatypes.S m); exact H.
  - auto.
  - exists 0%nat. split; [reflexivity|]. split; [reflexivity|].
    intros i Hi. lia.
Qed.

(** The samples of a run of the batting loop carry the first values of
    its clock, at most 2000 of them. *)
Lemma bat_run_clocked (v la sa ws wd : float) :
  exists r m,
    (forall k, calculateTrajectory (bat_fuel + k) v la sa ws wd = Some r) /\
    map p_t (points r) = map bat_clock (seq 0 m) /\
    (m <= 2000)%nat.
Proof.
  destruct (bat_wind ws wd) as [[wx wy] wz] eqn:Hw.
  assert (Ht : b_t (bat_init v la sa) = lit 0) by reflexivity.
  destruct (bat_loop_total wx wy wz (bat_init v la sa) Ht) as [s Hs].
  destruct (bat_timed_run _ _ _ _ _ _ _ _ Hs) as [m Hm].
  exists (bat_result s), m. split; [|split].
  - intros k. unfold calculateTrajectory. rewrite Hw.
    rewrite (while_loop_more_fuel _ _ _ _ _ Hs k). reflexivity.
  - destruct Hm as (_ & Hmap & _). exact Hmap.
  - exact (bat_timed_bound m s Hm).
Qed.

(** X1.  The samples of a batted ball are 0.01 s apart (the sum taken in
    binary64) and in strictly increasing time; there are at most 2000. *)
Theorem bat_sample_times (v la sa ws wd : float) :
  exists r,
    (forall k, calculateTrajectory (bat_fuel + k) v la sa ws wd = Some r) /\
    steps_of bat_dt (points r) /\
    (length (points r) <= 2000)%nat.
Proof.
  destruct (bat_run_clocked v la sa ws wd) as (r & m & Hr & Hmap & Hm).
  exists r. split; [exact Hr|]. split.
  - apply (clocked_steps bat_clock bat_dt m); [exact Hmap|].
    intros i Hi. split; [apply bat_clock_succ|].
    apply bat_clock_ordered. lia.
  - rewrite <- (length_map p_t), Hmap, length_map, length_seq. exact Hm.
Qed.

Lemma pitch_timed_bound (m : nat) :
  (forall i, (i < m)%nat -> (pitch_clock i >? MAX_SIMULATION_TIME) = false) ->
  (m <= 2501)%nat.
Proof.
  intros Hin.
  destruct (Nat.le_gt_cases m 2501) as [H|H]; [exact H|].
  specialize (Hin 2501%nat H).
  pose proof pitch_clock_runs_out as Hout. rewrite Hin in Hout.
  discriminate.
Qed.

Lemma pitch_timed_next (params : PitchingParams) (omega : float) (m : nat)
  (s s' : PitchState) :
  pitch_timed m s -> pitch_body params omega s = Next s' ->
  pitch_timed (Datatypes.S m) s'.
Proof.
  intros (Ht & Hmap & Hin) Hb.
  destruct (pitch_body_next params omega s s' Hb)
    as (Hmax & _ & Ht' & Hp & _).
  split; [|split].
  - rewrite Ht', Ht, pitch_clock_succ. reflexivity.
  - rewrite Hp, map_app, Hmap, seq_S, map_app. simpl. rewrite Ht. reflexivity.
  - intros i Hi. destruct (Nat.eq_dec i m) as [->|Hne].
    + rewrite <- Ht. exact Hmax.
    + apply Hin. lia.
Qed.

Lemma pitch_timed_break (params : PitchingParams) (omega : float) (m : nat)
  (s s' : PitchState) :
  pitch_timed m s -> pitch_body params omega s = Break s' ->
  pitch_broke m s'.
Proof.
  intros (Ht & Hmap & Hin) Hb.
  destruct (pitch_body_break params omega s s' Hb)
    as (_ & Hp & Hsame & _ & _ & _ & Ht' & _).
  split; [|split; [|split]].
  - rewrite Ht', Ht. reflexivity.
  - rewrite Hp, map_app, Hmap, seq_S, map_app. simpl. rewrite Ht. reflexivity.
  - exists (q_points s). rewrite Hp, Hsame. reflexivity.
  - exact Hin.
Qed.

Lemma pitch_timed_run (params : PitchingParams) (omega : float)
  (fuel : nat) (s : PitchState) :
  while_loop pitch_cond (pitch_body params omega) fuel (pitch_init params)
  = Some s ->
  exists m, pitch_timed m s \/ pitch_broke m s.
Proof.
  apply (while_loop_inv pitch_cond (pitch_body params omega)
           (fun s => exists m, pitch_timed m s)
           (fun s => exists m, pitch_timed m s \/ pitch_broke m s)).
  - intros s1 [m Hm] _.
    destruct (pitch_body params omega s1) as [s2|s2] eqn:Hb.
    + exists (Datatypes.S m).
      exact (pitch_timed_next params omega m s1 s2 Hm Hb).
    + exists m. right. exact (pitch_timed_break params omega m s1 s2 Hm Hb).
  - intros s1 [m Hm] _. exists m. left. exact Hm.
  - exists 0%nat. split; [reflexivity|]. split; [reflexivity|].
    intros i Hi. lia.
Qed.

Lemma pitch_clock_steps (m : nat) (pts : list (@Point3D float)) :
  (m <= 2501)%nat ->
  map p_t pts = map pitch_clock (seq 0 (Datatypes.S m)) ->
  steps_of pitch_dt pts.
Proof.
  intros Hm Hmap.
  apply (clocked_steps pitch_clock pitch_dt (Datatypes.S m)); [exact Hmap|].
  intros i Hi. split; [apply pitch_clock_succ|].
  apply pitch_clock_ordered. lia.
Qed.

(** X2.  The samples of a pitch are 0.002 s apart (the sum taken in
    binary64) and in strictly increasing time, the last one excepted when
    the loop was left by [break]: it then repeats the sample before it. *)
Theorem pitch_sample_times (params : PitchingParams) :
  exists r,
    (forall k, calculatePitchTrajectory (pitch_fuel + k) params = Some r) /\
    (steps_of pitch_dt (points r) \/
     exists pts p,
       points r = pts ++ [p; p] /\ steps_of pitch_dt (pts ++ [p])).
Proof.
  destruct (pitch_total params) as [r Hr]. exists r. split; [exact Hr|].
  specialize (Hr 0%nat). rewrite (Nat.add_0_r pitch_fuel) in Hr.
  unfold calculatePitchTrajectory in Hr.
  destruct (velocity params <=? lit 0.1).
  - injection Hr as <-. left. intros [|i] p q Hp Hq; simpl in Hq.
    + discriminate.
    + destruct i; discriminate.
  - destruct (while_loop _ _ _ _) as [s|] eqn:Hs; [|discriminate].
    injection Hr as <-.
    destruct (pitch_timed_run _ _ _ _ Hs)
      as [m [(Ht & Hmap & Hin) | (Ht & Hmap & [pts Hpts] & Hin)]];
      pose proof (pitch_timed_bound m Hin) as Hm.
    + left. apply (pitch_clock_steps m); [exact Hm|].
      change (points (pitch_result s)) with (q_points s ++ [pitch_sample s]).
      rewrite map_app, Hmap, seq_S, map_app. simpl.
      rewrite Ht. reflexivity.
    + right. exists pts, (pitch_sample s). split.
      * change (points (pitch_result s))
          with (q_points s ++ [pitch_sample s]).
        rewrite Hpts at 1. rewrite <- app_assoc. reflexivity.
      * rewrite <- Hpts. apply (pitch_clock_steps m); assumption.
Qed.

End FloatTimes.

(** * The specification *)

Section Specification.

Context {ML : MathLib float}.
Local Open Scope num_scope.

(** C1.  The three entry points are total on binary64 numbers, whatever
    the arguments (NaN and the infinities included): the batting loop is
    left within 2001 tests of its condition, because its clock reaches the
    20 s cap; the pitch loop within 2502, because its clock passes the 5 s
    failsafe; the solver makes at most 10 passes.  Each call returns a
    result, the same for every larger amount of fuel. *)
Theorem engine_total :
  (forall v la sa ws wd : float, exists r, forall k,
      calculateTrajectory (bat_fuel + k) v la sa ws wd = Some r) /\
  (forall params : PitchingParams, exists r, forall k,
      calculatePitchTrajectory (pitch_fuel + k) params = Some r) /\
  (forall (params : PitchingParams) (tx ty : float),
      exists a, forall k,
        solvePitchAngles (pitch_fuel + k) params tx ty = Some a).
Proof.
  split; [|split].
  - intros. apply bat_total.
  - intros. apply pitch_total.
  - intros. destruct (solve_total params tx ty) as [a Ha].
    exists (fst a). intros k. unfold solvePitchAngles.
    rewrite Ha. reflexivity.
Qed.

(** C5.  With a velocity of at most 0.1 km/h the pitch is not integrated
    (no fuel is needed): the result has the single sample of the release
    point at time 0, distance 0 and hang time 0. *)
Theorem pitch_without_velocity (fuel : nat) (params : PitchingParams) :
  (velocity params <=? lit 0.1) = true ->
  exists r,
    calculatePitchTrajectory fuel params = Some r /\
    points r = [mkPoint (releaseSide params / lit 100)
                        (releaseHeight params)
                        (lit 18.44 - extension params / lit 100)
                        (lit 0) (Some (lit 0, lit 0))] /\
    distance r = lit 0 /\
    hangTime r = lit 0.
Proof.
  intros H. unfold calculatePitchTrajectory. rewrite H.
  eexists. split; [reflexivity|]. repeat split.
Qed.

(** C10.  With a velocity of at most 0.1 km/h the solver returns the
    angles of its argument and never calls the integrator (it needs no
    fuel, and its count of calls is 0). *)
Theorem solver_without_velocity (fuel : nat) (params : PitchingParams)
  (tx ty : float) :
  (velocity params <=? lit 0.1) = true ->
  solvePitchAngles fuel params tx ty = Some (hAngle params, vAngle params) /\
  solve_traced fuel params tx ty
  = Some (hAngle params, vAngle params, 0%nat).
Proof.
  intros H. unfold solvePitchAngles, solve_traced. rewrite H.
  split; reflexivity.
Qed.


(** C9.  No sample of a batted ball is below the ground. *)
Theorem samples_above_ground (v la sa ws wd : float) :
  exists r,
    (forall k, calculateTrajectory (bat_fuel + k) v la sa ws wd = Some r) /\
    Forall above_ground (points r).
Proof.
  destruct (bat_wind ws wd) as [[wx wy] wz] eqn:Hw.
  assert (Ht : b_t (bat_init v la sa) = lit 0) by reflexivity.
  destruct (bat_loop_total wx wy wz (bat_init v la sa) Ht) as [s Hs].
  exists (bat_result s). split.
  - intros k. unfold calculateTrajectory. rewrite Hw.
    rewrite (while_loop_more_fuel _ _ _ _ _ Hs k). reflexivity.
  - exact (proj2 (grounded_run wx wy wz bat_fuel _ s
                    (grounded_init v la sa) Hs)).
Qed.

(** C2 (as amended).  The plate crossing of a pitch is the linear
    interpolation at z = 0 between the two samples of a crossing, namely of
    the last crossing of the run, each crossing overwriting the one before;
    a run without crossing reports the position of its final sample. *)
Theorem plate_crossing_is_last_crossing (params : PitchingParams) :
  exists r,
    (forall k, calculatePitchTrajectory (pitch_fuel + k) params = Some r) /\
    exists pts q,
      points r = pts ++ [q] /\
      plateCrossing r
      = Some (match last_opt (crossings (points r)) with
              | Some c => c
              | None => position_xy q
              end).
Proof.
  destruct (pitch_total params) as [r Hr]. exists r. split; [exact Hr|].
  specialize (Hr 0%nat). rewrite Nat.add_0_r in Hr.
  unfold calculatePitchTrajectory in Hr.
  destruct (velocity params <=? lit 0.1).
  - injection Hr as <-. eexists [], _. split; reflexivity.
  - destruct (while_loop _ _ _ _) as [s|] eqn:Hs; [|discriminate].
    injection Hr as <-.
    pose proof (crossing_tracked_run _ _ _ _ Hs) as Ht.
    exists (q_points s), (pitch_sample s).
    destruct (pitch_result_record s) as [Hp Hc]. cbv zeta in Hp, Hc.
    split; [exact Hp|]. rewrite Hc, Hp, <- Ht. reflexivity.
Qed.


End Specification.

(** ** The wall and the ground *)

Section Physical.

Local Open Scope num_scope.

(** C7 (as amended).  The wall.  On binary64: when the wall test is open
    (z > 60 and 0 <= y <= 4) and [seg] is the first segment of the fence
    for which the intersection test reports a point, [p], then [p] is a
    point of the step, and with [n] the normal of [seg] turned towards the
    origin and [d] the component of the horizontal velocity along [n]:
    if [d < 0] the horizontal velocity becomes [(v - 2 d n) * 0.7], the
    vertical velocity is scaled by 0.8 and the ball is put at [p + 0.2 n];
    otherwise nothing changes, later segments are not looked at.  When
    the wall test is closed, or no segment reports a point, nothing
    changes either.
    In exact arithmetic [n] is a unit vector that does not point away from
    the origin; the reflection reverses the component of the horizontal
    velocity along [n], keeps the direction of the component along the
    segment, and multiplies both, and so the horizontal speed, by 0.7; and
    for a step parallel to no segment of the fence the segment chosen is
    the first one that the step meets, [p] being their common point. *)
Theorem wall_reflection :
  (forall (prevX prevZ : float) (s : BatState) (seg : WallSegment)
          (p : float * float) (nx nz : float),
      wall_gate s = true ->
      first_wall_hit prevX prevZ s seg p ->
      wall_normal seg = (nx, nz) ->
      let d := b_vx s * nx + b_vz s * nz in
      let s' := wall_collision prevX prevZ s in
      (exists t,
          (t >=? lit 0) = true /\ (t <=? lit 1) = true /\
          p = (prevX + t * (b_x s - prevX), prevZ + t * (b_z s - prevZ))) /\
      if d <? lit 0
      then b_vx s' = (b_vx s - lit 2 * d * nx) * lit 0.7 /\
           b_vz s' = (b_vz s - lit 2 * d * nz) * lit 0.7 /\
           b_vy s' = b_vy s * lit 0.8 /\
           b_x s' = fst p + nx * lit 0.2 /\
           b_z s' = snd p + nz * lit 0.2
      else s' = s) /\
  (forall (prevX prevZ : float) (s : BatState),
      wall_gate s = false \/
      Forall (fun g => wall_hit prevX prevZ s g = None) WALL_SEGMENTS ->
      wall_collision prevX prevZ s = s) /\
  (forall (prevX prevZ : R) (s : BatState) (seg : WallSegment)
          (p : R * R) (nx nz : R),
      wall_gate s = true ->
      first_wall_hit prevX prevZ s seg p ->
      wall_normal seg = (nx, nz) ->
      (b_vx s * nx + b_vz s * nz <? lit 0) = true ->
      let s' := wall_collision prevX prevZ s in
      (nx * nx + nz * nz = 1)%R /\
      (nx * ((x1 seg + x2 seg) / 2) + nz * ((z1 seg + z2 seg) / 2) <= 0)%R /\
      (b_vx s' * nx + b_vz s' * nz
       = - (7 / 10) * (b_vx s * nx + b_vz s * nz))%R /\
      (b_vx s' * nz - b_vz s' * nx
       = 7 / 10 * (b_vx s * nz - b_vz s * nx))%R /\
      bat_speed s' = (7 / 10 * bat_speed s)%R) /\
  (forall (prevX prevZ : R) (s : BatState) (seg : WallSegment) (p : R * R),
      (forall g, In g WALL_SEGMENTS -> not_parallel prevX prevZ s g) ->
      first_wall_hit prevX prevZ s seg p <->
      first_segment_met prevX prevZ s seg p).
Proof.
  split; [|split; [|split]].
  - intros prevX prevZ s seg p nx nz Hg Hf Hn. cbv zeta. split.
    + destruct Hf as (_ & _ & _ & _ & Hhit).
      exact (line_intersection_on_step _ _ _ _ _ _ _ _ p Hhit).
    + rewrite (wall_collision_first_hit prevX prevZ s seg p Hg Hf).
      exact (wall_bounce_reflects seg p s nx nz Hn).
  - intros prevX prevZ s [Hg|Hm]; unfold wall_collision.
    + unfold wall_gate in Hg. rewrite Hg. reflexivity.
    + rewrite (wall_scan_miss _ _ _ _ Hm). destruct (_ && _); reflexivity.
  - intros prevX prevZ s seg p nx nz Hg Hf Hn Hd s'.
    assert (Hin : In seg WALL_SEGMENTS).
    { destruct Hf as (pre & post & -> & _). apply in_elt. }
    destruct (wall_normal_unit seg nx nz Hin Hn) as [Hu Hi].
    split; [exact Hu|]. split; [exact Hi|].
    unfold s'. rewrite (wall_collision_first_hit prevX prevZ s seg p Hg Hf).
    pose proof (wall_bounce_reflects seg p s nx nz Hn) as H.
    cbv zeta in H. rewrite Hd in H. destruct H as (Hvx & Hvz & _).
    unfold bat_speed. rewrite Hvx, Hvz. real_ops. rewrite !lit_real.
    split; [|split].
    + replace ((b_vx s - 2 / 1 * (b_vx s * nx + b_vz s * nz) * nx) * (7 / 10)
               * nx
               + (b_vz s - 2 / 1 * (b_vx s * nx + b_vz s * nz) * nz)
                 * (7 / 10) * nz)%R
        with (7 / 10 * (b_vx s * nx + b_vz s * nz)
              * (1 - 2 * (nx * nx + nz * nz)))%R by field.
      rewrite Hu. ring.
    + field.
    + replace (2 / 1)%R with 2%R by lra.
      apply (reflection_speed (b_vx s) (b_vz s) nx nz (7 / 10)%R);
        [lra|exact Hu].
  - exact first_wall_hit_geometric.
Qed.


End Physical.

(** * Concrete runs

    The runs below use the reference [Math] library.  The pitches and the
    hit are thrown with all angles zero, so the integrators only ask it for
    the sine and cosine of zero.  The solver also asks for an arctangent
    and for the sine and cosine of the angles it tries. *)

Section Runs.

#[local] Existing Instance RefMath.ref_math.
Local Open Scope num_scope.

(** C2, counterexample.  The unstable pitch crosses z = 0 twice (its z
    goes 18.44, 386.4, 16.5, 392.2, -1.24, 448.8, -205.2): the plate
    crossing of the result is not the interpolation at the first
    crossing. *)
Lemma plate_crossing_not_first :
  exists r c,
    calculatePitchTrajectory pitch_fuel unstable_pitch = Some r /\
    hd_error (crossings (points r)) = Some c /\
    plateCrossing r <> Some c.
Proof.
  eexists. eexists.
  split; [vm_compute; reflexivity|].
  split; [vm_compute; reflexivity|].
  vm_compute. intros H.
  match type of H with
  | _ = Some (_, ?b) =>
      apply (f_equal (fun o : option (float * float) =>
                        match o with
                        | Some (_, y) => PrimFloat.ltb y b
                        | None => false
                        end)) in H
  end.
  vm_compute in H. discriminate H.
Qed.


(** C4, the failing run.  The bounced pitch leaves the loop by [break] at
    the ground: the sample of the final position is recorded twice, so the
    last two of its 307 samples carry the same time. *)
Theorem bounced_pitch_repeats_sample :
  exists r p q,
    calculatePitchTrajectory pitch_fuel bounced_pitch = Some r /\
    length (points r) = 307%nat /\
    nth_error (points r) 305 = Some p /\
    nth_error (points r) 306 = Some q /\
    p_t q = p_t p /\
    (p_t q >? p_t p) = false.
Proof.
  eexists. eexists. eexists.
  split; [vm_compute; reflexivity|].
  split; [vm_compute; reflexivity|].
  split; [vm_compute; reflexivity|].
  split; [vm_compute; reflexivity|].
  split; vm_compute; reflexivity.
Qed.

(** Witness of C5: a pitch of velocity 0. *)
Lemma pitch_without_velocity_witness :
  exists r,
    calculatePitchTrajectory 0 (app_pitch (lit 0)) = Some r /\
    points r = [mkPoint (releaseSide (app_pitch (lit 0)) / lit 100)
                        (releaseHeight (app_pitch (lit 0)))
                        (lit 18.44 - extension (app_pitch (lit 0)) / lit 100)
                        (lit 0) (Some (lit 0, lit 0))] /\
    distance r = lit 0 /\
    hangTime r = lit 0.
Proof.
  apply (pitch_without_velocity 0 (app_pitch (lit 0))).
  vm_compute. reflexivity.
Defined.

(** Witness of C10: the solver on a pitch of velocity 0. *)
Lemma solver_without_velocity_witness :
  solvePitchAngles 0 (app_pitch (lit 0)) (lit 0) (lit 0.76)
  = Some (hAngle (app_pitch (lit 0)), vAngle (app_pitch (lit 0))) /\
  solve_traced 0 (app_pitch (lit 0)) (lit 0) (lit 0.76)
  = Some (hAngle (app_pitch (lit 0)), vAngle (app_pitch (lit 0)), 0%nat).
Proof.
  apply (solver_without_velocity 0 (app_pitch (lit 0)) (lit 0) (lit 0.76)).
  vm_compute. reflexivity.
Defined.



(** In exact arithmetic the step of [wall_strike] meets the right-centre
    segment first, 68.6 % of the way. *)
Lemma wall_strike_real_hit :
  first_wall_hit (A := R) (lit 10) (lit 100) wall_strike right_centre
    (10, 100 + 7222 / 10525 * 25)%R.
Proof.
  exists fence_before_right_centre, fence_after_right_centre.
  split; [reflexivity|]. split.
  - repeat constructor; unfold wall_hit, getLineIntersection; real_lits.
    + match goal with
      | |- (if ?a && ?b && ?c && ?d then _ else _) = _ =>
          assert (Hb : b = false)
      end.
      { apply Rleb_false.
        match goal with
        | |- (_ < ?n / ?d)%R =>
            replace d with (-71525 / 100)%R by lra;
            replace n with (-201775 / 100)%R by lra
        end. lra. }
      rewrite Hb, andb_false_r. reflexivity.
    + match goal with
      | |- (if ?a && ?b && ?c && ?d then _ else _) = _ =>
          assert (Hb : b = false)
      end.
      { apply Rleb_false.
        match goal with
        | |- (_ < ?n / ?d)%R =>
            replace d with (-10525 / 10)%R by lra;
            replace n with (-13025 / 10)%R by lra
        end. lra. }
      rewrite Hb, andb_false_r. reflexivity.
  - unfold wall_hit, getLineIntersection. real_lits.
    match goal with
    | |- context [Rleb (?n / ?d) _] =>
        replace d with (-10525 / 10)%R by lra;
        replace n with (-250)%R by lra
    end.
    match goal with
    | |- context [Rleb (?n / ?d) _] =>
        lazymatch n with
        | (-250)%R => fail
        | _ => replace n with (-7222 / 10)%R by lra
        end
    end.
    replace (Rleb (0 * / 1) (-250 / (-10525 / 10))) with true
      by (symmetry; apply Rleb_true; lra).
    replace (Rleb (-250 / (-10525 / 10)) (1 * / 1)) with true
      by (symmetry; apply Rleb_true; lra).
    replace (Rleb (0 * / 1) (-7222 / 10 / (-10525 / 10))) with true
      by (symmetry; apply Rleb_true; lra).
    replace (Rleb (-7222 / 10 / (-10525 / 10)) (1 * / 1)) with true
      by (symmetry; apply Rleb_true; lra).
    simpl. f_equal. f_equal; lra.
Defined.

(** The inward normal of the right-centre segment points towards home. *)
Lemma right_centre_normal_real :
  exists nx nz : R,
    wall_normal (A := R) right_centre = (nx, nz) /\ (nz < 0)%R.
Proof.
  unfold wall_normal. real_lits.
  set (len := R_sqrt.sqrt _).
  assert (Hlen : (0 < len)%R) by (apply sqrt_lt_R0; lra).
  assert (Hinv : (0 < / len)%R) by (apply Rinv_0_lt_compat; exact Hlen).
  match goal with
  | |- context [Rltb ?a ?b] => assert (Hflip : Rltb a b = true)
  end.
  { apply Rltb_true. unfold Rdiv. nra. }
  rewrite Hflip. eexists. eexists. split; [reflexivity|].
  unfold Rdiv. nra.
Defined.

(** The step of [wall_strike] is parallel to no segment of the fence. *)
Lemma wall_strike_not_parallel (g : @WallSegment R) :
  In g WALL_SEGMENTS -> not_parallel (lit 10) (lit 100) wall_strike g.
Proof.
  unfold WALL_SEGMENTS, not_parallel. simpl.
  intros [<-|[<-|[<-|[<-|[]]]]]; simpl; unfold Q2R; simpl; lra.
Qed.

Local Set Warnings "-inexact-float".

(** C7, counterexample.  On binary64 the speed after a reflection is not
    0.7 times the speed before it.  The strike on the right-centre
    segment: the wall test is open, the step meets the segment at
    (10, 117.15439429928742), the velocity (0, 40) opposes the normal.
    The ball arrives at 40 m/s, 40 * 0.7 is 28, and the reflected
    velocity (-21.975554814330817, -17.351512631535648) has the speed
    27.999999999999993, which is below 28. *)
Lemma wall_speed_rounds :
  let s := wall_strike (A := float) in
  let s' := wall_collision (lit 10) (lit 100) s in
  exists nx nz,
    wall_gate s = true /\
    first_wall_hit (lit 10) (lit 100) s right_centre
      (10, 117.15439429928742)%float /\
    wall_normal right_centre = (nx, nz) /\
    (b_vx s * nx + b_vz s * nz <? lit 0) = true /\
    b_vx s' = (-21.975554814330817)%float /\
    b_vz s' = (-17.351512631535648)%float /\
    bat_speed s = 40%float /\
    bat_speed s * lit 0.7 = 28%float /\
    bat_speed s' = 27.999999999999993%float /\
    (bat_speed s' <? bat_speed s * lit 0.7) = true.
Proof.
  cbv zeta. eexists. eexists.
  split; [vm_compute; reflexivity|]. split.
  { exists fence_before_right_centre, fence_after_right_centre.
    split; [reflexivity|]. split.
    - repeat constructor; vm_compute; reflexivity.
    - vm_compute. reflexivity. }
  split; [vm_compute; reflexivity|].
  repeat split; vm_compute; reflexivity.
Qed.

(** Witness of C7: the strike on the right-centre segment, on binary64
    and in exact arithmetic. *)
Lemma wall_reflection_witness :
  (exists nx nz : float,
      let p := (10, 117.15439429928742)%float in
      first_wall_hit (lit 10) (lit 100) wall_strike right_centre p /\
      wall_normal right_centre = (nx, nz) /\
      let s := wall_strike in
      let d := b_vx s * nx + b_vz s * nz in
      let s' := wall_collision (lit 10) (lit 100) s in
      (exists t,
          (t >=? lit 0) = true /\ (t <=? lit 1) = true /\
          p = (lit 10 + t * (b_x s - lit 10),
               lit 100 + t * (b_z s - lit 100))) /\
      (d <? lit 0) = true /\
      b_vx s' = (b_vx s - lit 2 * d * nx) * lit 0.7 /\
      b_vz s' = (b_vz s - lit 2 * d * nz) * lit 0.7 /\
      b_vy s' = b_vy s * lit 0.8 /\
      b_x s' = fst p + nx * lit 0.2 /\
      b_z s' = snd p + nz * lit 0.2) /\
  (exists nx nz : R,
      first_segment_met (lit 10) (lit 100) wall_strike right_centre
        (10, 100 + 7222 / 10525 * 25)%R /\
      wall_normal right_centre = (nx, nz) /\
      let s := wall_strike in
      let s' := wall_collision (lit 10) (lit 100) s in
      (b_vx s' * nx + b_vz s' * nz
       = - (7 / 10) * (b_vx s * nx + b_vz s * nz))%R /\
      (b_vx s' * nz - b_vz s' * nx
       = 7 / 10 * (b_vx s * nz - b_vz s * nx))%R /\
      bat_speed s' = (7 / 10 * bat_speed s)%R).
Proof.
  split.
  - assert (Hhit : first_wall_hit (A := float) (lit 10) (lit 100)
                     wall_strike right_centre
                     (10, 117.15439429928742)%float).
    { exists fence_before_right_centre, fence_after_right_centre.
      split; [reflexivity|]. split.
      - repeat constructor; vm_compute; reflexivity.
      - vm_compute. reflexivity. }
    assert (Hgate : wall_gate (A := float) wall_strike = true)
      by (vm_compute; reflexivity).
    assert (Hn : wall_normal (A := float) right_centre
                 = (fst (wall_normal right_centre),
                    snd (wall_normal right_centre)))
      by (vm_compute; reflexivity).
    destruct (proj1 wall_reflection (lit 10) (lit 100) wall_strike
                right_centre _ _ _ Hgate Hhit Hn) as [Hstep H].
    match type of H with
    | if ?c then _ else _ =>
        assert (E : c = true) by (vm_compute; reflexivity); rewrite E in H
    end.
    eexists. eexists. cbv zeta.
    split; [exact Hhit|]. split; [exact Hn|].
    split; [exact Hstep|]. split; [exact E|exact H].
  - destruct right_centre_normal_real as (nx & nz & Hn & Hneg).
    assert (Hgate : wall_gate (A := R) wall_strike = true).
    { unfold wall_gate. real_lits.
      replace (Rltb (60 * / 1) (125 * / 1)) with true
        by (symmetry; apply Rltb_true; lra).
      replace (Rleb (0 * / 1) (2 * / 1)) with true
        by (symmetry; apply Rleb_true; lra).
      replace (Rleb (2 * / 1) (40 * / 10)) with true
        by (symmetry; apply Rleb_true; lra).
      reflexivity. }
    assert (Hd : nltb (nadd (nmul (b_vx (A := R) wall_strike) nx)
                            (nmul (b_vz (A := R) wall_strike) nz))
                      (lit 0) = true).
    { apply Rltb_true. real_lits. lra. }
    exists nx, nz.
    split.
    { apply (proj1 (proj2 (proj2 (proj2 wall_reflection))
                      (lit 10) (lit 100) wall_strike right_centre _
                      wall_strike_not_parallel)).
      exact wall_strike_real_hit. }
    split; [exact Hn|].
    exact (proj2 (proj2 (proj1 (proj2 (proj2 wall_reflection))
                           (lit 10) (lit 100)
                           wall_strike right_centre _ nx nz
                           Hgate wall_strike_real_hit Hn Hd))).
Defined.

End Runs.

(** * The result records

    What the three entry points return beyond the claims of the
    specification: how the fields of a result relate to its samples, how
    the loops are left, what the solver costs and which parameters it
    reads, the geometry of the fence and the symmetry of a pitch. *)

(** ** Loops that are entered *)

Section EnteredLoops.

Context {S : Type} (cond : S -> bool) (body : S -> flow S).

(** The invariant rule for a loop whose first pass runs: the invariant
    need only hold from the end of that pass on. *)
Lemma while_loop_entered (Inv : S -> Prop) (s0 : S)
  (Henter : cond s0 = true)
  (Hbody : forall s, s = s0 \/ Inv s -> cond s = true ->
             Inv (flow_state (body s))) :
  forall (n : nat) (r : S), while_loop cond body n s0 = Some r -> Inv r.
Proof.
  intros n r.
  apply (while_loop_inv cond body (fun s => s = s0 \/ Inv s) Inv).
  - intros s Hs Hc. specialize (Hbody s Hs Hc).
    destruct (body s); [right|]; exact Hbody.
  - intros s [->|Hs] Hc; [congruence | exact Hs].
  - left. reflexivity.
Qed.

End EnteredLoops.

(** ** More order facts of binary64 *)

Lemma SFltb_trans (x y z : spec_float) :
  SFltb x y = true -> SFltb y z = true -> SFltb x z = true.
Proof.
  unfold SFltb.
  destruct x as [[|]|[|]| |[|] mx ex], y as [[|]|[|]| |[|] my ey],
           z as [[|]|[|]| |[|] mz ez]; simpl;
    try discriminate; try reflexivity;
    destruct (Z.compare_spec ex ey); destruct (Z.compare_spec ey ez);
    destruct (Z.compare_spec ex ez);
    try discriminate; try reflexivity; try lia;
    subst;
    change (PosDef.Pos.compare_cont Eq mx my) with (Pos.compare mx my);
    change (PosDef.Pos.compare_cont Eq my mz) with (Pos.compare my mz);
    change (PosDef.Pos.compare_cont Eq mx mz) with (Pos.compare mx mz);
    destruct (Pos.compare_spec mx my); destruct (Pos.compare_spec my mz);
    destruct (Pos.compare_spec mx mz); simpl;
    try discriminate; try reflexivity; try lia.
Qed.

Lemma float_ltb_trans (x y z : float) :
  PrimFloat.ltb x y = true -> PrimFloat.ltb y z = true ->
  PrimFloat.ltb x z = true.
Proof. rewrite !FloatAxioms.ltb_spec. apply SFltb_trans. Qed.

Lemma float_ltb_irrefl (x : float) : PrimFloat.ltb x x = false.
Proof.
  rewrite FloatAxioms.ltb_spec. unfold SFltb.
  destruct (Prim2SF x) as [[|]|[|]| |[|] m e]; simpl; try reflexivity;
    rewrite Z.compare_refl, Pos.compare_cont_refl; reflexivity.
Qed.

(** What rounding returns carries the sign it was given. *)
Lemma binary_round_aux_sign (prec emax : Z) (mx ex : Z) (lx : location) :
  SFltb (binary_round_aux prec emax false mx ex lx) (S754_zero false) = false.
Proof.
  unfold binary_round_aux.
  destruct (shr_fexp prec emax mx ex lx) as [mrs' e'].
  destruct (shr_fexp prec emax _ e' loc_Exact) as [mrs'' e''].
  destruct (shr_m mrs''); [reflexivity| |reflexivity].
  destruct (_ <=? _)%Z; reflexivity.
Qed.

(** A square root is never below zero. *)
Lemma float_sqrt_not_neg (x : float) :
  PrimFloat.ltb (PrimFloat.sqrt x) 0%float = false.
Proof.
  rewrite FloatAxioms.ltb_spec, FloatAxioms.sqrt_spec.
  change (Prim2SF 0%float) with (S754_zero false).
  unfold SF64sqrt, SFsqrt.
  destruct (Prim2SF x) as [[|]|[|]| |[|] m e]; try reflexivity.
  destruct (SFsqrt_core_binary _ _ _ _) as [[mz ez] lz].
  apply binary_round_aux_sign.
Qed.

(** A quotient by a number that is neither below nor above zero (a zero
    or NaN) is infinite or NaN: it is not in the interval from 0 to 1. *)
Lemma float_div_unsigned (n d : float) :
  PrimFloat.ltb d 0%float = false -> PrimFloat.ltb 0%float d = false ->
  PrimFloat.leb 0%float (PrimFloat.div n d)
  && PrimFloat.leb (PrimFloat.div n d) 1%float = false.
Proof.
  rewrite !FloatAxioms.ltb_spec, !FloatAxioms.leb_spec, FloatAxioms.div_spec.
  change (Prim2SF 0%float) with (S754_zero false).
  change (Prim2SF 1%float) with (S754_finite false 4503599627370496 (-52)).
  unfold SFltb, SFleb, SF64div, SFdiv.
  destruct (Prim2SF d) as [[|]|[|]| |[|] md ed]; simpl; try discriminate;
    intros _ _;
    destruct (Prim2SF n) as [[|]|[|]| |[|] mn en]; reflexivity.
Qed.

(** ** The record of the batting loop *)

Section BatRecord.

Context {A : Type} {AR : Arith A} {ML : MathLib A}.
Local Open Scope num_scope.

Lemma bat_integrate_peak (wx wy wz : A) (s : BatState) :
  b_maxHeight (bat_integrate wx wy wz s)
  = (if b_y s >? b_maxHeight s then b_y s else b_maxHeight s) /\
  b_landingPosition (bat_integrate wx wy wz s) = b_landingPosition s.
Proof.
  unfold bat_integrate. destruct (_ >? lit 0.1); simpl; split; reflexivity.
Qed.

Lemma ground_collision_landing (f : BatState) :
  let s' := flow_state (ground_collision f) in
  b_maxHeight s' = b_maxHeight f /\
  b_landingPosition s' =
    (if (b_y f <=? lit 0) && negb (b_hasHitGround f)
     then Some (b_x f, lit 0, b_z f) else b_landingPosition f).
Proof.
  cbv zeta. unfold ground_collision.
  destruct (b_y f <=? lit 0); [|split; reflexivity].
  destruct (b_hasHitGround f); simpl;
    repeat (match goal with
            | |- context [if ?c then _ else _] => destruct c
            end; simpl); split; reflexivity.
Qed.

(** The maximum and the landing position across one pass. *)
Lemma bat_next_peak (wx wy wz : A) (s : BatState) :
  let f := bat_fly wx wy wz s in
  let s' := bat_next wx wy wz s in
  b_maxHeight s' = (if b_y s >? b_maxHeight s then b_y s else b_maxHeight s) /\
  b_landingPosition s' =
    (if (b_y f <=? lit 0) && negb (b_hasHitGround s)
     then Some (b_x f, lit 0, b_z f) else b_landingPosition s).
Proof.
  cbv zeta. unfold bat_next. rewrite bat_body_fly.
  destruct (ground_collision_landing (bat_fly wx wy wz s)) as [Hm Hl].
  cbv zeta in Hm, Hl. rewrite Hm, Hl.
  destruct (bat_fly_record wx wy wz s) as (_ & _ & _ & Hh).
  cbv zeta in Hh. rewrite Hh. unfold bat_fly.
  destruct (wall_collision_same (b_x s) (b_z s) (bat_integrate wx wy wz s))
    as (_ & _ & _ & Hm' & _ & Hl' & _).
  destruct (bat_integrate_peak wx wy wz s) as [Hm'' Hl''].
  rewrite Hm', Hl', Hm'', Hl''. split; reflexivity.
Qed.

Variables (wx wy wz : A) (s0 : @BatState A).

Lemma bat_landed_next (m : nat) (s : BatState) :
  bat_inv wx wy wz s0 m s -> bat_landed wx wy wz s0 m s ->
  bat_landed wx wy wz s0 (Datatypes.S m) (bat_next wx wy wz s).
Proof.
  intros (Hs & _ & Hcase) Hl.
  destruct (bat_next_record wx wy wz s) as (_ & _ & _ & _ & Hy).
  destruct (bat_next_peak wx wy wz s) as (_ & Hland).
  cbv zeta in Hy, Hland.
  assert (Hc : bat_contact wx wy wz s0 m
               = (b_y (bat_fly wx wy wz s) <=? lit 0)).
  { unfold bat_contact. rewrite <- Hs. reflexivity. }
  destruct Hl as [(Hair & Hnone) | (Hhit & k & Hk & Hfirst & Hpos)].
  - rewrite Hair in Hland, Hy. simpl in Hland.
    destruct (b_y (bat_fly wx wy wz s) <=? lit 0) eqn:Hy0.
    + destruct Hy as (_ & Hh & Hcd). right. split; [exact Hh|].
      exists m. split; [lia|]. split.
      * split; [exact Hc|].
        destruct Hcase as [(_ & Hno) | (Hhit & _)]; [exact Hno|congruence].
      * cbv zeta. rewrite <- Hs. simpl in Hland. split; assumption.
    + destruct Hy as (_ & Hh & _). left. simpl in Hland.
      split; congruence.
  - right. rewrite Hhit in Hland, Hy. rewrite andb_false_r in Hland.
    split.
    + destruct (nleb _ _); destruct Hy as (_ & Hh & _); exact Hh.
    + exists k. split; [lia|]. split; [exact Hfirst|].
      cbv zeta in *. destruct Hpos as [Hp Hcar]. split; [congruence|].
      destruct (nleb _ _); destruct Hy as (_ & _ & Hcd); congruence.
Qed.

Hypothesis s0_points : b_points s0 = [].
Hypothesis s0_air : b_hasHitGround s0 = false.
Hypothesis s0_landing : b_landingPosition s0 = None.

Lemma bat_run_landed (fuel : nat) (s : BatState) :
  while_loop bat_cond (bat_body wx wy wz) fuel s0 = Some s ->
  exists n, bat_inv wx wy wz s0 n s /\ bat_landed wx wy wz s0 n s.
Proof.
  apply (while_loop_inv bat_cond (bat_body wx wy wz)
           (fun s => exists m, bat_inv wx wy wz s0 m s
                               /\ bat_landed wx wy wz s0 m s)
           (fun s => exists m, bat_inv wx wy wz s0 m s
                               /\ bat_landed wx wy wz s0 m s)).
  - intros s1 (m & Hi & Hl) _.
    pose proof (bat_inv_next wx wy wz s0 m s1 Hi) as H1.
    pose proof (bat_landed_next m s1 Hi Hl) as H2.
    unfold bat_next in H1, H2.
    destruct (bat_body wx wy wz s1); exists (Datatypes.S m); split; assumption.
  - auto.
  - exists 0%nat. split.
    + exact (bat_inv_init wx wy wz s0 s0_points s0_air).
    + left. split; assumption.
Qed.

End BatRecord.

Section FloatBat.

Context {ML : MathLib float}.
Local Open Scope num_scope.

(** The run of the batting loop behind a call of [calculateTrajectory]. *)
Lemma bat_run (v la sa ws wd : float) :
  exists s,
    (let '(wx, wy, wz) := bat_wind ws wd in
     while_loop bat_cond (bat_body wx wy wz) bat_fuel (bat_init v la sa)
     = Some s) /\
    forall k, calculateTrajectory (bat_fuel + k) v la sa ws wd
              = Some (bat_result s).
Proof.
  unfold calculateTrajectory.
  destruct (bat_wind ws wd) as [[wx wy] wz].
  assert (Ht : b_t (bat_init v la sa) = lit 0) by reflexivity.
  destruct (bat_loop_total wx wy wz (bat_init v la sa) Ht) as [s Hs].
  exists s. split; [exact Hs|]. intros k.
  rewrite (while_loop_more_fuel _ _ _ _ _ Hs k). reflexivity.
Qed.

(** The first pass of the batting loop always runs. *)
Lemma bat_cond_init (v la sa : float) : bat_cond (bat_init v la sa) = true.
Proof. vm_compute. reflexivity. Qed.

(** Once recorded, the first sample stays the first. *)
Lemma bat_first_sample (wx wy wz : float) (fuel : nat) (v la sa : float)
  (s : BatState) :
  while_loop bat_cond (bat_body wx wy wz) fuel (bat_init v la sa) = Some s ->
  exists rest,
    b_points s = mkPoint (lit 0) (lit 0.5) (lit 0) (lit 0) None :: rest.
Proof.
  apply (while_loop_entered bat_cond (bat_body wx wy wz)
           (fun s => exists rest,
              b_points s
              = mkPoint (lit 0) (lit 0.5) (lit 0) (lit 0) None :: rest)).
  - apply bat_cond_init.
  - intros s1 H1 _.
    destruct (bat_next_record wx wy wz s1) as (_ & Hp & _).
    cbv zeta in Hp. fold (bat_next wx wy wz s1). rewrite Hp.
    destruct H1 as [-> | [rest Hrest]].
    + exists []. reflexivity.
    + rewrite Hrest. eexists. reflexivity.
Qed.

(** X3.  Every batted trajectory has samples; the first is the point of
    contact (0, 0.5, 0) at time 0; the hang time is the time of the last
    sample plus one step of 0.01 s (the sum taken in binary64); a batting
    result has neither a final position nor a plate crossing. *)
Theorem bat_first_sample_and_hang_time (v la sa ws wd : float) :
  exists r rest p,
    (forall k, calculateTrajectory (bat_fuel + k) v la sa ws wd = Some r) /\
    points r = mkPoint (lit 0) (lit 0.5) (lit 0) (lit 0) None :: rest /\
    last_opt (points r) = Some p /\
    hangTime r = p_t p + bat_dt /\
    finalPosition r = None /\ plateCrossing r = None.
Proof.
  destruct (bat_run v la sa ws wd) as (s & Hs & Hr).
  destruct (bat_wind ws wd) as [[wx wy] wz].
  destruct (bat_first_sample _ _ _ _ _ _ _ _ Hs) as [rest Hfirst].
  destruct (bat_timed_run _ _ _ _ _ _ _ _ Hs) as (m & Ht & Hmap & _).
  destruct m as [|m].
  { rewrite Hfirst in Hmap. discriminate. }
  rewrite seq_S, map_app in Hmap. simpl in Hmap.
  destruct (exists_last (l := b_points s)) as (pts & p & Hp).
  { rewrite Hfirst. discriminate. }
  exists (bat_result s), rest, p. split; [exact Hr|].
  change (points (bat_result s)) with (b_points s).
  change (hangTime (bat_result s)) with (b_t s).
  split; [exact Hfirst|]. split; [rewrite Hp; apply last_opt_snoc|].
  split; [|split; reflexivity].
  rewrite Hp, map_app in Hmap. simpl in Hmap.
  apply app_inj_tail in Hmap. destruct Hmap as [_ Hpt].
  rewrite Ht, Hpt. apply bat_clock_succ.
Qed.

Lemma bat_peak_next (wx wy wz : float) (s : BatState) :
  bat_peak s -> bat_peak (bat_next wx wy wz s).
Proof.
  intros [Hall Hex].
  destruct (bat_next_record wx wy wz s) as (_ & Hp & _).
  destruct (bat_next_peak wx wy wz s) as (Hm & _).
  cbv zeta in Hp, Hm. unfold bat_peak. rewrite Hp, Hm.
  destruct (b_y s >? b_maxHeight s) eqn:Hgt.
  - split.
    + apply Forall_app. split.
      * eapply Forall_impl; [|exact Hall]. intros q Hq.
        unfold not_above in *.
        destruct (p_y q >? b_y s) eqn:E; [|reflexivity].
        pose proof (eq_trans (eq_sym Hq) (float_ltb_trans _ _ _ Hgt E)) as F.
        discriminate F.
      * constructor; [|constructor]. apply float_ltb_irrefl.
    + right. apply Exists_app. right. constructor. reflexivity.
  - split.
    + apply Forall_app. split; [exact Hall|].
      constructor; [exact Hgt|constructor].
    + right. destruct Hex as [[Hnil Heq] | Hex].
      * apply Exists_app. right. constructor. simpl. congruence.
      * apply Exists_app. left. exact Hex.
Qed.

Lemma bat_peak_init (v la sa : float) : bat_peak (bat_init v la sa).
Proof. split; [constructor|]. left. split; reflexivity. Qed.

Lemma bat_peak_run (wx wy wz : float) (fuel : nat) (s0 s : BatState) :
  bat_peak s0 ->
  while_loop bat_cond (bat_body wx wy wz) fuel s0 = Some s -> bat_peak s.
Proof.
  apply (while_loop_inv bat_cond (bat_body wx wy wz) bat_peak bat_peak).
  - intros s1 H1 _. pose proof (bat_peak_next wx wy wz s1 H1) as H.
    unfold bat_next in H. destruct (bat_body wx wy wz s1); exact H.
  - auto.
Qed.

(** X4.  The maximum height of a batted ball is the greatest height among
    its samples: no sample is higher, one sample has that height, and it
    is not below the 0.5 m of the point of contact. *)
Theorem bat_max_height (v la sa ws wd : float) :
  exists r,
    (forall k, calculateTrajectory (bat_fuel + k) v la sa ws wd = Some r) /\
    Forall (not_above (maxHeight r)) (points r) /\
    Exists (fun p => p_y p = maxHeight r) (points r) /\
    (lit 0.5 >? maxHeight r) = false.
Proof.
  destruct (bat_run v la sa ws wd) as (s & Hs & Hr).
  destruct (bat_wind ws wd) as [[wx wy] wz].
  exists (bat_result s). split; [exact Hr|].
  destruct (bat_peak_run _ _ _ _ _ _ (bat_peak_init v la sa) Hs)
    as [Hall Hex].
  destruct (bat_first_sample _ _ _ _ _ _ _ _ Hs) as [rest Hfirst].
  change (points (bat_result s)) with (b_points s).
  change (maxHeight (bat_result s)) with (b_maxHeight s).
  split; [exact Hall|]. split.
  - destruct Hex as [[Hnil _] | Hex]; [congruence|exact Hex].
  - rewrite Hfirst in Hall. inversion Hall as [|p l Hp _]. exact Hp.
Qed.

(** X5.  The landing position of a batted ball is set exactly when some
    pass took the ball to height at most zero; it is then the place where
    the first such pass ended, at height zero, and the distance of the
    result is its horizontal range.  *)
Theorem landing_at_first_contact (v la sa ws wd : float) :
  let '(wx, wy, wz) := bat_wind ws wd in
  let s0 := bat_init v la sa in
  exists r,
    (forall k, calculateTrajectory (bat_fuel + k) v la sa ws wd = Some r) /\
    match landingPosition r with
    | Some (x, y, z) =>
        exists k, (k < length (points r))%nat /\
          first_contact wx wy wz s0 k /\
          x = b_x (bat_fly wx wy wz (bat_state wx wy wz s0 k)) /\
          y = lit 0 /\
          z = b_z (bat_fly wx wy wz (bat_state wx wy wz s0 k)) /\
          distance r = nsqrt (x * x + z * z)
    | None =>
        forall j, (j < length (points r))%nat ->
                  bat_contact wx wy wz s0 j = false
    end.
Proof.
  destruct (bat_run v la sa ws wd) as (s & Hs & Hr).
  destruct (bat_wind ws wd) as [[wx wy] wz]. cbv zeta.
  exists (bat_result s). split; [exact Hr|].
  destruct (bat_run_landed wx wy wz (bat_init v la sa) eq_refl eq_refl eq_refl
              bat_fuel s Hs) as (n & (_ & Hlen & Hcase) & Hl).
  unfold bat_result; simpl. rewrite Hlen.
  destruct Hl as [(Hair & ->) | (Hhit & k & Hk & Hfirst & -> & Hcar)].
  - destruct Hcase as [(_ & Hno) | (Hhit & _)]; [exact Hno|congruence].
  - exists k. rewrite Hhit. simpl.
    split; [exact Hk|]. split; [exact Hfirst|]. repeat split. exact Hcar.
Qed.

(** A pass that leaves the loop leaves the ball stopped. *)
Lemma ground_collision_stopped (f s' : @BatState float) :
  ground_collision f = Break s' -> bat_stopped s'.
Proof.
  unfold ground_collision, bat_stopped, bat_speed.
  destruct (b_y f <=? lit 0); [|discriminate].
  destruct (b_hasHitGround f); simpl;
    repeat match goal with
           | |- context [if ?c then _ else _] => destruct c eqn:?
           end;
    intros H; try discriminate H; injection H as <-; simpl; repeat split;
    solve [assumption | vm_compute; reflexivity].
Qed.

(** X6.  The batting loop is left in one of two ways: by its condition,
    the clock having reached the cap of 20 s, or by [break], with the
    ball on the ground (height 0), without vertical velocity, with a
    horizontal speed that is not above zero, and with a landing
    position. *)
Theorem bat_loop_exit (v la sa ws wd : float) :
  let '(wx, wy, wz) := bat_wind ws wd in
  exists s,
    while_loop bat_cond (bat_body wx wy wz) bat_fuel (bat_init v la sa)
    = Some s /\
    (forall k, calculateTrajectory (bat_fuel + k) v la sa ws wd
               = Some (bat_result s)) /\
    ((hangTime (bat_result s) <? lit 20) = false \/
     (bat_stopped s /\ landingPosition (bat_result s) <> None)).
Proof.
  destruct (bat_run v la sa ws wd) as (s & Hs & Hr).
  destruct (bat_wind ws wd) as [[wx wy] wz] eqn:Hw.
  exists s. split; [exact Hs|]. split; [exact Hr|].
  assert (Hexit : bat_cond s = false \/ bat_stopped s).
  { revert Hs.
    apply (while_loop_inv bat_cond (bat_body wx wy wz) (fun _ => True)
             (fun s => bat_cond s = false \/ bat_stopped s)).
    - intros s1 _ _. rewrite bat_body_fly.
      destruct (ground_collision (bat_fly wx wy wz s1)) eqn:Hg; [exact I|].
      right. exact (ground_collision_stopped _ _ Hg).
    - intros s1 _ Hc. left. exact Hc.
    - exact I. }
  destruct Hexit as [Hc | Hstop]; [left; exact Hc|]. right.
  split; [exact Hstop|].
  destruct (bat_run_landed wx wy wz (bat_init v la sa) eq_refl eq_refl eq_refl
              bat_fuel s Hs) as (n & _ & Hl).
  destruct Hstop as (_ & _ & _ & Hhit).
  change (landingPosition (bat_result s)) with (b_landingPosition s).
  destruct Hl as [(Hair & _) | (_ & k & _ & _ & -> & _)]; [congruence|].
  discriminate.
Qed.

(** X7.  The distance of a batted ball is never below zero, whatever the
    arguments: it is always the square root that was taken at the first
    contact or after the loop. *)
Theorem bat_distance_not_negative (v la sa ws wd : float) :
  exists r,
    (forall k, calculateTrajectory (bat_fuel + k) v la sa ws wd = Some r) /\
    (distance r <? lit 0) = false.
Proof.
  destruct (bat_run v la sa ws wd) as (s & Hs & Hr).
  destruct (bat_wind ws wd) as [[wx wy] wz].
  exists (bat_result s). split; [exact Hr|].
  destruct (bat_run_landed wx wy wz (bat_init v la sa) eq_refl eq_refl eq_refl
              bat_fuel s Hs) as (n & _ & Hl).
  unfold bat_result; simpl.
  destruct Hl as [(-> & _) | (-> & k & _ & _ & _ & ->)]; simpl.
  - apply float_sqrt_not_neg.
  - unfold bat_range. apply float_sqrt_not_neg.
Qed.

End FloatBat.

(** ** The record of the pitch loop *)

Section PitchRecord.

Context {A : Type} {AR : Arith A} {ML : MathLib A}.
Local Open Scope num_scope.

(** What every pass records, cut short or not. *)
Lemma pitch_body_pushed (params : PitchingParams) (omega : A)
  (s : PitchState) :
  let s' := flow_state (pitch_body params omega s) in
  q_points s' = q_points s ++ [pitch_sample s] /\
  q_maxHeight s' =
    (if q_y s >? q_maxHeight s then q_y s else q_maxHeight s).
Proof.
  cbv zeta. unfold pitch_body.
  destruct (q_t s >? MAX_SIMULATION_TIME); [split; reflexivity|].
  destruct (q_y s <=? lit 0); split; reflexivity.
Qed.

(** The samples of a run begin with the sample of its first state. *)
Lemma pitch_first_sample (params : PitchingParams) (omega : A) (fuel : nat)
  (s0 s : PitchState) :
  q_points s0 = [] ->
  while_loop pitch_cond (pitch_body params omega) fuel s0 = Some s ->
  exists rest, q_points s ++ [pitch_sample s] = pitch_sample s0 :: rest.
Proof.
  intros H0 H.
  assert (Hinv : s = s0 \/ exists rest, q_points s = pitch_sample s0 :: rest).
  { revert H.
    apply (while_loop_inv pitch_cond (pitch_body params omega)
             (fun s => s = s0 \/
                       exists rest, q_points s = pitch_sample s0 :: rest)
             (fun s => s = s0 \/
                       exists rest, q_points s = pitch_sample s0 :: rest)).
    - intros s1 H1 _.
      destruct (pitch_body_pushed params omega s1) as [Hp _].
      cbv zeta in Hp.
      assert (Hn : exists rest,
                 q_points (flow_state (pitch_body params omega s1))
                 = pitch_sample s0 :: rest).
      { rewrite Hp. destruct H1 as [-> | [rest ->]].
        - exists []. rewrite H0. reflexivity.
        - eexists. reflexivity. }
      destruct (pitch_body params omega s1); right; exact Hn.
    - auto.
    - left. reflexivity. }
  destruct Hinv as [-> | [rest ->]].
  - exists []. rewrite H0. reflexivity.
  - eexists. reflexivity.
Qed.

(** The samples recorded at the head of the loop were taken before the
    catcher; all of them are in flight, unless the last pass was cut
    short: its sample is the one of the final state. *)
Lemma pitch_run_in_play (params : PitchingParams) (omega : A) (fuel : nat)
  (s0 s : PitchState) :
  q_points s0 = [] ->
  while_loop pitch_cond (pitch_body params omega) fuel s0 = Some s ->
  Forall before_catcher (q_points s) /\
  (Forall in_flight (q_points s) \/
   exists pts, q_points s = pts ++ [pitch_sample s] /\ Forall in_flight pts).
Proof.
  intros H0.
  apply (while_loop_inv pitch_cond (pitch_body params omega)
           (fun s => Forall before_catcher (q_points s) /\
                     Forall in_flight (q_points s))
           (fun s => Forall before_catcher (q_points s) /\
                     (Forall in_flight (q_points s) \/
                      exists pts, q_points s = pts ++ [pitch_sample s] /\
                                  Forall in_flight pts))).
  - intros s1 [Hb Hf] Hc.
    destruct (pitch_body params omega s1) as [s2|s2] eqn:Hbody.
    + destruct (pitch_body_next params omega s1 s2 Hbody)
        as (Ht & Hy & _ & Hp & _).
      rewrite Hp. split; apply Forall_app; split; try assumption;
        (constructor; [|constructor]).
      * exact Hc.
      * split; assumption.
    + destruct (pitch_body_break params omega s1 s2 Hbody)
        as (_ & Hp & Hsame & _).
      rewrite Hp. split.
      * apply Forall_app. split; [exact Hb|].
        constructor; [exact Hc|constructor].
      * right. exists (q_points s1). rewrite Hsame. split; [reflexivity|].
        exact Hf.
  - intros s1 [Hb Hf] _. split; [exact Hb|]. left. exact Hf.
  - rewrite H0. split; constructor.
Qed.

End PitchRecord.

Section FloatPitch.

Context {ML : MathLib float}.
Local Open Scope num_scope.

(** The run of the pitch loop behind a call of [calculatePitchTrajectory]
    with a velocity above 0.1 km/h. *)
Lemma pitch_run (params : PitchingParams) :
  (velocity params <=? lit 0.1) = false ->
  exists s,
    while_loop pitch_cond (pitch_body params (pitch_omega params)) pitch_fuel
      (pitch_init params) = Some s /\
    forall k, calculatePitchTrajectory (pitch_fuel + k) params
              = Some (pitch_result s).
Proof.
  intros Hv. unfold calculatePitchTrajectory. rewrite Hv.
  assert (Ht : q_t (pitch_init params) = lit 0) by reflexivity.
  destruct (pitch_loop_total params (pitch_omega params)
              (pitch_init params) Ht) as [s Hs].
  exists s. split; [exact Hs|]. intros k.
  rewrite (while_loop_more_fuel _ _ _ _ _ Hs k). reflexivity.
Qed.

Lemma pitch_degenerate_run (params : PitchingParams) :
  (velocity params <=? lit 0.1) = true ->
  forall k, calculatePitchTrajectory k params
            = Some (pitch_degenerate params).
Proof.
  intros Hv k. unfold calculatePitchTrajectory. rewrite Hv. reflexivity.
Qed.

(** The loop starts at the release point, with no break. *)
Lemma pitch_init_sample (params : PitchingParams) :
  pitch_sample (pitch_init params) = release_point params.
Proof. reflexivity. Qed.

Lemma pitch_run_length (params : PitchingParams) (omega : float)
  (fuel : nat) (s : PitchState) :
  while_loop pitch_cond (pitch_body params omega) fuel (pitch_init params)
  = Some s ->
  (length (q_points s) <= 2502)%nat.
Proof.
  intros Hs.
  destruct (pitch_timed_run _ _ _ _ Hs)
    as [m [(_ & Hmap & Hin) | (_ & Hmap & _ & Hin)]];
    pose proof (pitch_timed_bound m Hin) as Hm;
    rewrite <- (length_map p_t), Hmap, length_map, length_seq; lia.
Qed.

(** X8.  The fields of a pitch result agree with its samples.  There is
    always a last sample [q]; the first sample is the release point at
    time 0 with no break; there are at most 2503 samples; the final
    position is the (x, y) of [q], the hang time its time, the distance
    18.44 m less its z, or 0 when the velocity is at most 0.1 km/h; a
    pitch has no landing position and always a plate crossing. *)
Theorem pitch_result_shape (params : PitchingParams) :
  exists r pts q,
    (forall k, calculatePitchTrajectory (pitch_fuel + k) params = Some r) /\
    points r = pts ++ [q] /\
    hd_error (points r) = Some (release_point params) /\
    (length (points r) <= 2503)%nat /\
    finalPosition r = Some (position_xy q) /\
    hangTime r = p_t q /\
    distance r = (if velocity params <=? lit 0.1 then lit 0
                  else MOUND_DISTANCE - p_z q) /\
    landingPosition r = None /\
    plateCrossing r <> None.
Proof.
  destruct (velocity params <=? lit 0.1) eqn:Hv.
  - exists (pitch_degenerate params), [], (release_point params).
    split; [intros k; apply (pitch_degenerate_run params Hv)|].
    repeat split; try reflexivity; simpl; [lia|discriminate].
  - destruct (pitch_run params Hv) as (s & Hs & Hr).
    exists (pitch_result s), (q_points s), (pitch_sample s).
    split; [exact Hr|]. split; [reflexivity|].
    change (points (pitch_result s)) with (q_points s ++ [pitch_sample s]).
    split.
    { destruct (pitch_first_sample params (pitch_omega params) pitch_fuel
                  (pitch_init params) s eq_refl Hs) as [rest ->].
      rewrite pitch_init_sample. reflexivity. }
    split.
    { rewrite length_app. simpl.
      pose proof (pitch_run_length _ _ _ _ Hs). lia. }
    repeat split; try reflexivity. discriminate.
Qed.

Lemma pitch_peak_next (params : PitchingParams) (omega : float)
  (s : PitchState) :
  pitch_peak s -> pitch_peak (flow_state (pitch_body params omega s)).
Proof.
  intros [Hall Hex].
  destruct (pitch_body_pushed params omega s) as [Hp Hm].
  cbv zeta in Hp, Hm. unfold pitch_peak. rewrite Hp, Hm.
  destruct (q_y s >? q_maxHeight s) eqn:Hgt.
  - split.
    + apply Forall_app. split.
      * eapply Forall_impl; [|exact Hall]. intros q Hq.
        unfold not_above in *.
        destruct (p_y q >? q_y s) eqn:E; [|reflexivity].
        pose proof (eq_trans (eq_sym Hq) (float_ltb_trans _ _ _ Hgt E)) as F.
        discriminate F.
      * constructor; [|constructor]. apply float_ltb_irrefl.
    + right. apply Exists_app. right. constructor. reflexivity.
  - split.
    + apply Forall_app. split; [exact Hall|].
      constructor; [exact Hgt|constructor].
    + right. destruct Hex as [[Hnil Heq] | Hex].
      * apply Exists_app. right. constructor. simpl. congruence.
      * apply Exists_app. left. exact Hex.
Qed.

Lemma pitch_peak_run (params : PitchingParams) (omega : float) (fuel : nat)
  (s0 s : PitchState) :
  pitch_peak s0 ->
  while_loop pitch_cond (pitch_body params omega) fuel s0 = Some s ->
  pitch_peak s.
Proof.
  apply (while_loop_inv pitch_cond (pitch_body params omega)
           pitch_peak pitch_peak).
  - intros s1 H1 _. pose proof (pitch_peak_next params omega s1 H1) as H.
    destruct (pitch_body params omega s1); exact H.
  - auto.
Qed.

(** X9.  The maximum height of a pitch is the greatest height among its
    samples, the last one left out: the sample recorded after the loop is
    not compared with the maximum.  No sample before the last is higher,
    one sample has that height, and it is not below the release
    height. *)
Theorem pitch_max_height (params : PitchingParams) :
  exists r pts q,
    (forall k, calculatePitchTrajectory (pitch_fuel + k) params = Some r) /\
    points r = pts ++ [q] /\
    Forall (not_above (maxHeight r)) pts /\
    Exists (fun p => p_y p = maxHeight r) (points r) /\
    (releaseHeight params >? maxHeight r) = false.
Proof.
  destruct (velocity params <=? lit 0.1) eqn:Hv.
  - exists (pitch_degenerate params), [], (release_point params).
    split; [intros k; apply (pitch_degenerate_run params Hv)|].
    split; [reflexivity|]. split; [constructor|].
    split; [constructor; reflexivity|]. apply float_ltb_irrefl.
  - destruct (pitch_run params Hv) as (s & Hs & Hr).
    exists (pitch_result s), (q_points s), (pitch_sample s).
    split; [exact Hr|]. split; [reflexivity|].
    assert (H0 : pitch_peak (pitch_init params)).
    { split; [constructor|]. left. split; reflexivity. }
    destruct (pitch_peak_run _ _ _ _ _ H0 Hs) as [Hall Hex].
    split; [exact Hall|].
    change (points (pitch_result s)) with (q_points s ++ [pitch_sample s]).
    change (maxHeight (pitch_result s)) with (q_maxHeight s).
    destruct (pitch_first_sample params (pitch_omega params) pitch_fuel
                (pitch_init params) s eq_refl Hs) as [rest Hfirst].
    destruct Hex as [[Hnil Heq] | Hex].
    + split.
      * apply Exists_app. right. constructor. simpl. congruence.
      * rewrite Hnil in Hfirst. simpl in Hfirst.
        apply (f_equal (fun l => option_map p_y (hd_error l))) in Hfirst.
        simpl in Hfirst. injection Hfirst as Hy.
        rewrite Heq, Hy. apply float_ltb_irrefl.
    + split; [apply Exists_app; left; exact Hex|].
      destruct (q_points s) as [|p0 pts] eqn:Hpts.
      * inversion Hex.
      * simpl in Hfirst. injection Hfirst as -> _.
        inversion Hall as [|p l Hp _]. exact Hp.
Qed.

(** X10.  Every sample of a pitch but the last was taken before the
    catcher (z > -1.5).  Every sample but the last was taken in flight
    (not y <= 0, not t > 5), unless the loop was left by [break]: then the
    sample that stopped it, the last but one, is excepted too, and the
    last sample repeats it. *)
Theorem pitch_samples_in_play (params : PitchingParams) :
  exists r pts q,
    (forall k, calculatePitchTrajectory (pitch_fuel + k) params = Some r) /\
    points r = pts ++ [q] /\
    Forall before_catcher pts /\
    (Forall in_flight pts \/
     exists pts', pts = pts' ++ [q] /\ Forall in_flight pts').
Proof.
  destruct (velocity params <=? lit 0.1) eqn:Hv.
  - exists (pitch_degenerate params), [], (release_point params).
    split; [intros k; apply (pitch_degenerate_run params Hv)|].
    split; [reflexivity|]. split; [constructor|]. left. constructor.
  - destruct (pitch_run params Hv) as (s & Hs & Hr).
    exists (pitch_result s), (q_points s), (pitch_sample s).
    split; [exact Hr|]. split; [reflexivity|].
    exact (pitch_run_in_play params (pitch_omega params) pitch_fuel
             (pitch_init params) s eq_refl Hs).
Qed.

End FloatPitch.

(** ** The cost and the inputs of the solver *)

Section SolverFacts.

Context {A : Type} {AR : Arith A} {ML : MathLib A}.
Local Open Scope num_scope.

(** The integrator reads neither the target nor the gyro degree. *)
Lemma pitch_ignores_target (fuel : nat) (params : PitchingParams)
  (tx ty gyro : A) :
  calculatePitchTrajectory fuel (with_target params tx ty gyro)
  = calculatePitchTrajectory fuel params.
Proof. reflexivity. Qed.

(** The loop of the solver never reads the angles of its argument. *)
Lemma solve_loop_ignores_angles (fuel : nat) (params : PitchingParams)
  (h0 v0 tx ty : A) (n : nat) :
  forall (h v : A) (calls : nat),
    solve_loop fuel (with_angles params h0 v0) tx ty n h v calls
    = solve_loop fuel params tx ty n h v calls.
Proof.
  induction n as [|n IH]; intros h v calls; [reflexivity|].
  cbn [solve_loop].
  change (with_angles (with_angles params h0 v0) h v)
    with (with_angles params h v).
  destruct (calculatePitchTrajectory fuel (with_angles params h v));
    [|reflexivity].
  destruct (crossing_of_result _) as [[ax ay]|]; [|reflexivity].
  destruct (_ && _); [reflexivity|]. apply IH.
Qed.

Lemma solve_loop_ignores_target (fuel : nat) (params : PitchingParams)
  (tx ty gyro targetX targetY : A) (n : nat) :
  forall (h v : A) (calls : nat),
    solve_loop fuel (with_target params tx ty gyro) targetX targetY n h v
      calls
    = solve_loop fuel params targetX targetY n h v calls.
Proof.
  induction n as [|n IH]; intros h v calls; [reflexivity|].
  cbn [solve_loop].
  change (calculatePitchTrajectory fuel
            (with_angles (with_target params tx ty gyro) h v))
    with (calculatePitchTrajectory fuel (with_angles params h v)).
  destruct (calculatePitchTrajectory fuel (with_angles params h v));
    [|reflexivity].
  destruct (crossing_of_result _) as [[ax ay]|]; [|reflexivity].
  destruct (_ && _); [reflexivity|]. apply IH.
Qed.

(** Each pass of the solver calls the integrator once; a loop left with
    passes to spare was left within the tolerance. *)
Lemma solve_loop_calls (fuel : nat) (params : PitchingParams) (tx ty : A)
  (n : nat) :
  forall (h v : A) (calls : nat) (h' v' : A) (calls' : nat),
    solve_loop fuel params tx ty n h v calls = Some (h', v', calls') ->
    (calls' <= calls + n)%nat /\
    ((0 < n)%nat -> (calls < calls')%nat) /\
    ((calls' < calls + n)%nat ->
     exists e, plate_error fuel params tx ty (h', v') = Some e /\
               within_tolerance e = true).
Proof.
  induction n as [|n IH]; intros h v calls h' v' calls' H.
  - simpl in H. injection H as <- <- <-. repeat split; lia.
  - cbn [solve_loop] in H.
    destruct (calculatePitchTrajectory fuel (with_angles params h v))
      as [r|] eqn:Hr; [|discriminate].
    destruct (pitch_has_crossing _ _ _ Hr) as [[ax ay] Hc].
    rewrite Hc in H.
    destruct ((nabs (tx - ax) <? solver_tolerance)
              && (nabs (ty - ay) <? solver_tolerance)) eqn:Htol.
    + injection H as <- <- <-. split; [lia|]. split; [lia|]. intros _.
      exists (tx - ax, ty - ay). split; [|exact Htol].
      unfold plate_error. simpl. rewrite Hr, Hc. reflexivity.
    + destruct (IH _ _ _ _ _ _ H) as (H1 & H2 & H3).
      split; [lia|]. split.
      * intros _. destruct n as [|n].
        -- simpl in H. injection H as <- <- <-. lia.
        -- specialize (H2 ltac:(lia)). lia.
      * intros Hlt. apply H3. lia.
Qed.

(** X11.  The engine does not read the fields of the parameters that
    only the controls show.  The integrator reads neither the target nor
    the gyro degree.  With a velocity above 0.1 km/h the solver reads
    neither of them and not the two angles: its answer depends on the
    target it is called with and on the parameters of the release, the
    velocity and the spin only. *)
Theorem unused_pitch_fields :
  (forall (fuel : nat) (params : PitchingParams) (tx ty gyro : A),
      calculatePitchTrajectory fuel (with_target params tx ty gyro)
      = calculatePitchTrajectory fuel params) /\
  (forall (fuel : nat) (params : PitchingParams)
          (h v tx ty gyro targetX targetY : A),
      (velocity params <=? lit 0.1) = false ->
      solvePitchAngles fuel (with_target (with_angles params h v) tx ty gyro)
        targetX targetY
      = solvePitchAngles fuel params targetX targetY).
Proof.
  split; [intros; apply pitch_ignores_target|].
  intros fuel params h0 v0 tx ty gyro targetX targetY Hv.
  unfold solvePitchAngles, solve_traced.
  change (velocity (with_target (with_angles params h0 v0) tx ty gyro))
    with (velocity params).
  rewrite Hv.
  change (solver_guess (with_target (with_angles params h0 v0) tx ty gyro)
            targetX targetY)
    with (solver_guess params targetX targetY).
  destruct (solver_guess params targetX targetY) as [h v].
  rewrite solve_loop_ignores_target, solve_loop_ignores_angles. reflexivity.
Qed.

End SolverFacts.

Section FloatSolver.

Context {ML : MathLib float}.
Local Open Scope num_scope.

(** X12.  The solver runs the integrator at most 10 times: never when
    the velocity is at most 0.1 km/h, at least once otherwise.  When it
    ran it fewer than 10 times, the angles it returns take the pitch
    within 0.0005 m of the target in x and in y. *)
Theorem solver_calls_bounded (params : PitchingParams) (tx ty : float) :
  exists h v calls,
    (forall k, solve_traced (pitch_fuel + k) params tx ty
               = Some (h, v, calls)) /\
    (calls <= 10)%nat /\
    (if velocity params <=? lit 0.1 then calls = 0%nat
     else (1 <= calls)%nat /\
          ((calls < 10)%nat ->
           exists e, plate_error pitch_fuel params tx ty (h, v) = Some e /\
                     within_tolerance e = true)).
Proof.
  destruct (solve_total params tx ty) as [[[h v] calls] Ha].
  exists h, v, calls. split; [exact Ha|].
  specialize (Ha 0%nat). rewrite (Nat.add_0_r pitch_fuel) in Ha.
  unfold solve_traced in Ha.
  destruct (velocity params <=? lit 0.1).
  - injection Ha as _ _ <-. split; [lia|reflexivity].
  - destruct (solver_guess params tx ty) as [h0 v0].
    destruct (solve_loop_calls _ _ _ _ _ _ _ _ _ _ _ Ha) as (H1 & H2 & H3).
    split; [lia|]. split; [apply H2; lia|].
    intros Hlt. apply H3. lia.
Qed.

End FloatSolver.

(** ** Segments on binary64 *)

Section FloatGeometry.

Local Open Scope num_scope.

(** X13.  On binary64, when the denominator of the intersection test is
    neither below nor above zero (the step and the segment are parallel,
    the ball did not move, or the denominator is NaN), no intersection is
    reported: the quotients are infinite or NaN and fail the range
    test. *)
Theorem line_intersection_parallel
  (p0_x p0_y p1_x p1_y p2_x p2_y p3_x p3_y : float) :
  let det := (- (p3_x - p2_x)) * (p1_y - p0_y)
             + (p1_x - p0_x) * (p3_y - p2_y) in
  (det <? lit 0) = false -> (det >? lit 0) = false ->
  getLineIntersection p0_x p0_y p1_x p1_y p2_x p2_y p3_x p3_y = None.
Proof.
  intros det Hneg Hpos. unfold getLineIntersection. cbv zeta. fold det.
  set (n := (- (p1_y - p0_y)) * (p0_x - p2_x) + (p1_x - p0_x) * (p0_y - p2_y)).
  assert (H : (n / det >=? lit 0) && (n / det <=? lit 1) = false)
    by exact (float_div_unsigned n det Hneg Hpos).
  rewrite H. reflexivity.
Qed.

End FloatGeometry.

(** ** Segments in exact arithmetic *)

Section RealGeometry.

Local Open Scope R_scope.

(** X14.  In exact arithmetic, for a step and a segment that are not
    parallel, the intersection test returns a point exactly when the two
    meet, and the point is where they meet: it lies on the step and on
    the segment. *)
Theorem line_intersection_exact
  (p0_x p0_y p1_x p1_y p2_x p2_y p3_x p3_y : R) :
  - (p3_x - p2_x) * (p1_y - p0_y) + (p1_x - p0_x) * (p3_y - p2_y) <> 0 ->
  forall x z : R,
    getLineIntersection p0_x p0_y p1_x p1_y p2_x p2_y p3_x p3_y = Some (x, z)
    <->
    exists t s : R,
      0 <= t <= 1 /\ 0 <= s <= 1 /\
      x = p0_x + t * (p1_x - p0_x) /\ z = p0_y + t * (p1_y - p0_y) /\
      x = p2_x + s * (p3_x - p2_x) /\ z = p2_y + s * (p3_y - p2_y).
Proof.
  intros Hd x z. split.
  - apply line_intersection_sound. exact Hd.
  - intros (t & s & Ht & Hs & Hx1 & Hz1 & Hx2 & Hz2).
    rewrite Hx1, Hz1.
    apply (line_intersection_complete _ _ _ _ _ _ _ _ t s Hd Ht Hs);
      congruence.
Qed.

(** The normal of a segment is orthogonal to it. *)
Lemma wall_normal_orthogonal (seg : WallSegment) (nx nz : R) :
  wall_normal seg = (nx, nz) ->
  nx * (x2 seg - x1 seg) + nz * (z2 seg - z1 seg) = 0.
Proof.
  unfold wall_normal. simpl.
  destruct (Rltb _ _); intros H; injection H as <- <-; unfold Rdiv; ring.
Qed.

(** X15.  In exact arithmetic a reflection puts the ball inside the
    fence and sends it inwards: when a step that is not parallel to the
    segment it hits first is reflected, the ball is then 0.2 m from the
    line of that segment, measured along the normal, on the side of home
    plate, and the component of its velocity along the normal has changed
    sign and lost three tenths. *)
Theorem wall_bounce_inside (prevX prevZ : R) (s : @BatState R)
  (seg : WallSegment) (p : R * R) (nx nz : R) :
  wall_gate s = true ->
  first_wall_hit prevX prevZ s seg p ->
  wall_normal seg = (nx, nz) ->
  b_vx s * nx + b_vz s * nz < 0 ->
  - (x2 seg - x1 seg) * (b_z s - prevZ)
  + (b_x s - prevX) * (z2 seg - z1 seg) <> 0 ->
  let s' := wall_collision prevX prevZ s in
  nx * (b_x s' - x1 seg) + nz * (b_z s' - z1 seg) = 2 / 10 /\
  0 <= nx * (0 - x1 seg) + nz * (0 - z1 seg) /\
  b_vx s' * nx + b_vz s' * nz = - (7 / 10) * (b_vx s * nx + b_vz s * nz).
Proof.
  intros Hg Hf Hn Hd Hdet s'.
  assert (Hin : In seg WALL_SEGMENTS).
  { destruct Hf as (pre & post & -> & _). apply in_elt. }
  destruct (wall_normal_unit seg nx nz Hin Hn) as [Hu Hmid].
  pose proof (wall_normal_orthogonal seg nx nz Hn) as Ho.
  unfold s'. rewrite (wall_collision_first_hit prevX prevZ s seg p Hg Hf).
  pose proof (wall_bounce_reflects seg p s nx nz Hn) as H.
  cbv zeta in H.
  replace (nltb (nadd (nmul (b_vx s) nx) (nmul (b_vz s) nz)) (lit 0))
    with true in H
    by (symmetry; apply Rltb_true; rewrite lit_real_0; exact Hd).
  destruct H as (Hvx & Hvz & _ & Hx & Hz).
  destruct Hf as (_ & _ & _ & _ & Hhit). unfold wall_hit in Hhit.
  destruct p as [px pz].
  destruct (line_intersection_sound _ _ _ _ _ _ _ _ _ _ Hdet Hhit)
    as (t & u & _ & _ & _ & _ & Hpx & Hpz).
  rewrite Hx, Hz, Hvx, Hvz. simpl fst. simpl snd. real_ops.
  rewrite !lit_real. split; [|split].
  - rewrite Hpx, Hpz.
    replace (nx * (x1 seg + u * (x2 seg - x1 seg) + nx * (2 / 10) - x1 seg)
             + nz * (z1 seg + u * (z2 seg - z1 seg) + nz * (2 / 10) - z1 seg))
      with (u * (nx * (x2 seg - x1 seg) + nz * (z2 seg - z1 seg))
            + 2 / 10 * (nx * nx + nz * nz)) by ring.
    rewrite Ho, Hu. lra.
  - replace (nx * (0 - x1 seg) + nz * (0 - z1 seg))
      with (- (nx * ((x1 seg + x2 seg) / 2) + nz * ((z1 seg + z2 seg) / 2))
            + (nx * (x2 seg - x1 seg) + nz * (z2 seg - z1 seg)) / 2)
      by field.
    rewrite Ho. lra.
  - replace ((b_vx s - 2 / 1 * (b_vx s * nx + b_vz s * nz) * nx) * (7 / 10)
             * nx
             + (b_vz s - 2 / 1 * (b_vx s * nx + b_vz s * nz) * nz) * (7 / 10)
               * nz)
      with (7 / 10 * (b_vx s * nx + b_vz s * nz)
            * (1 - 2 * (nx * nx + nz * nz))) by field.
    rewrite Hu. ring.
Qed.

(** X16.  In exact arithmetic the crossing recorded between a sample at
    z >= 0 and the next at z < 0 is a point of the straight line between
    them: it is taken at a fraction of the step that is at least 0 and
    below 1, and at that fraction the line is at z = 0. *)
Theorem plate_interpolation_exact (p q : @Point3D R) :
  0 <= p_z p -> p_z q < 0 ->
  exists f : R,
    0 <= f < 1 /\
    p_z p + (p_z q - p_z p) * f = 0 /\
    crossing_between p q
    = [(p_x p + (p_x q - p_x p) * f, p_y p + (p_y q - p_y p) * f)].
Proof.
  intros Hp Hq. exists ((0 - p_z p) / (p_z q - p_z p)).
  assert (Hd : p_z q - p_z p < 0) by lra.
  split; [split|split].
  - unfold Rdiv. replace ((0 - p_z p) * / (p_z q - p_z p))
      with (p_z p * / (p_z p - p_z q)) by (field; lra).
    apply Rmult_le_pos; [exact Hp|].
    apply Rlt_le, Rinv_0_lt_compat. lra.
  - apply (Rmult_lt_reg_r (p_z p - p_z q)); [lra|].
    replace ((0 - p_z p) / (p_z q - p_z p) * (p_z p - p_z q))
      with (p_z p) by (field; lra).
    lra.
  - field. lra.
  - unfold crossing_between.
    replace (nleb (lit 0) (p_z p)) with true
      by (symmetry; apply Rleb_true; rewrite lit_real_0; exact Hp).
    replace (nltb (p_z q) (lit 0)) with true
      by (symmetry; apply Rltb_true; rewrite lit_real_0; exact Hq).
    simpl. unfold interpolate_plate. rewrite lit_real_0. reflexivity.
Qed.

End RealGeometry.

(** ** The bounce off the ground *)

Section GroundFacts.

Context {A : Type} {AR : Arith A} {ML : MathLib A}.
Local Open Scope num_scope.

Lemma wall_collision_closed (prevX prevZ : A) (s : BatState) :
  wall_gate s = false -> wall_collision prevX prevZ s = s.
Proof.
  intros Hg. unfold wall_collision. unfold wall_gate in Hg. rewrite Hg.
  reflexivity.
Qed.

(** The wall leaves the vertical velocity alone or scales it by 0.8. *)
Lemma wall_collision_vy (prevX prevZ : A) (s : BatState) :
  b_vy (wall_collision prevX prevZ s) = b_vy s \/
  b_vy (wall_collision prevX prevZ s) = b_vy s * lit 0.8.
Proof.
  unfold wall_collision. destruct (_ && _); [|left; reflexivity].
  induction WALL_SEGMENTS as [|seg rest IH]; simpl; [left; reflexivity|].
  destruct (getLineIntersection _ _ _ _ _ _ _ _); [|exact IH].
  unfold wall_bounce. destruct (wall_normal seg) as [nx nz].
  destruct (_ <? _); [right|left]; reflexivity.
Qed.

(** The step in height of one pass. *)
Lemma bat_integrate_height (wx wy wz : A) (s : BatState) :
  b_y (bat_integrate wx wy wz s)
  = b_y s + b_vy (bat_integrate wx wy wz s) * bat_dt.
Proof. unfold bat_integrate. destruct (_ >? lit 0.1); reflexivity. Qed.

(** The bouncing branch of the ground test. *)
Lemma ground_bounce (f : BatState) :
  (b_y f <=? lit 0) = true ->
  (nabs (b_vy f) <? lit 1.0) = false ->
  exists s',
    ground_collision f = Next s' /\
    b_x s' = b_x f /\ b_y s' = lit 0 /\ b_z s' = b_z f /\
    b_vx s' = b_vx f * FRICTION_BOUNCE /\
    b_vy s' = (- b_vy f) * COR_GROUND /\
    b_vz s' = b_vz f * FRICTION_BOUNCE.
Proof.
  intros H1 H2. unfold ground_collision. rewrite H1, H2.
  destruct (b_hasHitGround f); simpl; eexists; repeat split.
Qed.

End GroundFacts.

Section RealBounce.

Local Open Scope R_scope.

(** X17.  In exact arithmetic a bounce sends the ball upwards.  When a
    pass that began at height at least zero takes the ball to height at
    most zero with a vertical speed of at least 1 m/s, the ball was
    moving downwards; the pass ends with the ball at height 0, moving
    upwards with 0.45 times that vertical speed, and with 0.92 times its
    horizontal speed; the loop goes on. *)
Theorem ground_bounce_exact (ML : MathLib R) (wx wy wz : R)
  (s : @BatState R) :
  0 <= b_y s ->
  let f := bat_fly wx wy wz s in
  b_y f <= 0 -> 1 <= Rabs (b_vy f) ->
  b_vy f <= -1 /\
  exists s',
    bat_body wx wy wz s = Next s' /\
    b_x s' = b_x f /\ b_y s' = 0 /\ b_z s' = b_z f /\
    b_vy s' = 45 / 100 * - b_vy f /\
    45 / 100 <= b_vy s' /\
    bat_speed s' = 92 / 100 * bat_speed f.
Proof.
  intros Hy f Hf Hv.
  assert (Hneg : b_vy f <= 0).
  { unfold f, bat_fly in *.
    destruct (wall_collision_same (b_x s) (b_z s) (bat_integrate wx wy wz s))
      as (Hy' & _).
    rewrite Hy', bat_integrate_height in Hf.
    assert (Hi : b_vy (bat_integrate wx wy wz s) <= 0).
    { real_ops. unfold bat_dt in Hf. rewrite lit_real in Hf. lra. }
    destruct (wall_collision_vy (b_x s) (b_z s) (bat_integrate wx wy wz s))
      as [-> | ->]; [exact Hi|].
    real_ops. rewrite lit_real. lra. }
  assert (Hle : b_vy f <= -1).
  { unfold Rabs in Hv. destruct (Rcase_abs (b_vy f)); lra. }
  split; [exact Hle|].
  destruct (ground_bounce f) as (s' & Hg & Hx & Hy' & Hz & Hvx & Hvy & Hvz).
  { apply Rleb_true. rewrite lit_real_0. exact Hf. }
  { apply Rltb_false. rewrite lit_real. real_ops. lra. }
  exists s'. rewrite bat_body_fly. fold f. split; [exact Hg|].
  split; [exact Hx|]. split; [rewrite Hy'; apply lit_real_0|].
  split; [exact Hz|].
  assert (Evy : b_vy s' = 45 / 100 * - b_vy f).
  { rewrite Hvy. unfold COR_GROUND. rewrite lit_real. real_ops. lra. }
  split; [exact Evy|]. split; [lra|].
  unfold bat_speed. rewrite Hvx, Hvz. unfold FRICTION_BOUNCE.
  rewrite lit_real. real_ops.
  replace (b_vx f * (92 / 100) * (b_vx f * (92 / 100))
           + b_vz f * (92 / 100) * (b_vz f * (92 / 100)))
    with (92 / 100 * (92 / 100) * (b_vx f * b_vx f + b_vz f * b_vz f))
    by ring.
  apply sqrt_scale; [lra|nra].
Qed.

End RealBounce.

(** ** Totality in exact arithmetic *)

Section SolverTotal.

Context {A : Type} {AR : Arith A} {ML : MathLib A}.
Local Open Scope num_scope.

Hypothesis pitch_returns :
  forall params : PitchingParams, exists r, forall k,
    calculatePitchTrajectory (pitch_fuel + k) params = Some r.

(** The solver returns as soon as the integrator does. *)
Lemma solve_loop_returns (params : PitchingParams) (tx ty : A) (n : nat) :
  forall (h v : A) (calls : nat),
  exists a, forall k,
    solve_loop (pitch_fuel + k) params tx ty n h v calls = Some a.
Proof.
  induction n as [|n IH]; intros h v calls; [eexists; reflexivity|].
  destruct (pitch_returns (with_angles params h v)) as [r Hr].
  destruct (crossing_of_result r) as [[ax ay]|] eqn:Hc.
  - destruct ((nabs (tx - ax) <? solver_tolerance)
              && (nabs (ty - ay) <? solver_tolerance)) eqn:Htol.
    + exists (h, v, Datatypes.S calls). intros k.
      cbn [solve_loop]. rewrite Hr, Hc, Htol. reflexivity.
    + destruct (IH (h + (tx - ax) * solver_gain)
                   (v + (ty - ay) * solver_gain) (Datatypes.S calls))
        as [a Ha].
      exists a. intros k. cbn [solve_loop]. rewrite Hr, Hc, Htol. apply Ha.
  - exists (h, v, Datatypes.S calls). intros k.
    cbn [solve_loop]. rewrite Hr, Hc. reflexivity.
Qed.

Lemma solve_returns (params : PitchingParams) (tx ty : A) :
  exists a, forall k,
    solvePitchAngles (pitch_fuel + k) params tx ty = Some a.
Proof.
  unfold solvePitchAngles, solve_traced.
  destruct (velocity params <=? lit 0.1).
  - eexists. intros k. reflexivity.
  - destruct (solver_guess params tx ty) as [h v].
    destruct (solve_loop_returns params tx ty 10 h v 0) as [a Ha].
    exists (fst a). intros k. rewrite Ha. reflexivity.
Qed.

End SolverTotal.

Section RealTotal.

Context {ML : MathLib R}.
Local Open Scope R_scope.

(** A clock of step [d] in exact arithmetic. *)
Lemma iterate_real_clock (d : R) (n : nat) :
  forall c : R, iterate (fun c => c + d) n c = c + INR n * d.
Proof.
  induction n as [|n IH]; intros c.
  - simpl. ring.
  - change (iterate (fun c => c + d) (S n) c)
      with (iterate (fun c => c + d) n (c + d)).
    rewrite IH, S_INR. ring.
Qed.

(** 2000 steps of 0.01 s are 20 s. *)
Lemma bat_loop_total_real (wx wy wz : R) (s : BatState) :
  b_t s = 0 ->
  exists r, while_loop bat_cond (bat_body wx wy wz) bat_fuel s = Some r.
Proof.
  intros Ht.
  apply (while_loop_clock bat_cond (bat_body wx wy wz) b_t
           (fun c => c + lit 0.01) (fun c => Rltb c (lit 20))).
  - intros s1 s1' Hc Hb. split; [exact Hc|].
    destruct (bat_next_record wx wy wz s1) as (H & _).
    cbv zeta in H. unfold bat_next in H. rewrite Hb in H. exact H.
  - rewrite Ht, iterate_real_clock. apply Rltb_false.
    rewrite INR_IZR_INZ. rewrite !lit_real.
    change (Z.of_nat 2000) with 2000%Z. lra.
Qed.

(** 2501 steps of 0.002 s are more than 5 s. *)
Lemma pitch_loop_total_real (params : PitchingParams) (omega : R)
  (s : PitchState) :
  q_t s = 0 ->
  exists r,
    while_loop pitch_cond (pitch_body params omega) pitch_fuel s = Some r.
Proof.
  intros Ht.
  apply (while_loop_clock pitch_cond (pitch_body params omega) q_t
           (fun c => c + lit 0.002)
           (fun c => negb (Rltb (lit 5.0) c))).
  - intros s1 s1' _ Hb.
    destruct (pitch_body_next params omega s1 s1' Hb) as (H1 & _ & H2 & _).
    change (nltb (A := R)) with Rltb in H1.
    unfold MAX_SIMULATION_TIME in H1. rewrite H1. auto.
  - rewrite Ht, iterate_real_clock.
    replace (Rltb _ _) with true; [reflexivity|].
    symmetry. apply Rltb_true.
    rewrite INR_IZR_INZ. rewrite !lit_real.
    change (Z.of_nat 2501) with 2501%Z. lra.
Qed.

Lemma bat_total_real (v la sa ws wd : R) :
  exists r, forall k,
    calculateTrajectory (bat_fuel + k) v la sa ws wd = Some r.
Proof.
  unfold calculateTrajectory.
  destruct (bat_wind ws wd) as [[wx wy] wz].
  destruct (bat_loop_total_real wx wy wz (bat_init v la sa) lit_real_0)
    as [s Hs].
  exists (bat_result s). intros k.
  rewrite (while_loop_more_fuel _ _ _ _ _ Hs k). reflexivity.
Qed.

Lemma pitch_total_real (params : PitchingParams) :
  exists r, forall k,
    calculatePitchTrajectory (pitch_fuel + k) params = Some r.
Proof.
  unfold calculatePitchTrajectory.
  destruct (nleb (velocity params) (lit 0.1)).
  - eexists. intros k. reflexivity.
  - destruct (pitch_loop_total_real params (pitch_omega params)
                (pitch_init params) lit_real_0) as [s Hs].
    exists (pitch_result s). intros k.
    rewrite (while_loop_more_fuel _ _ _ _ _ Hs k). reflexivity.
Qed.

End RealTotal.

(** X18.  The three entry points are total in exact arithmetic too,
    whatever the [Math] library: the clock of the batting loop is at
    20 s after 2000 passes, the one of the pitch loop above 5 s after
    2501, and the solver makes at most 10 passes. *)
Theorem engine_total_exact (ML : MathLib R) :
  (forall v la sa ws wd : R, exists r, forall k,
      calculateTrajectory (bat_fuel + k) v la sa ws wd = Some r) /\
  (forall params : PitchingParams, exists r, forall k,
      calculatePitchTrajectory (pitch_fuel + k) params = Some r) /\
  (forall (params : PitchingParams) (tx ty : R),
      exists a, forall k,
        solvePitchAngles (pitch_fuel + k) params tx ty = Some a).
Proof.
  split; [|split].
  - intros. apply bat_total_real.
  - intros. apply pitch_total_real.
  - intros. apply solve_returns. intros p. apply pitch_total_real.
Qed.

(** ** The symmetry of a pitch *)

Section RealMirror.

#[local] Existing Instance real_math.
Local Open Scope R_scope.

Lemma pitch_init_mirror (params : PitchingParams) :
  pitch_init (mirror_params params) = mirror_state (pitch_init params).
Proof.
  unfold pitch_init, mirror_state, mirror_params. simpl.
  assert (H0 : Q2R 0 = 0) by (unfold Q2R; simpl; lra). rewrite !H0.
  replace (- hAngle params * (PI / Q2R 180))
    with (- (hAngle params * (PI / Q2R 180))) by ring.
  rewrite sin_neg, cos_neg.
  f_equal; unfold Rdiv; ring.
Qed.

Lemma pitch_sample_mirror (s : PitchState) :
  pitch_sample (mirror_state s) = mirror_point (pitch_sample s).
Proof.
  unfold pitch_sample, mirror_point, mirror_state. simpl.
  unfold mirror_xy. simpl. f_equal. f_equal. f_equal. ring.
Qed.

(** One pass of the mirrored pitch is the mirror image of the pass. *)
Lemma pitch_body_mirror (params : PitchingParams) (omega : R)
  (s : PitchState) :
  pitch_body (mirror_params params) omega (mirror_state s)
  = flow_map mirror_state (pitch_body params omega s).
Proof.
  unfold pitch_body.
  change (q_t (mirror_state s)) with (q_t s).
  change (q_y (mirror_state s)) with (q_y s).
  change (q_z (mirror_state s)) with (q_z s).
  change (q_maxHeight (mirror_state s)) with (q_maxHeight s).
  change (q_points (mirror_state s)) with (map mirror_point (q_points s)).
  rewrite pitch_sample_mirror.
  destruct (nltb MAX_SIMULATION_TIME (q_t s)).
  { unfold flow_map, mirror_state.
    cbn [q_x q_y q_z q_t q_vx q_vy q_vz q_points q_maxHeight q_plateCrossing
         q_vBreakX q_vBreakY q_currentBreakX q_currentBreakY].
    rewrite map_app. reflexivity. }
  destruct (nleb (q_y s) (lit 0)).
  { unfold flow_map, mirror_state.
    cbn [q_x q_y q_z q_t q_vx q_vy q_vz q_points q_maxHeight q_plateCrossing
         q_vBreakX q_vBreakY q_currentBreakX q_currentBreakY].
    rewrite map_app. reflexivity. }
  unfold flow_map, mirror_state.
  cbn [q_x q_y q_z q_t q_vx q_vy q_vz q_points q_maxHeight q_plateCrossing
       q_vBreakX q_vBreakY q_currentBreakX q_currentBreakY
       spinDirection mirror_params].
  cbv zeta. real_ops.
  replace (- q_vx s * - q_vx s) with (q_vx s * q_vx s) by ring.
  match goal with
  | |- context [R_sqrt.sqrt ?e] => set (V := R_sqrt.sqrt e)
  end.
  replace (- spinDirection params * (Math_PI / lit 180))
    with (- (spinDirection params * (Math_PI / lit 180))) by ring.
  change (@Math_sin R real_math) with sin.
  change (@Math_cos R real_math) with cos.
  rewrite sin_neg, cos_neg.
  set (D := lit 0.5 * AIR_DENSITY * Math_pow2 V * DRAG_COEFFICIENT * BALL_AREA
            / BALL_MASS).
  set (L := lit 0.5 * AIR_DENSITY * Math_pow2 V * BALL_AREA
            * (BALL_RADIUS * omega / V)).
  set (sn := sin (spinDirection params * (Math_PI / lit 180))).
  set (cs := cos (spinDirection params * (Math_PI / lit 180))).
  f_equal. f_equal; try (unfold Rdiv; ring).
  - rewrite map_app. reflexivity.
  - destruct (_ && _); [|reflexivity].
    unfold interpolate_plate, mirror_xy. real_ops. simpl.
    f_equal. f_equal. unfold Rdiv. ring.
Qed.

Lemma pitch_loop_mirror (params : PitchingParams) (omega : R) (fuel : nat) :
  forall s : PitchState,
    while_loop pitch_cond (pitch_body (mirror_params params) omega) fuel
      (mirror_state s)
    = option_map mirror_state
        (while_loop pitch_cond (pitch_body params omega) fuel s).
Proof.
  induction fuel as [|fuel IH]; intros s; [reflexivity|].
  cbn [while_loop]. change (pitch_cond (mirror_state s)) with (pitch_cond s).
  destruct (pitch_cond s); [|reflexivity].
  rewrite pitch_body_mirror.
  destruct (pitch_body params omega s) as [s'|s']; simpl; [apply IH|].
  reflexivity.
Qed.

Lemma pitch_result_mirror (s : PitchState) :
  pitch_result (mirror_state s) = mirror_result (pitch_result s).
Proof.
  unfold pitch_result, mirror_result.
  cbn [points distance maxHeight hangTime landingPosition finalPosition
       plateCrossing option_map].
  change (q_points (mirror_state s)) with (map mirror_point (q_points s)).
  rewrite pitch_sample_mirror, map_app.
  change (q_plateCrossing (mirror_state s))
    with (option_map mirror_xy (q_plateCrossing s)).
  destruct (q_plateCrossing s); reflexivity.
Qed.

Lemma pitch_degenerate_mirror (params : PitchingParams) :
  pitch_degenerate (mirror_params params)
  = mirror_result (pitch_degenerate params).
Proof.
  unfold pitch_degenerate, mirror_result, mirror_params, mirror_point,
    mirror_xy. simpl.
  assert (H0 : Q2R 0 = 0) by (unfold Q2R; simpl; lra). rewrite !H0.
  replace (- releaseSide params / Q2R 100)
    with (- (releaseSide params / Q2R 100)) by (unfold Rdiv; ring).
  replace (- 0) with 0 by ring. reflexivity.
Qed.

Lemma pitch_mirror_fuel (fuel : nat) (params : PitchingParams) :
  calculatePitchTrajectory fuel (mirror_params params)
  = option_map mirror_result (calculatePitchTrajectory fuel params).
Proof.
  unfold calculatePitchTrajectory.
  change (velocity (mirror_params params)) with (velocity params).
  destruct (nleb (velocity params) (lit 0.1)).
  - simpl. rewrite pitch_degenerate_mirror. reflexivity.
  - change (pitch_omega (mirror_params params)) with (pitch_omega params).
    rewrite pitch_init_mirror, pitch_loop_mirror.
    destruct (while_loop _ _ _ _); [|reflexivity].
    simpl. rewrite pitch_result_mirror. reflexivity.
Qed.

(** X19.  In exact arithmetic, with the sine and cosine of the real
    numbers, the engine has no side: the pitch with the release side, the
    horizontal angle and the spin direction negated returns the mirror
    image of the result of the pitch.  Every sample, the break, the final
    position and the plate crossing have x negated; heights, depths,
    times, distance, maximum height and hang time are the same. *)
Theorem pitch_mirror (params : PitchingParams) :
  exists r,
    (forall k, calculatePitchTrajectory (pitch_fuel + k) params = Some r) /\
    (forall k, calculatePitchTrajectory (pitch_fuel + k) (mirror_params params)
               = Some (mirror_result r)).
Proof.
  destruct (pitch_total_real params) as [r Hr].
  exists r. split; [exact Hr|]. intros k.
  rewrite pitch_mirror_fuel, Hr. reflexivity.
Qed.

End RealMirror.

(** ** Concrete instances *)

Section Instances.

Local Open Scope num_scope.

(** Witness of X11: the pitch of the application at 145.1 km/h, with
    other angles, another target and another gyro degree. *)
Lemma unused_pitch_fields_witness :
  solvePitchAngles (ML := RefMath.ref_math) pitch_fuel
    (with_target (with_angles (app_pitch (lit 145.1)) (lit 5) (lit 5))
       (lit 0.3) (lit 0.9) (lit 45))
    (lit 0) (lit 0.76)
  = solvePitchAngles (ML := RefMath.ref_math) pitch_fuel
      (app_pitch (lit 145.1)) (lit 0) (lit 0.76).
Proof.
  apply (proj2 (@unused_pitch_fields float float_arith RefMath.ref_math)).
  vm_compute. reflexivity.
Defined.

(** Witness of X13: a step along the diagonal and a segment parallel to
    it. *)
Lemma line_intersection_parallel_witness :
  getLineIntersection (A := float) (lit 0) (lit 0) (lit 1) (lit 1)
    (lit 0) (lit 1) (lit 1) (lit 2) = None.
Proof.
  apply line_intersection_parallel; vm_compute; reflexivity.
Defined.

(** Witness of X14: the diagonals of a square meet in its centre. *)
Lemma line_intersection_exact_witness :
  (getLineIntersection 0 0 2 2 0 2 2 0 = Some (1, 1) <->
   exists t s : R,
     0 <= t <= 1 /\ 0 <= s <= 1 /\
     1 = 0 + t * (2 - 0) /\ 1 = 0 + t * (2 - 0) /\
     1 = 0 + s * (2 - 0) /\ 1 = 2 + s * (0 - 2))%R.
Proof.
  apply (line_intersection_exact 0 0 2 2 0 2 2 0). lra.
Defined.

(** The wall test is open for the strike on the right-centre segment. *)
Lemma wall_strike_gate_real : wall_gate (A := R) wall_strike = true.
Proof.
  unfold wall_gate. real_lits.
  replace (Rltb (60 * / 1) (125 * / 1)) with true
    by (symmetry; apply Rltb_true; lra).
  replace (Rleb (0 * / 1) (2 * / 1)) with true
    by (symmetry; apply Rleb_true; lra).
  replace (Rleb (2 * / 1) (40 * / 10)) with true
    by (symmetry; apply Rleb_true; lra).
  reflexivity.
Qed.

(** Witness of X15: the strike on the right-centre segment. *)
Lemma wall_bounce_inside_witness :
  exists nx nz : R,
    wall_normal (A := R) right_centre = (nx, nz) /\
    let s' := wall_collision (A := R) (lit 10) (lit 100) wall_strike in
    (nx * (b_x s' - x1 right_centre) + nz * (b_z s' - z1 right_centre)
     = 2 / 10 /\
     0 <= nx * (0 - x1 right_centre) + nz * (0 - z1 right_centre) /\
     b_vx s' * nx + b_vz s' * nz
     = - (7 / 10) * (b_vx wall_strike * nx + b_vz wall_strike * nz))%R.
Proof.
  destruct right_centre_normal_real as (nx & nz & Hn & Hneg).
  exists nx, nz. split; [exact Hn|].
  apply (wall_bounce_inside (lit 10) (lit 100) wall_strike right_centre
           _ nx nz wall_strike_gate_real wall_strike_real_hit Hn).
  - real_lits. lra.
  - real_lits. lra.
Defined.

(** Witness of X16: the two samples on either side of the plate. *)
Lemma plate_interpolation_exact_witness :
  exists f : R,
    (0 <= f < 1 /\
     p_z sample_before_plate
     + (p_z sample_behind_plate - p_z sample_before_plate) * f = 0 /\
     crossing_between (A := R) sample_before_plate sample_behind_plate
     = [(p_x sample_before_plate
         + (p_x sample_behind_plate - p_x sample_before_plate) * f,
         p_y sample_before_plate
         + (p_y sample_behind_plate - p_y sample_before_plate) * f)])%R.
Proof.
  apply (plate_interpolation_exact sample_before_plate sample_behind_plate).
  - real_lits. lra.
  - real_lits. lra.
Defined.

(** In still air the falling ball reaches the ground within one step,
    faster than it began. *)
Lemma falling_ball_flight :
  let f := bat_fly (ML := real_math) 0%R 0%R 0%R falling_ball in
  (b_y f <= 0 /\ b_vy f <= -5)%R.
Proof.
  pose proof PI_RGT_0 as Hpi0. pose proof PI_4 as Hpi4.
  cbv zeta. unfold bat_fly.
  set (i := bat_integrate (ML := real_math) 0%R 0%R 0%R falling_ball).
  assert (Hi : (b_z i = 0 /\ b_y i <= 0 /\ b_vy i <= -5)%R).
  { unfold i, bat_integrate, falling_ball.
    cbn [b_x b_y b_z b_t b_vx b_vy b_vz b_points b_maxHeight b_carryDistance
         b_landingPosition b_hasHitGround].
    real_lits.
    match goal with
    | |- context [R_sqrt.sqrt ?e] => replace e with (5 * 5)%R by lra
    end.
    rewrite sqrt_square by lra.
    replace (Rltb (1 * / 10) 5) with true by (symmetry; apply Rltb_true; lra).
    replace (Rltb (5 * / 100) (1 * / 100)) with false
      by (symmetry; apply Rltb_false; lra).
    cbn [b_z b_y b_vy]. repeat split; lra. }
  destruct Hi as (Hz & Hy & Hvy).
  rewrite wall_collision_closed; [split; assumption|].
  unfold wall_gate. rewrite Hz.
  replace (nltb (lit 60) 0%R) with false
    by (symmetry; apply Rltb_false; real_lits; lra).
  reflexivity.
Qed.

(** Witness of X17: the falling ball in still air. *)
Lemma ground_bounce_exact_witness :
  let f := bat_fly (ML := real_math) 0%R 0%R 0%R falling_ball in
  (b_vy f <= -1 /\
   exists s',
     bat_body (ML := real_math) 0 0 0 falling_ball = Next s' /\
     b_x s' = b_x f /\ b_y s' = 0 /\ b_z s' = b_z f /\
     b_vy s' = 45 / 100 * - b_vy f /\
     45 / 100 <= b_vy s' /\
     bat_speed s' = 92 / 100 * bat_speed f)%R.
Proof.
  apply (ground_bounce_exact real_math 0%R 0%R 0%R falling_ball).
  - unfold falling_ball. real_lits. lra.
  - exact (proj1 falling_ball_flight).
  - pose proof (proj2 falling_ball_flight) as H. cbv zeta in H.
    rewrite Rabs_left1; lra.
Defined.

End Instances.
(** ** The earlier engine *)

Section EarlierPitch.

Context {A : Type} {AR : Arith A} {ML : MathLib A}.
Local Open Scope num_scope.

Lemma earlier_pitch_body (params : PitchingParams) (omega : A)
  (s : PitchState) :
  Earlier.pitch_body params omega (forget_state s)
  = flow_map forget_state (pitch_body params omega s).
Proof.
  unfold Earlier.pitch_body, pitch_body.
  change (Earlier.q_t (forget_state s)) with (q_t s).
  change (Earlier.q_y (forget_state s)) with (q_y s).
  destruct (q_t s >? MAX_SIMULATION_TIME).
  { unfold flow_map, forget_state. simpl. rewrite map_app. reflexivity. }
  destruct (q_y s <=? lit 0).
  { unfold flow_map, forget_state. simpl. rewrite map_app. reflexivity. }
  unfold flow_map, forget_state. simpl. rewrite map_app. reflexivity.
Qed.

Lemma earlier_pitch_loop (params : PitchingParams) (omega : A) (fuel : nat) :
  forall s : PitchState,
    while_loop Earlier.pitch_cond (Earlier.pitch_body params omega) fuel
      (forget_state s)
    = option_map forget_state
        (while_loop pitch_cond (pitch_body params omega) fuel s).
Proof.
  induction fuel as [|fuel IH]; intros s; [reflexivity|].
  cbn [while_loop].
  change (Earlier.pitch_cond (forget_state s)) with (pitch_cond s).
  destruct (pitch_cond s); [|reflexivity].
  rewrite earlier_pitch_body.
  destruct (pitch_body params omega s) as [s'|s']; simpl; [apply IH|].
  reflexivity.
Qed.

(** X20.  Tracking the break only observes.  The pitch integrator of
    the two earlier states of the file, which has no break bookkeeping,
    returns for every fuel and in every arithmetic (so on binary64 bit for
    bit) the result of the present integrator with the break of each
    sample removed: same positions, times, maximum height, distance,
    hang time, final position and plate crossing. *)
Theorem break_tracking_observes (fuel : nat) (params : PitchingParams) :
  Earlier.calculatePitchTrajectory fuel params
  = option_map forget_break (calculatePitchTrajectory fuel params).
Proof.
  unfold Earlier.calculatePitchTrajectory, calculatePitchTrajectory.
  destruct (velocity params <=? lit 0.1); [reflexivity|].
  change (Earlier.pitch_init params) with (forget_state (pitch_init params)).
  rewrite earlier_pitch_loop.
  destruct (while_loop _ _ _ _) as [s|]; [|reflexivity].
  simpl. unfold Earlier.pitch_result, forget_break, pitch_result. simpl.
  rewrite map_app. reflexivity.
Qed.

End EarlierPitch.

Section EarlierFlight.

Context {ML : MathLib float}.
Local Open Scope num_scope.

Lemma flight_body_record (wx wy wz : float) (s : Earlier.FlightState) :
  exists s',
    Earlier.flight_body wx wy wz s = Next s' /\
    Earlier.f_t s' = Earlier.f_t s + bat_dt /\
    Earlier.f_points s'
    = Earlier.f_points s
      ++ [mkPoint (Earlier.f_x s) (Earlier.f_y s) (Earlier.f_z s)
                  (Earlier.f_t s) None].
Proof.
  unfold Earlier.flight_body. destruct (_ >? lit 0); eexists; repeat split.
Qed.

Lemma flight_loop_total (wx wy wz : float) (s : Earlier.FlightState) :
  Earlier.f_t s = lit 0 ->
  exists r,
    while_loop Earlier.flight_cond (Earlier.flight_body wx wy wz) bat_fuel s
    = Some r.
Proof.
  intros Ht.
  apply (while_loop_clock Earlier.flight_cond (Earlier.flight_body wx wy wz)
           Earlier.f_t (fun c => c + bat_dt) (fun c => c <? bat_maxTime)).
  - intros s1 s1' Hc Hb.
    unfold Earlier.flight_cond in Hc. apply andb_true_iff in Hc.
    split; [exact (proj2 Hc)|].
    destruct (flight_body_record wx wy wz s1) as (s2 & Hb' & Ht' & _).
    congruence.
  - rewrite Ht. vm_compute. reflexivity.
Qed.

Lemma flight_inv_next (wx wy wz : float) (m : nat) (s : Earlier.FlightState) :
  flight_inv m s -> Earlier.flight_cond s = true ->
  flight_inv (Datatypes.S m) (flow_state (Earlier.flight_body wx wy wz s)).
Proof.
  intros (Ht & Hmap & Hall & Hin & Hfirst) Hc.
  destruct (flight_body_record wx wy wz s) as (s2 & Hb & Ht' & Hp).
  rewrite Hb. simpl flow_state.
  unfold Earlier.flight_cond in Hc. apply andb_true_iff in Hc.
  destruct Hc as [Hy Htime].
  split; [rewrite Ht', Ht, bat_clock_succ; reflexivity|].
  split.
  { rewrite Hp, map_app, Hmap, seq_S, map_app. simpl. rewrite Ht.
    reflexivity. }
  split.
  { rewrite Hp. apply Forall_app. split; [exact Hall|].
    constructor; [exact Hy|constructor]. }
  split.
  { intros i Hi. destruct (Nat.eq_dec i m) as [->|Hne].
    - rewrite <- Ht. exact Htime.
    - apply Hin. lia. }
  rewrite Hp, <- Hfirst.
  destruct (Earlier.f_points s); reflexivity.
Qed.

Lemma flight_run_inv (wx wy wz : float) (fuel : nat) (v la sa : float)
  (s : Earlier.FlightState) :
  while_loop Earlier.flight_cond (Earlier.flight_body wx wy wz) fuel
    (Earlier.flight_init v la sa) = Some s ->
  exists m, (m <= 1999)%nat /\ flight_inv (Datatypes.S m) s.
Proof.
  intros H.
  assert (Hinv : exists m, flight_inv (Datatypes.S m) s).
  { revert H.
    apply (while_loop_entered Earlier.flight_cond
             (Earlier.flight_body wx wy wz)
             (fun s => exists m, flight_inv (Datatypes.S m) s)).
    - vm_compute. reflexivity.
    - intros s1 [-> | (m & Hi)] Hc.
      + exists 0%nat.
        apply (flight_inv_next wx wy wz 0); [|exact Hc].
        split; [reflexivity|]. split; [reflexivity|].
        split; [constructor|]. split; [intros; lia|]. reflexivity.
      + exists (Datatypes.S m).
        exact (flight_inv_next wx wy wz (Datatypes.S m) s1 Hi Hc). }
  destruct Hinv as (m & Hi). exists m. split; [|exact Hi].
  destruct Hi as (_ & _ & _ & Hin & _).
  destruct (Nat.le_gt_cases m 1999) as [Hle|Hgt]; [exact Hle|].
  assert (H2000 : (2000 < Datatypes.S m)%nat) by lia.
  specialize (Hin 2000%nat H2000). rewrite bat_clock_runs_out in Hin.
  discriminate.
Qed.

(** X21.  The earliest batting function (the flight without fence,
    bounce or roll) is total on binary64; its first sample is the point
    of contact (0, 0.5, 0) at time 0, so the fallback sample at the
    origin is never used; it returns at most 2001 samples, every one at a
    height of at least zero (never NaN); its last sample is either the
    final position put on the ground, at the hang time, whose horizontal
    range is the distance, or one step before the hang time; and the
    distance is never below zero. *)
Theorem earlier_flight (v la sa ws wd : float) :
  exists r rest q,
    (forall k, Earlier.calculateTrajectory (bat_fuel + k) v la sa ws wd
               = Some r) /\
    points r = mkPoint (lit 0) (lit 0.5) (lit 0) (lit 0) None :: rest /\
    (length (points r) <= 2001)%nat /\
    Forall on_or_above_ground (points r) /\
    last_opt (points r) = Some q /\
    ((p_y q = lit 0 /\ p_t q = hangTime r /\
      distance r = nsqrt (p_x q * p_x q + p_z q * p_z q)) \/
     hangTime r = p_t q + bat_dt) /\
    (distance r <? lit 0) = false.
Proof.
  unfold Earlier.calculateTrajectory.
  destruct (bat_wind ws wd) as [[wx wy] wz].
  assert (Ht0 : Earlier.f_t (Earlier.flight_init v la sa) = lit 0)
    by reflexivity.
  destruct (flight_loop_total wx wy wz (Earlier.flight_init v la sa) Ht0)
    as [s Hs].
  destruct (flight_run_inv _ _ _ _ _ _ _ _ Hs)
    as (m & Hm & Ht & Hmap & Hall & _ & Hfirst).
  assert (Hlen : length (Earlier.f_points s) = Datatypes.S m).
  { rewrite <- (length_map p_t), Hmap, length_map, length_seq. reflexivity. }
  destruct (Earlier.f_points s) as [|p0 l] eqn:Hpts; [discriminate|].
  simpl in Hfirst. injection Hfirst as ->.
  destruct (exists_last (l := Earlier.f_points s)) as (pts & p & Hp).
  { rewrite Hpts. discriminate. }
  assert (Hpt : p_t p = bat_clock m).
  { rewrite Hpts in Hp. rewrite Hp, seq_S, !map_app in Hmap. simpl in Hmap.
    apply app_inj_tail in Hmap. exact (proj2 Hmap). }
  assert (Hr : forall k,
             option_map Earlier.flight_result
               (while_loop Earlier.flight_cond (Earlier.flight_body wx wy wz)
                  (bat_fuel + k) (Earlier.flight_init v la sa))
             = Some (Earlier.flight_result s)).
  { intros k. rewrite (while_loop_more_fuel _ _ _ _ _ Hs k). reflexivity. }
  assert (Hl : length l = m) by (cbn [length] in Hlen; lia).
  set (final := mkPoint (Earlier.f_x s) (lit 0) (Earlier.f_z s)
                       (Earlier.f_t s) None).
  destruct (Earlier.f_y s <? lit 0) eqn:Hneg.
  - assert (Hpoints : points (Earlier.flight_result s)
                      = mkPoint (lit 0) (lit 0.5) (lit 0) (lit 0) None
                        :: (l ++ [final])).
    { unfold Earlier.flight_result. cbv zeta. cbn [points].
      rewrite Hpts, Hneg. reflexivity. }
    exists (Earlier.flight_result s), (l ++ [final]), final.
    split; [exact Hr|]. split; [exact Hpoints|]. rewrite Hpoints.
    split; [cbn [length]; rewrite length_app; cbn [length]; lia|].
    split.
    { rewrite app_comm_cons. apply Forall_app. split; [exact Hall|].
      constructor; [reflexivity|constructor]. }
    split; [rewrite app_comm_cons; apply last_opt_snoc|].
    split; [left; repeat split|apply float_sqrt_not_neg].
  - assert (Hpoints : points (Earlier.flight_result s)
                      = mkPoint (lit 0) (lit 0.5) (lit 0) (lit 0) None :: l).
    { unfold Earlier.flight_result. cbv zeta. cbn [points].
      rewrite Hpts, Hneg. reflexivity. }
    exists (Earlier.flight_result s), l, p.
    split; [exact Hr|]. split; [exact Hpoints|]. rewrite Hpoints.
    split; [cbn [length]; lia|].
    split; [exact Hall|].
    split.
    { replace (mkPoint (lit 0) (lit 0.5) (lit 0) (lit 0) None :: l)
        with (pts ++ [p]) by exact (eq_trans (eq_sym Hp) Hpts).
      apply last_opt_snoc. }
    split; [|apply float_sqrt_not_neg].
    right. change (hangTime (Earlier.flight_result s)) with (Earlier.f_t s).
    rewrite Ht, Hpt. apply bat_clock_succ.
Qed.

End EarlierFlight.
(** ** The previous engine *)

Section PreviousBat.

Context {A : Type} {AR : Arith A} {ML : MathLib A}.
Local Open Scope num_scope.

Lemma previous_integrate (wx wy wz : A) (s : BatState) :
  Previous.bat_integrate wx wy wz (forget_landing s)
  = forget_landing (bat_integrate wx wy wz s).
Proof.
  unfold Previous.bat_integrate, bat_integrate, forget_landing. simpl.
  destruct (_ >? lit 0.1); reflexivity.
Qed.

Lemma previous_wall_bounce (seg : WallSegment) (p : A * A) (s : BatState) :
  Previous.wall_bounce seg p (forget_landing s)
  = forget_landing (wall_bounce seg p s).
Proof.
  unfold Previous.wall_bounce, wall_bounce.
  destruct (wall_normal seg) as [nx nz]. simpl.
  destruct (_ <? _); reflexivity.
Qed.

Lemma previous_wall_scan (segs : list WallSegment) (prevX prevZ : A)
  (s : BatState) :
  Previous.wall_scan segs prevX prevZ (forget_landing s)
  = forget_landing (wall_scan segs prevX prevZ s).
Proof.
  induction segs as [|seg rest IH]; [reflexivity|].
  cbn [Previous.wall_scan wall_scan].
  change (Previous.b_x (forget_landing s)) with (b_x s).
  change (Previous.b_z (forget_landing s)) with (b_z s).
  destruct (getLineIntersection _ _ _ _ _ _ _ _).
  - apply previous_wall_bounce.
  - exact IH.
Qed.

Lemma previous_wall_collision (prevX prevZ : A) (s : BatState) :
  Previous.wall_collision prevX prevZ (forget_landing s)
  = forget_landing (wall_collision prevX prevZ s).
Proof.
  unfold Previous.wall_collision, wall_collision.
  change (Previous.b_z (forget_landing s)) with (b_z s).
  change (Previous.b_y (forget_landing s)) with (b_y s).
  destruct (_ && _); [apply previous_wall_scan | reflexivity].
Qed.

Lemma previous_ground_collision (s : BatState) :
  Previous.ground_collision (forget_landing s)
  = flow_map forget_landing (ground_collision s).
Proof.
  unfold Previous.ground_collision, ground_collision.
  change (Previous.b_y (forget_landing s)) with (b_y s).
  destruct (b_y s <=? lit 0); [|reflexivity].
  change (Previous.b_hasHitGround (forget_landing s)) with (b_hasHitGround s).
  destruct (b_hasHitGround s); simpl;
    repeat (match goal with
            | |- context [if ?c then _ else _] => destruct c
            end; simpl); reflexivity.
Qed.

Lemma previous_body (wx wy wz : A) (s : BatState) :
  Previous.bat_body wx wy wz (forget_landing s)
  = flow_map forget_landing (bat_body wx wy wz s).
Proof.
  unfold Previous.bat_body, bat_body.
  change (Previous.b_x (forget_landing s)) with (b_x s).
  change (Previous.b_z (forget_landing s)) with (b_z s).
  rewrite previous_integrate, previous_wall_collision.
  apply previous_ground_collision.
Qed.

Lemma previous_loop (wx wy wz : A) (fuel : nat) :
  forall s : BatState,
    while_loop Previous.bat_cond (Previous.bat_body wx wy wz) fuel
      (forget_landing s)
    = option_map forget_landing
        (while_loop bat_cond (bat_body wx wy wz) fuel s).
Proof.
  induction fuel as [|fuel IH]; intros s; [reflexivity|].
  cbn [while_loop].
  change (Previous.bat_cond (forget_landing s)) with (bat_cond s).
  destruct (bat_cond s); [|reflexivity].
  rewrite previous_body.
  destruct (bat_body wx wy wz s) as [s'|s']; simpl; [apply IH|].
  reflexivity.
Qed.

(** X22.  Tracking the landing position only observes.  The batting
    function of the previous state of the file, which has no landing
    position, returns for every fuel and in every arithmetic (so on
    binary64 bit for bit) the result of the present function without its
    landing position: same samples, distance, maximum height and hang
    time. *)
Theorem landing_tracking_observes (fuel : nat) (v la sa ws wd : A) :
  Previous.calculateTrajectory fuel v la sa ws wd
  = option_map without_landing (calculateTrajectory fuel v la sa ws wd).
Proof.
  unfold Previous.calculateTrajectory, calculateTrajectory.
  destruct (bat_wind ws wd) as [[wx wy] wz].
  change (Previous.bat_init v la sa) with (forget_landing (bat_init v la sa)).
  rewrite previous_loop.
  destruct (while_loop _ _ _ _) as [s|]; reflexivity.
Qed.

End PreviousBat.
